(** * A shallow embedding of the data module: query model, adapters,
      data service and the query-string parsers of the REST surface.

    What is embedded, by package:
    - core, types: QueryFilter, QueryOptions, PaginatedResult, DataRecord,
      DataError;
    - core, adapters: the DataAdapter interface, InMemoryAdapter (all of
      it) and SupabaseAdapter.findMany;
    - core, services: DataService (all of it);
    - api, routes: parseFilters and parseOrderBy.

    Conventions.  JavaScript numbers that the code uses as counts, offsets and
    clock readings are integers here ([Z]); NaN and fractional values are
    outside the model.  A JavaScript string is a Rocq [string].  An [async]
    method whose body is awaited by its caller is a state transformer
    returning an [Outcome]: either the value the promise resolves to or the
    value it rejects with.  Each service operation is modelled on its own,
    without other requests interleaving at its suspension points. *)

From Stdlib Require Import ZArith Ascii String List Lia Bool.
From Stdlib Require Import DecimalString DecimalNat.
From stdpp Require Import base option gmap strings list fin_maps.

Local Open Scope string_scope.
Local Open Scope Z_scope.

Set Warnings "-register-all".

(** ** JavaScript strings and arrays *)

Module Js.

Definition colon : ascii := ":"%char.

(** [s.split(sep)] for a one-character separator: never empty, the empty
    string splits into one empty segment. *)
Fixpoint split (sep : ascii) (s : string) : list string :=
  match s with
  | EmptyString => [EmptyString]
  | String c rest =>
      if Ascii.eqb c sep then EmptyString :: split sep rest
      else match split sep rest with
           | seg :: segs => String c seg :: segs
           | [] => [String c EmptyString]
           end
  end.

(** [parts.join(sep)]. *)
Fixpoint join (sep : string) (parts : list string) : string :=
  match parts with
  | [] => EmptyString
  | [p] => p
  | p :: more => p +:+ sep +:+ join sep more
  end.

(** [s.startsWith(p)]. *)
Fixpoint startsWith (p s : string) : bool :=
  match p, s with
  | EmptyString, _ => true
  | String a p', String b s' => Ascii.eqb a b && startsWith p' s'
  | String _ _, EmptyString => false
  end.

(** [arr.includes(x)] on an array of strings. *)
Definition includes (arr : list string) (x : string) : bool :=
  existsb (String.eqb x) arr.

(** [arr.slice(start, end)] for integer arguments: a negative index counts
    from the end, both indices are clamped to the array. *)
Definition relIndex (len i : Z) : Z :=
  if i <? 0 then Z.max (len + i) 0 else Z.min i len.

Definition slice {A} (start stop : Z) (arr : list A) : list A :=
  let len := Z.of_nat (length arr) in
  let k := relIndex len start in
  let final := relIndex len stop in
  firstn (Z.to_nat (Z.max (final - k) 0)) (skipn (Z.to_nat k) arr).

(** [arr.findIndex(p)], with [None] for the result -1. *)
Fixpoint findIndex {A} (p : A → bool) (arr : list A) : option nat :=
  match arr with
  | [] => None
  | x :: rest => if p x then Some O else S <$> findIndex p rest
  end.

(** [arr.splice(idx, 1)]. *)
Fixpoint splice1 {A} (idx : nat) (arr : list A) : list A :=
  match idx, arr with
  | _, [] => []
  | O, _ :: rest => rest
  | S i, x :: rest => x :: splice1 i rest
  end.

End Js.

(** ** Regular expressions of the service *)

Module Regex.

(** The fragment the two patterns of data.ts are written in: character
    classes, concatenation and bounded repetition [r{lo,hi}]. *)
Inductive regex : Type :=
| Class (p : ascii → bool)
| Seq (r1 r2 : regex)
| Rep (r : regex) (lo hi : nat).

(** Backtracking matcher in continuation style: [run r k s] holds when a
    prefix of [s] matches [r] and [k] accepts what is left.  Repetition is
    greedy. *)
Fixpoint run (r : regex) (k : string → bool) (s : string) : bool :=
  match r with
  | Class p =>
      match s with
      | String c rest => p c && k rest
      | EmptyString => false
      end
  | Seq r1 r2 => run r1 (run r2 k) s
  | Rep r1 lo hi =>
      (fix rep (lo hi : nat) (s : string) {struct hi} : bool :=
         match hi with
         | O => Nat.eqb lo 0 && k s
         | S hi' => run r1 (rep (Nat.pred lo) hi') s || (Nat.eqb lo 0 && k s)
         end) lo hi s
  end.

(** [/^r$/.test(s)]: without the [m] flag, [$] is the end of the input. *)
Definition test (r : regex) (s : string) : bool :=
  run r (fun rest => match rest with EmptyString => true | _ => false end) s.

Definition in_range (lo hi c : ascii) : bool :=
  (nat_of_ascii lo <=? nat_of_ascii c)%nat && (nat_of_ascii c <=? nat_of_ascii hi)%nat.

Definition lower c := in_range "a" "z" c.
Definition upper c := in_range "A" "Z" c.
Definition digit c := in_range "0" "9" c.
Definition underscore c := Ascii.eqb c "_".
Definition hyphen c := Ascii.eqb c "-".

End Regex.

(** ** Values of type [unknown] and [JSON.parse] *)

Module Json.

(** A value that [JSON.parse] can produce.  A number is kept as the exact
    decimal [mantissa * 10 ^ exponent] it was written as, with trailing
    zeros of the mantissa moved into the exponent; rounding to a double
    and the sign of zero are not represented.  An object keeps its
    members as written. *)
Inductive JsValue : Type :=
| JsNull
| JsBool (b : bool)
| JsNumber (mantissa exponent : Z)
| JsString (s : string)
| JsArray (items : list JsValue)
| JsObject (members : list (string * JsValue)).

Definition dquote : ascii := "034"%char.
Definition backslash : ascii := "\"%char.

Definition is_ws (c : ascii) : bool :=
  Ascii.eqb c " " || Ascii.eqb c "009" || Ascii.eqb c "010" || Ascii.eqb c "013".

Fixpoint skip_ws (s : string) : string :=
  match s with
  | String c rest => if is_ws c then skip_ws rest else s
  | EmptyString => s
  end.

(** [literal p s] is what follows [p] in [s]. *)
Fixpoint literal (p s : string) : option string :=
  match p, s with
  | EmptyString, _ => Some s
  | String a p', String b s' => if Ascii.eqb a b then literal p' s' else None
  | String _ _, EmptyString => None
  end.

Definition digit_of (c : ascii) : option Z :=
  let n := Z.of_nat (nat_of_ascii c) in
  if (48 <=? n) && (n <=? 57) then Some (n - 48) else None.

Definition hex_of (c : ascii) : option Z :=
  let n := Z.of_nat (nat_of_ascii c) in
  if (48 <=? n) && (n <=? 57) then Some (n - 48)
  else if (65 <=? n) && (n <=? 70) then Some (n - 55)
  else if (97 <=? n) && (n <=? 102) then Some (n - 87)
  else None.

(** The longest run of decimal digits at the head of [s]. *)
Fixpoint take_digits (s : string) : list Z * string :=
  match s with
  | String c rest =>
      match digit_of c with
      | Some d => let '(ds, rest') := take_digits rest in (d :: ds, rest')
      | None => ([], s)
      end
  | EmptyString => ([], s)
  end.

Definition digits_value (ds : list Z) : Z :=
  fold_left (fun acc d => 10 * acc + d) ds 0.

Fixpoint drop_zeros (ds : list Z) : list Z * Z :=
  match ds with
  | d :: rest =>
      if d =? 0 then let '(ds', n) := drop_zeros rest in (ds', n + 1)
      else (ds, 0)
  | [] => ([], 0)
  end.

Definition decimal (negative : bool) (digits : list Z) (exponent : Z) : JsValue :=
  let '(rev_digits, zeros) := drop_zeros (rev digits) in
  let m := digits_value (rev rev_digits) in
  if m =? 0 then JsNumber 0 0
  else JsNumber (if negative then - m else m) (exponent + zeros).

(** A number: an optional minus sign; an integer part that is 0 or starts
    with a non-zero digit; an optional fraction of at least one digit; an
    optional exponent with an optional sign and at least one digit. *)
Definition parse_number (s : string) : option (JsValue * string) :=
  let '(negative, s1) :=
    match s with
    | String c rest => if Ascii.eqb c "-" then (true, rest) else (false, s)
    | EmptyString => (false, s)
    end in
  let '(int_digits, s2) := take_digits s1 in
  match int_digits with
  | [] => None
  | d :: more =>
      if (d =? 0) && negb (Nat.eqb (length more) 0) then None
      else
        let frac :=
          match s2 with
          | String c rest =>
              if Ascii.eqb c "." then
                match take_digits rest with
                | ([], _) => None
                | (ds, rest') => Some (ds, rest')
                end
              else Some ([], s2)
          | EmptyString => Some ([], s2)
          end in
        match frac with
        | None => None
        | Some (frac_digits, s3) =>
            let scale := - Z.of_nat (length frac_digits) in
            let all := (int_digits ++ frac_digits)%list in
            match s3 with
            | String c rest =>
                if Ascii.eqb c "e" || Ascii.eqb c "E" then
                  let '(exp_negative, s4) :=
                    match rest with
                    | String c' rest' =>
                        if Ascii.eqb c' "-" then (true, rest')
                        else if Ascii.eqb c' "+" then (false, rest')
                        else (false, rest)
                    | EmptyString => (false, rest)
                    end in
                  match take_digits s4 with
                  | ([], _) => None
                  | (ds, s5) =>
                      let e := digits_value ds in
                      Some (decimal negative all
                              (scale + (if exp_negative then - e else e)), s5)
                  end
                else Some (decimal negative all scale, s3)
            | EmptyString => Some (decimal negative all scale, s3)
            end
        end
  end.

Definition byte (n : Z) : ascii := ascii_of_nat (Z.to_nat n).

(** The bytes a UTF-16 code unit written as [\uXXXX] is stored as. *)
Definition code_unit (u : Z) : string :=
  if u <? 128 then String (byte u) EmptyString
  else if u <? 2048 then
    String (byte (192 + u / 64)) (String (byte (128 + u mod 64)) EmptyString)
  else
    String (byte (224 + u / 4096))
      (String (byte (128 + (u / 64) mod 64))
         (String (byte (128 + u mod 64)) EmptyString)).

Definition escape_of (c : ascii) : option ascii :=
  if Ascii.eqb c dquote then Some dquote
  else if Ascii.eqb c backslash then Some backslash
  else if Ascii.eqb c "/" then Some "/"%char
  else if Ascii.eqb c "b" then Some "008"%char
  else if Ascii.eqb c "f" then Some "012"%char
  else if Ascii.eqb c "n" then Some "010"%char
  else if Ascii.eqb c "r" then Some "013"%char
  else if Ascii.eqb c "t" then Some "009"%char
  else None.

(** The characters of a string literal after its opening quote, up to and
    including the closing quote. *)
Fixpoint parse_chars (s : string) : option (string * string) :=
  match s with
  | EmptyString => None
  | String c rest =>
      if Ascii.eqb c dquote then Some (EmptyString, rest)
      else if Ascii.eqb c backslash then
        match rest with
        | String e rest1 =>
            if Ascii.eqb e "u" then
              match rest1 with
              | String h1 (String h2 (String h3 (String h4 rest2))) =>
                  match hex_of h1, hex_of h2, hex_of h3, hex_of h4 with
                  | Some a, Some b, Some c', Some d =>
                      match parse_chars rest2 with
                      | Some (str, rest3) =>
                          Some (code_unit (((a * 16 + b) * 16 + c') * 16 + d) +:+ str, rest3)
                      | None => None
                      end
                  | _, _, _, _ => None
                  end
              | _ => None
              end
            else
              match escape_of e, parse_chars rest1 with
              | Some x, Some (str, rest2) => Some (String x str, rest2)
              | _, _ => None
              end
        | EmptyString => None
        end
      else if (nat_of_ascii c <? 32)%nat then None
      else
        match parse_chars rest with
        | Some (str, rest1) => Some (String c str, rest1)
        | None => None
        end
  end.

Definition head_is (c : ascii) (s : string) : option string :=
  match s with
  | String c' rest => if Ascii.eqb c c' then Some rest else None
  | EmptyString => None
  end.

(** One value, given the parsers to use inside an array and inside an
    object. *)
Definition value_step
    (elements : string → option (list JsValue * string))
    (members : string → option (list (string * JsValue) * string))
    (s : string) : option (JsValue * string) :=
  let s := skip_ws s in
  match s with
  | EmptyString => None
  | String c rest =>
      if Ascii.eqb c "n" then (fun r => (JsNull, r)) <$> literal "null" s
      else if Ascii.eqb c "t" then (fun r => (JsBool true, r)) <$> literal "true" s
      else if Ascii.eqb c "f" then (fun r => (JsBool false, r)) <$> literal "false" s
      else if Ascii.eqb c dquote then
        match parse_chars rest with
        | Some (str, rest') => Some (JsString str, rest')
        | None => None
        end
      else if Ascii.eqb c "[" then
        match head_is "]" (skip_ws rest) with
        | Some rest' => Some (JsArray [], rest')
        | None =>
            match elements rest with
            | Some (vs, rest') => Some (JsArray vs, rest')
            | None => None
            end
        end
      else if Ascii.eqb c "{" then
        match head_is "}" (skip_ws rest) with
        | Some rest' => Some (JsObject [], rest')
        | None =>
            match members rest with
            | Some (ms, rest') => Some (JsObject ms, rest')
            | None => None
            end
        end
      else parse_number s
  end.

(** The elements of a non-empty array up to and including its closing
    bracket, given the parsers for one value and for the elements after a
    comma. *)
Definition elements_step
    (value : string → option (JsValue * string))
    (elements : string → option (list JsValue * string))
    (s : string) : option (list JsValue * string) :=
  match value s with
  | Some (v, rest) =>
      match skip_ws rest with
      | String c rest' =>
          if Ascii.eqb c "," then
            match elements rest' with
            | Some (vs, rest'') => Some (v :: vs, rest'')
            | None => None
            end
          else if Ascii.eqb c "]" then Some ([v], rest')
          else None
      | EmptyString => None
      end
  | None => None
  end.

(** The members of a non-empty object up to and including its closing
    brace. *)
Definition members_step
    (value : string → option (JsValue * string))
    (members : string → option (list (string * JsValue) * string))
    (s : string) : option (list (string * JsValue) * string) :=
  match head_is dquote (skip_ws s) with
  | Some s1 =>
      match parse_chars s1 with
      | Some (key, s2) =>
          match head_is ":" (skip_ws s2) with
          | Some s3 =>
              match value s3 with
              | Some (v, rest) =>
                  match skip_ws rest with
                  | String c rest' =>
                      if Ascii.eqb c "," then
                        match members rest' with
                        | Some (ms, rest'') => Some ((key, v) :: ms, rest'')
                        | None => None
                        end
                      else if Ascii.eqb c "}" then Some ([(key, v)], rest')
                      else None
                  | EmptyString => None
                  end
              | None => None
              end
          | None => None
          end
      | None => None
      end
  | None => None
  end.

(** The three parsers; [fuel] bounds the depth of their calls of each
    other. *)
Fixpoint parse_value (fuel : nat) (s : string) : option (JsValue * string) :=
  match fuel with
  | O => None
  | S fuel' => value_step (parse_elements fuel') (parse_members fuel') s
  end
with parse_elements (fuel : nat) (s : string) : option (list JsValue * string) :=
  match fuel with
  | O => None
  | S fuel' => elements_step (parse_value fuel') (parse_elements fuel') s
  end
with parse_members (fuel : nat) (s : string)
  : option (list (string * JsValue) * string) :=
  match fuel with
  | O => None
  | S fuel' => members_step (parse_value fuel') (parse_members fuel') s
  end.

(** [JSON.parse(text)]: [Some v] for the value of a well-formed text,
    [None] where JavaScript throws a SyntaxError.  The fuel is enough for
    every text: more of it never changes the result (see
    [parse_stable] and [parse_adequate]). *)
Definition parse (text : string) : option JsValue :=
  match parse_value (2 * String.length text + 2) text with
  | Some (v, rest) =>
      match skip_ws rest with
      | EmptyString => Some v
      | String _ _ => None
      end
  | None => None
  end.

End Json.

(** ** types/index.ts *)

Module QueryFilter.
(** [operator] is declared as a union of ten literals, but a filter parsed
    from a query string carries whatever text stood between the colons (the
    cast in [parseFilters] checks nothing), so it is a string here. *)
Record t : Type := { field : string; operator : string; value : Json.JsValue }.
End QueryFilter.

Module OrderBy.
Inductive Direction : Type := asc | desc.
Record t : Type := { field : string; direction : Direction }.
End OrderBy.

Module QueryOptions.
Record t : Type := {
  filters : option (list QueryFilter.t);
  orderBy : option (list OrderBy.t);
  limit : option Z;
  offset : option Z;
  select : option (list string)
}.
End QueryOptions.

Module DataRecord.
(** [id], the two optional timestamps, and the index signature
    [[key: string]: unknown] as a finite map of the remaining fields.
    [created_at] is declared a string, but the in-memory [update] stores
    under it whatever value its [data] carries there, so it holds any
    value. *)
Record t : Type := {
  id : string;
  created_at : option Json.JsValue;
  updated_at : option string;
  fields : gmap string Json.JsValue
}.

(** The keys that [Omit<T, 'id' | 'created_at' | 'updated_at'>] leaves out. *)
Definition omit_reserved (data : gmap string Json.JsValue) : gmap string Json.JsValue :=
  delete "id" (delete "created_at" (delete "updated_at" data)).
End DataRecord.

Module PaginatedResult.
Record t : Type := {
  data : list DataRecord.t;
  count : Z;
  limit : Z;
  offset : Z;
  hasMore : bool
}.
End PaginatedResult.

Inductive ErrorCode : Type := VALIDATION | NOT_FOUND | ADAPTER | UNKNOWN.

(** What a [throw] can carry: [new Error(message)], [new DataError(message,
    code)] (which is an [Error] too), or a value that is not an instance of
    [Error]. *)
Inductive Thrown : Type :=
| PlainError (message : string)
| DataError (message : string) (code : ErrorCode)
| NotAnError.

(** [err instanceof Error ? err.message : fallback] *)
Definition message_or (fallback : string) (err : Thrown) : string :=
  match err with
  | PlainError m => m
  | DataError m _ => m
  | NotAnError => fallback
  end.

(** How an awaited call ends. *)
Inductive Outcome (T : Type) : Type :=
| Resolved (v : T)
| Rejected (err : Thrown).
Arguments Resolved {T} v.
Arguments Rejected {T} err.

Record Health : Type := { ok : bool; latencyMs : Z }.

(** ** adapters: the DataAdapter interface *)

Module Adapter.
(** An adapter with state [A]; every method returns how the call ended and
    the adapter's state after it. *)
Class DataAdapter (A : Type) : Type := {
  findMany : string → option QueryOptions.t → A → Outcome PaginatedResult.t * A;
  findOne : string → string → A → Outcome (option DataRecord.t) * A;
  create : string → gmap string Json.JsValue → A → Outcome DataRecord.t * A;
  createMany : string → list (gmap string Json.JsValue) → A → Outcome (list DataRecord.t) * A;
  update : string → string → gmap string Json.JsValue → A → Outcome DataRecord.t * A;
  delete : string → string → A → Outcome unit * A;
  deleteMany : string → list QueryFilter.t → A → Outcome Z * A;
  count : string → option (list QueryFilter.t) → A → Outcome Z * A;
  healthCheck : A → Outcome Health * A
}.
End Adapter.

(** ** adapters: SupabaseAdapter.findMany *)

Module SupabaseAdapter.

(** What awaiting the query built by [findMany] yields: the client's
    [{ data, error, count }], with [error] reduced to its message. *)
Record Response : Type := {
  data : option (list DataRecord.t);
  error : option string;
  count : option Z
}.

Definition findMany (options : option QueryOptions.t) (response : Response)
  : Outcome PaginatedResult.t :=
  let limit := default 50 (options ≫= QueryOptions.limit) in
  let offset := default 0 (options ≫= QueryOptions.offset) in
  match error response with
  | Some message => Rejected (PlainError ("Supabase findMany error: " +:+ message))
  | None =>
      let totalCount := default 0 (count response) in
      let rows := default [] (data response) in
      Resolved {|
        PaginatedResult.data := rows;
        PaginatedResult.count := totalCount;
        PaginatedResult.limit := limit;
        PaginatedResult.offset := offset;
        PaginatedResult.hasMore := offset + Z.of_nat (length rows) <? totalCount
      |}
  end.

End SupabaseAdapter.

(** ** adapters: InMemoryAdapter *)

Module InMemoryAdapter.

(** What the adapter takes from its host.  [randomUUID k] is the string the
    [k]-th call of [uuid()] returns and [toISOString k] the text of the
    [k]-th [new Date().toISOString()].  [test f r] is what the [switch] of
    [applyFilters] does on record [r] in the case of filter [f]'s operator:
    it returns a boolean or throws (a TypeError when the value of an [in]
    filter has no [includes]).  [sort keys records] is the array after
    [records.sort] with the comparator built from [keys].  Both depend on
    JavaScript's comparison and conversion of arbitrary values and are left
    open. *)
Class Host : Type := {
  randomUUID : nat → string;
  toISOString : nat → string;
  test : QueryFilter.t → DataRecord.t → Outcome bool;
  sort : list OrderBy.t → list DataRecord.t → list DataRecord.t
}.

(** The operators that have a case in the [switch]. *)
Definition operators : list string :=
  ["eq"; "neq"; "gt"; "gte"; "lt"; "lte"; "like"; "ilike"; "in"; "is"].

(** [tables] is the adapter's only field; the two counters record how many
    identifiers and clock readings the process has handed out. *)
Record t : Type := {
  tables : gmap string (list DataRecord.t);
  uuid_calls : nat;
  clock_reads : nat
}.

Definition empty : t := {| tables := ∅; uuid_calls := 0; clock_reads := 0 |}.

Definition with_tables (tbls : gmap string (list DataRecord.t)) (st : t) : t :=
  {| tables := tbls; uuid_calls := uuid_calls st; clock_reads := clock_reads st |}.

(** [getTable]: a table that is asked for exists from then on. *)
Definition getTable (table : string) (st : t) : list DataRecord.t * t :=
  match tables st !! table with
  | Some records => (records, st)
  | None => ([], with_tables (<[table := []]> (tables st)) st)
  end.

Definition has_id (id : string) (r : DataRecord.t) : bool :=
  String.eqb (DataRecord.id r) id.

Section WithHost.
Context `{Host}.

(** The [switch] with its [default: return true]. *)
Definition switch (f : QueryFilter.t) (r : DataRecord.t) : Outcome bool :=
  if Js.includes operators (QueryFilter.operator f) then test f r else Resolved true.

(** [filters.every(f => ...)]: stops at the first filter that fails or
    throws. *)
Fixpoint every (filters : list QueryFilter.t) (r : DataRecord.t) : Outcome bool :=
  match filters with
  | [] => Resolved true
  | f :: more =>
      match switch f r with
      | Resolved true => every more r
      | Resolved false => Resolved false
      | Rejected err => Rejected err
      end
  end.

(** [records.filter(p)] for a [p] that may throw. *)
Fixpoint filter_throwing (p : DataRecord.t → Outcome bool) (records : list DataRecord.t)
  : Outcome (list DataRecord.t) :=
  match records with
  | [] => Resolved []
  | r :: more =>
      match p r with
      | Rejected err => Rejected err
      | Resolved keep =>
          match filter_throwing p more with
          | Resolved kept => Resolved (if keep then r :: kept else kept)
          | Rejected err => Rejected err
          end
      end
  end.

Definition applyFilters (records : list DataRecord.t)
    (filters : option (list QueryFilter.t)) : Outcome (list DataRecord.t) :=
  match filters with
  | None | Some [] => Resolved records
  | Some fs => filter_throwing (every fs) records
  end.

Definition findMany (table : string) (options : option QueryOptions.t) (st : t)
  : Outcome PaginatedResult.t * t :=
  let '(stored, st) := getTable table st in
  match applyFilters stored (options ≫= QueryOptions.filters) with
  | Rejected err => (Rejected err, st)
  | Resolved records =>
      let records :=
        match options ≫= QueryOptions.orderBy with
        | Some (o :: os) => sort (o :: os) records
        | _ => records
        end in
      let total := Z.of_nat (length records) in
      let offset := default 0 (options ≫= QueryOptions.offset) in
      let limit := default 50 (options ≫= QueryOptions.limit) in
      let data := Js.slice offset (offset + limit) records in
      (Resolved {|
         PaginatedResult.data := data;
         PaginatedResult.count := total;
         PaginatedResult.limit := limit;
         PaginatedResult.offset := offset;
         PaginatedResult.hasMore := offset + limit <? total
       |}, st)
  end.

Definition findOne (table id : string) (st : t) : Outcome (option DataRecord.t) * t :=
  let '(records, st) := getTable table st in
  (Resolved (List.find (has_id id) records), st).

Definition create (table : string) (data : gmap string Json.JsValue) (st : t)
  : Outcome DataRecord.t * t :=
  let now := toISOString (clock_reads st) in
  let record := {|
    DataRecord.id := randomUUID (uuid_calls st);
    DataRecord.created_at := Some (Json.JsString now);
    DataRecord.updated_at := Some now;
    DataRecord.fields := DataRecord.omit_reserved data
  |} in
  let st := {| tables := tables st;
               uuid_calls := S (uuid_calls st);
               clock_reads := S (clock_reads st) |} in
  let '(records, st) := getTable table st in
  (Resolved record, with_tables (<[table := (records ++ [record])%list]> (tables st)) st).

(** [Promise.all] of promises that are settled already: the values in
    order, or the first rejection. *)
Fixpoint Promise_all {T} (settled : list (Outcome T)) : Outcome (list T) :=
  match settled with
  | [] => Resolved []
  | Rejected err :: _ => Rejected err
  | Resolved v :: more =>
      match Promise_all more with
      | Resolved vs => Resolved (v :: vs)
      | Rejected err => Rejected err
      end
  end.

(** [items.map(d => this.create(table, d))]: [create] has no suspension
    point, so each call runs to its end before the next one starts. *)
Fixpoint create_each (table : string) (items : list (gmap string Json.JsValue)) (st : t)
  : list (Outcome DataRecord.t) * t :=
  match items with
  | [] => ([], st)
  | d :: more =>
      let '(settled, st) := create table d st in
      let '(others, st) := create_each table more st in
      (settled :: others, st)
  end.

Definition createMany (table : string) (items : list (gmap string Json.JsValue)) (st : t)
  : Outcome (list DataRecord.t) * t :=
  let '(settled, st) := create_each table items st in
  (Promise_all settled, st).

(** [{ ...existing, ...data, id: existing.id, updated_at: ... }]: the
    keys of [data] override those of [existing], after which [id] and
    [updated_at] are set again.  Nothing sets [created_at] again: when
    [data] has that key, its value replaces the stored one. *)
Definition update (table id : string) (data : gmap string Json.JsValue) (st : t)
  : Outcome DataRecord.t * t :=
  let '(records, st) := getTable table st in
  match Js.findIndex (has_id id) records with
  | None => (Rejected (DataError ("Not found: " +:+ id) NOT_FOUND), st)
  | Some idx =>
      match records !! idx with
      | None => (Rejected (DataError ("Not found: " +:+ id) NOT_FOUND), st)
      | Some existing =>
          let updated := {|
            DataRecord.id := DataRecord.id existing;
            DataRecord.created_at :=
              match data !! "created_at" with
              | Some v => Some v
              | None => DataRecord.created_at existing
              end;
            DataRecord.updated_at := Some (toISOString (clock_reads st));
            DataRecord.fields := DataRecord.omit_reserved data ∪ DataRecord.fields existing
          |} in
          (Resolved updated,
           {| tables := <[table := <[idx := updated]> records]> (tables st);
              uuid_calls := uuid_calls st;
              clock_reads := S (clock_reads st) |})
      end
  end.

Definition delete (table id : string) (st : t) : Outcome unit * t :=
  let '(records, st) := getTable table st in
  match Js.findIndex (has_id id) records with
  | None => (Rejected (DataError ("Not found: " +:+ id) NOT_FOUND), st)
  | Some idx =>
      (Resolved tt, with_tables (<[table := Js.splice1 idx records]> (tables st)) st)
  end.

Definition deleteMany (table : string) (filters : list QueryFilter.t) (st : t)
  : Outcome Z * t :=
  let '(records, st) := getTable table st in
  match applyFilters records (Some filters) with
  | Rejected err => (Rejected err, st)
  | Resolved toDelete =>
      let ids := List.map DataRecord.id toDelete in
      let before := Z.of_nat (length records) in
      let kept := List.filter (fun r => negb (Js.includes ids (DataRecord.id r))) records in
      (Resolved (before - Z.of_nat (length kept)),
       with_tables (<[table := kept]> (tables st)) st)
  end.

Definition count (table : string) (filters : option (list QueryFilter.t)) (st : t)
  : Outcome Z * t :=
  let '(records, st) := getTable table st in
  match applyFilters records filters with
  | Rejected err => (Rejected err, st)
  | Resolved matching => (Resolved (Z.of_nat (length matching)), st)
  end.

Definition healthCheck (st : t) : Outcome Health * t :=
  (Resolved {| ok := true; latencyMs := 0 |}, st).

#[export] Instance adapter : Adapter.DataAdapter t := {|
  Adapter.findMany := findMany;
  Adapter.findOne := findOne;
  Adapter.create := create;
  Adapter.createMany := createMany;
  Adapter.update := update;
  Adapter.delete := delete;
  Adapter.deleteMany := deleteMany;
  Adapter.count := count;
  Adapter.healthCheck := healthCheck
|}.

End WithHost.

End InMemoryAdapter.

(** ** services/data.ts *)

Module DataService.

Record CacheEntry : Type := { data : DataRecord.t; expiresAt : Z }.

Record DataServiceConfig : Type := {
  config_cacheTtlMs : option Z;
  config_allowedTables : option (list string)
}.

(** /^[a-zA-Z_][a-zA-Z0-9_]{0,62}$/ *)
Definition TABLE_NAME_RE : Regex.regex :=
  Regex.Seq
    (Regex.Class (fun c => Regex.lower c || Regex.upper c || Regex.underscore c))
    (Regex.Rep
       (Regex.Class (fun c =>
          Regex.lower c || Regex.upper c || Regex.digit c || Regex.underscore c))
       0 62).

(** /^[a-zA-Z0-9_-]{1,255}$/ *)
Definition ID_RE : Regex.regex :=
  Regex.Rep
    (Regex.Class (fun c =>
       Regex.lower c || Regex.upper c || Regex.digit c || Regex.underscore c
       || Regex.hyphen c))
    1 255.

(** The fields of the class, over an adapter with state [A]. *)
Record t (A : Type) : Type := {
  adapter : A;
  cache : gmap string CacheEntry;
  cacheTtlMs : Z;
  allowedTables : option (list string)
}.
Arguments adapter {A} _.
Arguments cache {A} _.
Arguments cacheTtlMs {A} _.
Arguments allowedTables {A} _.

Definition constructor {A} (adapter : A) (config : option DataServiceConfig) : t A := {|
  adapter := adapter;
  cache := ∅;
  cacheTtlMs := default 0 (config ≫= config_cacheTtlMs);
  allowedTables := config ≫= config_allowedTables
|}.

(** A method body: from the fields before the call to how the call ends
    and the fields after it. *)
Definition M (A T : Type) : Type := t A → Outcome T * t A.

Definition ret {A T} (v : T) : M A T := fun svc => (Resolved v, svc).

Definition throw {A T} (err : Thrown) : M A T := fun svc => (Rejected err, svc).

Definition bind {A T U} (m : M A T) (k : T → M A U) : M A U :=
  fun svc =>
    match m svc with
    | (Resolved v, svc') => k v svc'
    | (Rejected err, svc') => (Rejected err, svc')
    end.

(** [try { body } catch (err) { handler }] *)
Definition try_catch {A T} (body : M A T) (handler : Thrown → M A T) : M A T :=
  fun svc =>
    match body svc with
    | (Resolved v, svc') => (Resolved v, svc')
    | (Rejected err, svc') => handler err svc'
    end.

Notation "'let*' x ':=' m 'in' k" := (bind m (fun x => k))
  (at level 10, x pattern, m at level 100, k at level 200).

(** [await this.adapter.method(...)] *)
Definition await_adapter {A T} (call : A → Outcome T * A) : M A T :=
  fun svc =>
    let '(settled, a) := call (adapter svc) in
    (settled, {| adapter := a; cache := cache svc;
                 cacheTtlMs := cacheTtlMs svc; allowedTables := allowedTables svc |}).

Definition with_cache {A} (f : gmap string CacheEntry → gmap string CacheEntry) : M A unit :=
  fun svc =>
    (Resolved tt, {| adapter := adapter svc; cache := f (cache svc);
                     cacheTtlMs := cacheTtlMs svc; allowedTables := allowedTables svc |}).

Definition error (message : string) (code : ErrorCode) : Thrown := DataError message code.

Definition validateTable {A} (table : string) : M A unit :=
  fun svc =>
    if negb (Regex.test TABLE_NAME_RE table) then
      throw (error ("Invalid table name: " +:+ table) VALIDATION) svc
    else
      match allowedTables svc with
      | Some allowed =>
          if negb (Js.includes allowed table) then
            throw (error ("Table not allowed: " +:+ table) VALIDATION) svc
          else ret tt svc
      | None => ret tt svc
      end.

Definition validateId {A} (id : string) : M A unit :=
  if negb (Regex.test ID_RE id) then throw (error ("Invalid id: " +:+ id) VALIDATION)
  else ret tt.

(** [id ? `${table}:${id}` : table]: the empty string is falsy. *)
Definition cacheKey (table : string) (id : option string) : string :=
  match id with
  | None | Some EmptyString => table
  | Some id => table +:+ ":" +:+ id
  end.

(** [getCached], given the reading [now] of [Date.now()]. *)
Definition getCached (now : Z) (key : string) (cache : gmap string CacheEntry)
  : option DataRecord.t * gmap string CacheEntry :=
  match cache !! key with
  | None => (None, cache)
  | Some entry =>
      if now >? expiresAt entry then (None, delete key cache)
      else (Some (data entry), cache)
  end.

(** [setCache], given the reading [now] of [Date.now()]. *)
Definition setCache (ttl now : Z) (key : string) (data : DataRecord.t)
    (cache : gmap string CacheEntry) : gmap string CacheEntry :=
  if ttl >? 0 then <[key := {| data := data; expiresAt := now + ttl |}]> cache
  else cache.

(** [invalidateTable]: the loop visits the keys the cache holds when it
    starts and deletes as it goes. *)
Definition invalidateTable (table : string) (cache : gmap string CacheEntry)
  : gmap string CacheEntry :=
  fold_left
    (fun c key => if Js.startsWith (table +:+ ":") key then delete key c else c)
    (List.map fst (map_to_list cache)) cache.

Definition adapter_failure {A T} (fallback : string) (err : Thrown) : M A T :=
  throw (error (message_or fallback err) ADAPTER).

Section Operations.
Context {A : Type} `{Adapter.DataAdapter A}.

Definition findMany (table : string) (options : option QueryOptions.t)
  : M A PaginatedResult.t :=
  let* _ := validateTable table in
  try_catch (await_adapter (Adapter.findMany table options))
            (adapter_failure "findMany failed").

(** [now_lookup] and [now_store] are the readings of [Date.now()] in
    [getCached] and, after the adapter has answered, in [setCache]. *)
Definition findOne (now_lookup now_store : Z) (table id : string)
  : M A (option DataRecord.t) :=
  let* _ := validateTable table in
  let* _ := validateId id in
  let key := cacheKey table (Some id) in
  fun svc =>
    let '(cached, c) := getCached now_lookup key (cache svc) in
    let svc := {| adapter := adapter svc; cache := c;
                  cacheTtlMs := cacheTtlMs svc; allowedTables := allowedTables svc |} in
    match cached with
    | Some record => ret (Some record) svc
    | None =>
        try_catch
          (let* result := await_adapter (Adapter.findOne table id) in
           let* _ :=
             match result with
             | Some record =>
                 fun svc' => with_cache (setCache (cacheTtlMs svc') now_store key record) svc'
             | None => ret tt
             end in
           ret result)
          (adapter_failure "findOne failed") svc
    end.

Definition create (table : string) (data : gmap string Json.JsValue)
  : M A DataRecord.t :=
  let* _ := validateTable table in
  try_catch
    (let* result := await_adapter (Adapter.create table data) in
     let* _ := with_cache (invalidateTable table) in
     ret result)
    (adapter_failure "create failed").

Definition createMany (table : string) (data : list (gmap string Json.JsValue))
  : M A (list DataRecord.t) :=
  let* _ := validateTable table in
  try_catch
    (let* result := await_adapter (Adapter.createMany table data) in
     let* _ := with_cache (invalidateTable table) in
     ret result)
    (adapter_failure "createMany failed").

Definition update (table id : string) (data : gmap string Json.JsValue)
  : M A DataRecord.t :=
  let* _ := validateTable table in
  let* _ := validateId id in
  try_catch
    (let* result := await_adapter (Adapter.update table id data) in
     let* _ := with_cache (base.delete (cacheKey table (Some id))) in
     ret result)
    (adapter_failure "update failed").

Definition delete (table id : string) : M A unit :=
  let* _ := validateTable table in
  let* _ := validateId id in
  try_catch
    (let* _ := await_adapter (Adapter.delete table id) in
     with_cache (base.delete (cacheKey table (Some id))))
    (adapter_failure "delete failed").

Definition deleteMany (table : string) (filters : list QueryFilter.t) : M A Z :=
  let* _ := validateTable table in
  try_catch
    (let* count := await_adapter (Adapter.deleteMany table filters) in
     let* _ := with_cache (invalidateTable table) in
     ret count)
    (adapter_failure "deleteMany failed").

Definition count (table : string) (filters : option (list QueryFilter.t)) : M A Z :=
  let* _ := validateTable table in
  try_catch (await_adapter (Adapter.count table filters))
            (adapter_failure "count failed").

Definition healthCheck : M A Health :=
  try_catch (await_adapter Adapter.healthCheck)
            (fun _ => ret {| ok := false; latencyMs := -1 |}).

End Operations.

End DataService.

(** ** The query-string parsers of the REST routes *)

Module Api.

(** [string | string[] | undefined] *)
Inductive Raw : Type :=
| undefined
| one (s : string)
| many (items : list string).

(** [items.map(f)] for an [f] that may throw: the first throw ends it. *)
Fixpoint map_throwing {X Y} (f : X → Outcome Y) (items : list X) : Outcome (list Y) :=
  match items with
  | [] => Resolved []
  | x :: more =>
      match f x with
      | Rejected err => Rejected err
      | Resolved y =>
          match map_throwing f more with
          | Resolved ys => Resolved (y :: ys)
          | Rejected err => Rejected err
          end
      end
  end.

(** The arrow function that [parseFilters] maps over its items. *)
Definition parseFilter (s : string) : Outcome QueryFilter.t :=
  match Js.split Js.colon s with
  | field :: operator :: ((_ :: _) as rest) =>
      let value := Js.join ":" rest in
      match Json.parse value with
      | Some parsed =>
          Resolved {| QueryFilter.field := field; QueryFilter.operator := operator;
                      QueryFilter.value := parsed |}
      | None =>
          Resolved {| QueryFilter.field := field; QueryFilter.operator := operator;
                      QueryFilter.value := Json.JsString value |}
      end
  | _ =>
      Rejected (PlainError ("Invalid filter format: " +:+ s +:+ " (expected field:op:value)"))
  end.

(** [if (!raw) return []]: [undefined] and the empty string are falsy, an
    array never is. *)
Definition parseFilters (raw : Raw) : Outcome (list QueryFilter.t) :=
  match raw with
  | undefined | one EmptyString => Resolved []
  | one s => map_throwing parseFilter [s]
  | many items => map_throwing parseFilter items
  end.

(** [const [field, dir] = s.split(':')] and the direction test. *)
Definition parseOrder (s : string) : OrderBy.t :=
  match Js.split Js.colon s with
  | field :: rest =>
      {| OrderBy.field := field;
         OrderBy.direction :=
           match rest with
           | dir :: _ => if String.eqb dir "desc" then OrderBy.desc else OrderBy.asc
           | [] => OrderBy.asc
           end |}
  | [] => {| OrderBy.field := EmptyString; OrderBy.direction := OrderBy.asc |}
  end.

Definition parseOrderBy (raw : Raw) : option (list OrderBy.t) :=
  match raw with
  | undefined | one EmptyString => None
  | one s => Some (List.map parseOrder [s])
  | many items => Some (List.map parseOrder items)
  end.

End Api.

(** ** The vocabulary of the specification *)

Module Spec.

(** A segment is a string without a colon. *)
Fixpoint segment (s : string) : bool :=
  match s with
  | EmptyString => true
  | String c rest => negb (Ascii.eqb c Js.colon) && segment rest
  end.

(** The number of colon-separated segments of a raw string. *)
Definition segments (s : string) : nat := length (Js.split Js.colon s).

(** An order directive, [field] or [field:direction]. *)
Definition directive (field : string) (dir : option string) : string :=
  match dir with
  | None => field
  | Some d => field +:+ ":" +:+ d
  end.

(** A directive whose field and direction are segments. *)
Definition well_formed_directive (d : string * option string) : bool :=
  segment (fst d) && match snd d with Some dir => segment dir | None => true end.

(** "default to ascending when direction is not exactly desc" *)
Definition direction_of (dir : option string) : OrderBy.Direction :=
  if decide (dir = Some "desc") then OrderBy.desc else OrderBy.asc.

(** "interpreted as JSON when it parses as valid JSON, else treated as a
    literal string" *)
Definition interpret (value : string) : Json.JsValue :=
  match Json.parse value with
  | Some parsed => parsed
  | None => Json.JsString value
  end.

Definition letters : string := "abcdefghijklmnopqrstuvwxyzABCDEFGHIJKLMNOPQRSTUVWXYZ".
Definition digits : string := "0123456789".

Fixpoint occurs (c : ascii) (s : string) : bool :=
  match s with
  | EmptyString => false
  | String c' rest => Ascii.eqb c c' || occurs c rest
  end.

Fixpoint all_chars (p : ascii → bool) (s : string) : bool :=
  match s with
  | EmptyString => true
  | String c rest => p c && all_chars p rest
  end.

Definition letter_or_underscore (c : ascii) : bool :=
  occurs c letters || Ascii.eqb c "_".

Definition letter_digit_or_underscore (c : ascii) : bool :=
  occurs c letters || occurs c digits || Ascii.eqb c "_".

(** "starts with a letter or underscore, followed by up to 62
    letters/digits/underscores" *)
Definition table_name (s : string) : bool :=
  match s with
  | EmptyString => false
  | String c rest =>
      letter_or_underscore c
      && (String.length rest <=? 62)%nat
      && all_chars letter_digit_or_underscore rest
  end.

(** "1-255 characters drawn from letters, digits, underscore, hyphen" *)
Definition record_id (s : string) : bool :=
  (1 <=? String.length s)%nat && (String.length s <=? 255)%nat
  && all_chars (fun c => letter_digit_or_underscore c || Ascii.eqb c "-") s.

(** How a call ended, as the [catch] of its caller sees it. *)
Definition rejection {T} (settled : Outcome T) : option Thrown :=
  match settled with
  | Rejected err => Some err
  | Resolved _ => None
  end.

(** The message of a thrown value that is an [Error]. *)
Definition message_of (err : Thrown) : option string :=
  match err with
  | PlainError m => Some m
  | DataError m _ => Some m
  | NotAnError => None
  end.

(** The operations of the service that take a table, with their
    arguments. *)
Inductive Operation : Type :=
| FindMany (table : string) (options : option QueryOptions.t)
| FindOne (now_lookup now_store : Z) (table id : string)
| Create (table : string) (data : gmap string Json.JsValue)
| CreateMany (table : string) (data : list (gmap string Json.JsValue))
| Update (table id : string) (data : gmap string Json.JsValue)
| Delete (table id : string)
| DeleteMany (table : string) (filters : list QueryFilter.t)
| Count (table : string) (filters : option (list QueryFilter.t)).

Definition table_of (op : Operation) : string :=
  match op with
  | FindMany t _ | FindOne _ _ t _ | Create t _ | CreateMany t _
  | Update t _ _ | Delete t _ | DeleteMany t _ | Count t _ => t
  end.

Definition id_of (op : Operation) : option string :=
  match op with
  | FindOne _ _ _ id | Update _ id _ | Delete _ id => Some id
  | _ => None
  end.

(** The table name, and the id where there is one, pass validation. *)
Definition valid (allowed : option (list string)) (op : Operation) : bool :=
  table_name (table_of op)
  && match allowed with
     | Some tables => bool_decide (table_of op ∈ tables)
     | None => true
     end
  && match id_of op with
     | Some id => record_id id
     | None => true
     end.

Section Perform.
Context {A : Type} `{Adapter.DataAdapter A}.

(** The operation on the service: the rejection, if it ends in one, and
    the service after it. *)
Definition perform (op : Operation) (svc : DataService.t A)
  : option Thrown * DataService.t A :=
  match op with
  | FindMany t o => let '(r, s) := DataService.findMany t o svc in (rejection r, s)
  | FindOne n1 n2 t id => let '(r, s) := DataService.findOne n1 n2 t id svc in (rejection r, s)
  | Create t d => let '(r, s) := DataService.create t d svc in (rejection r, s)
  | CreateMany t d => let '(r, s) := DataService.createMany t d svc in (rejection r, s)
  | Update t id d => let '(r, s) := DataService.update t id d svc in (rejection r, s)
  | Delete t id => let '(r, s) := DataService.delete t id svc in (rejection r, s)
  | DeleteMany t f => let '(r, s) := DataService.deleteMany t f svc in (rejection r, s)
  | Count t f => let '(r, s) := DataService.count t f svc in (rejection r, s)
  end.

(** The call that the operation makes on the adapter. *)
Definition adapter_call (op : Operation) (a : A) : option Thrown * A :=
  match op with
  | FindMany t o => let '(r, a) := Adapter.findMany t o a in (rejection r, a)
  | FindOne _ _ t id => let '(r, a) := Adapter.findOne t id a in (rejection r, a)
  | Create t d => let '(r, a) := Adapter.create t d a in (rejection r, a)
  | CreateMany t d => let '(r, a) := Adapter.createMany t d a in (rejection r, a)
  | Update t id d => let '(r, a) := Adapter.update t id d a in (rejection r, a)
  | Delete t id => let '(r, a) := Adapter.delete t id a in (rejection r, a)
  | DeleteMany t f => let '(r, a) := Adapter.deleteMany t f a in (rejection r, a)
  | Count t f => let '(r, a) := Adapter.count t f a in (rejection r, a)
  end.

(** The operation gets as far as the adapter: always, except for a
    [findOne] that the cache answers. *)
Definition reaches_adapter (op : Operation) (svc : DataService.t A) : bool :=
  match op with
  | FindOne now _ t id =>
      match DataService.getCached now (DataService.cacheKey t (Some id))
              (DataService.cache svc) with
      | (Some _, _) => false
      | (None, _) => true
      end
  | _ => true
  end.

End Perform.

(** The records of a table, none for a table that was never asked for. *)
Definition rows (st : InMemoryAdapter.t) (table : string) : list DataRecord.t :=
  default [] (InMemoryAdapter.tables st !! table).

(** Every identifier stored in the adapter came from one of the calls of
    [uuid()] made so far. *)
Definition ids_drawn `{InMemoryAdapter.Host} (st : InMemoryAdapter.t) : Prop :=
  ∀ table r, r ∈ rows st table →
    ∃ k, (k < InMemoryAdapter.uuid_calls st)%nat
         ∧ DataRecord.id r = InMemoryAdapter.randomUUID k.

(** A record as [create] builds it: the identifier, the one clock reading
    as both timestamps, and the input fields. *)
Definition new_record (id now : string) (data : gmap string Json.JsValue) : DataRecord.t := {|
  DataRecord.id := id;
  DataRecord.created_at := Some (Json.JsString now);
  DataRecord.updated_at := Some now;
  DataRecord.fields := DataRecord.omit_reserved data
|}.

(** One new record per item, in the order of the items, for a host that
    has handed out [u] identifiers and [c] clock readings so far. *)
Fixpoint created_from `{InMemoryAdapter.Host} (u c : nat)
    (items : list (gmap string Json.JsValue)) : list DataRecord.t :=
  match items with
  | [] => []
  | d :: more =>
      new_record (InMemoryAdapter.randomUUID u) (InMemoryAdapter.toISOString c) d
      :: created_from (S u) (S c) more
  end.

End Spec.

(** ** Adapters and hosts to run the definitions on *)

Module Fixtures.

(** An adapter whose backend cannot be reached: every call is rejected.
    Its state counts the calls made on it. *)
Definition refused {T} (calls : nat) : Outcome T * nat :=
  (Rejected (PlainError "connection refused"), S calls).

Definition unreachable : Adapter.DataAdapter nat := {|
  Adapter.findMany _ _ := refused;
  Adapter.findOne _ _ := refused;
  Adapter.create _ _ := refused;
  Adapter.createMany _ _ := refused;
  Adapter.update _ _ _ := refused;
  Adapter.delete _ _ := refused;
  Adapter.deleteMany _ _ := refused;
  Adapter.count _ _ := refused;
  Adapter.healthCheck := refused
|}.

(** A host that numbers its identifiers and its clock readings, accepts
    every record in a filter and leaves arrays in the order they have. *)
Definition numbering : InMemoryAdapter.Host := {|
  InMemoryAdapter.randomUUID k := "mem-" +:+ NilEmpty.string_of_uint (Nat.to_uint k);
  InMemoryAdapter.toISOString k := "t" +:+ NilEmpty.string_of_uint (Nat.to_uint k);
  InMemoryAdapter.test _ _ := Resolved true;
  InMemoryAdapter.sort _ records := records
|}.

End Fixtures.

(** ** adapters: the filters of the SupabaseAdapter *)

Module SupabaseFilters.

(** The methods of the client's query builder that [applyFilter] calls;
    each returns the builder to go on with.  What they do to the request
    is the client library's business. *)
Class QueryBuilder (Q : Type) : Type := {
  eq : string → Json.JsValue → Q → Q;
  neq : string → Json.JsValue → Q → Q;
  gt : string → Json.JsValue → Q → Q;
  gte : string → Json.JsValue → Q → Q;
  lt : string → Json.JsValue → Q → Q;
  lte : string → Json.JsValue → Q → Q;
  like : string → Json.JsValue → Q → Q;
  ilike : string → Json.JsValue → Q → Q;
  in_ : string → Json.JsValue → Q → Q;
  is_ : string → Json.JsValue → Q → Q
}.

Section WithBuilder.
Context {Q : Type} `{QueryBuilder Q}.

Definition applyFilter (query : Q) (f : QueryFilter.t) : Q :=
  let op := QueryFilter.operator f in
  let field := QueryFilter.field f in
  let value := QueryFilter.value f in
  if String.eqb op "eq" then eq field value query
  else if String.eqb op "neq" then neq field value query
  else if String.eqb op "gt" then gt field value query
  else if String.eqb op "gte" then gte field value query
  else if String.eqb op "lt" then lt field value query
  else if String.eqb op "lte" then lte field value query
  else if String.eqb op "like" then like field value query
  else if String.eqb op "ilike" then ilike field value query
  else if String.eqb op "in" then in_ field value query
  else if String.eqb op "is" then is_ field value query
  else query.

Definition applyFilters (query : Q) (filters : list QueryFilter.t) : Q :=
  fold_left applyFilter filters query.

End WithBuilder.

End SupabaseFilters.

(** ** middleware/ratelimit.ts *)

Module RateLimit.

Record RateLimitEntry : Type := { count : Z; resetAt : Z }.

(** The callback of the interval timer, run at time [now] on the store. *)
Definition cleanup (now : Z) (store : gmap string RateLimitEntry)
  : gmap string RateLimitEntry :=
  fold_left
    (fun s item => if resetAt (snd item) <? now then delete (fst item) s else s)
    (map_to_list store) store.

(** What the middleware does with the request: hand it on, or answer 429
    with the body [{ error: 'Too many requests' }]. *)
Inductive Decision : Type := next | too_many_requests.

(** [header('x-forwarded-for') ?? header('x-real-ip') ?? 'unknown'] *)
Definition client (forwarded_for real_ip : option string) : string :=
  match forwarded_for with
  | Some ip => ip
  | None => default "unknown" real_ip
  end.

(** The handler that [rateLimiter(maxRequests, windowMs)] returns, on a
    request of client [ip] at time [now].  An omitted argument is 60,
    respectively 60000. *)
Definition rateLimiter (maxRequests windowMs : option Z) (ip : string) (now : Z)
    (store : gmap string RateLimitEntry) : Decision * gmap string RateLimitEntry :=
  let maxRequests := default 60 maxRequests in
  let windowMs := default 60000 windowMs in
  let fresh := <[ip := {| count := 1; resetAt := now + windowMs |}]> store in
  match store !! ip with
  | None => (next, fresh)
  | Some entry =>
      if resetAt entry <? now then (next, fresh)
      else
        let counted := <[ip := {| count := count entry + 1; resetAt := resetAt entry |}]> store in
        if count entry + 1 >? maxRequests then (too_many_requests, counted)
        else (next, counted)
  end.

(** The requests of one client one after the other, at the given times. *)
Fixpoint serve (maxRequests windowMs : option Z) (ip : string) (times : list Z)
    (store : gmap string RateLimitEntry)
  : list Decision * gmap string RateLimitEntry :=
  match times with
  | [] => ([], store)
  | now :: later =>
      let '(d, store) := rateLimiter maxRequests windowMs ip now store in
      let '(ds, store) := serve maxRequests windowMs ip later store in
      (d :: ds, store)
  end.

End RateLimit.

(** ** The routes that take no request body *)

Module Routes.

(** The JSON bodies these routes answer with. *)
Inductive Body : Type :=
| error_body (error : string)
| health_body (health : Health)
| count_body (count : Z)
| record_body (record : DataRecord.t)
| ok_body.

Record Response : Type := { status : Z; body : Body }.

(** [c.req.queries(name) ?? c.req.query(name)] *)
Definition raw_param (queries : option (list string)) (query : option string) : Api.Raw :=
  match queries with
  | Some values => Api.many values
  | None =>
      match query with
      | Some value => Api.one value
      | None => Api.undefined
      end
  end.

(** The [catch] of every route. *)
Definition bad_request (err : Thrown) : Response :=
  {| status := 400; body := error_body (message_or "Unknown error" err) |}.

Section WithAdapter.
Context {A : Type} `{Adapter.DataAdapter A}.

(** GET /health.  This handler has no [try]: a rejection of the service
    would leave it as it came. *)
Definition health (svc : DataService.t A) : Outcome Response * DataService.t A :=
  match DataService.healthCheck svc with
  | (Resolved result, svc) =>
      (Resolved {| status := if ok result then 200 else 503;
                   body := health_body result |}, svc)
  | (Rejected err, svc) => (Rejected err, svc)
  end.

(** GET /:table/count *)
Definition count (table : string) (queries : option (list string))
    (query : option string) (svc : DataService.t A) : Response * DataService.t A :=
  match Api.parseFilters (raw_param queries query) with
  | Rejected err => (bad_request err, svc)
  | Resolved filters =>
      let filters := match filters with [] => None | _ :: _ => Some filters end in
      match DataService.count table filters svc with
      | (Resolved n, svc) => ({| status := 200; body := count_body n |}, svc)
      | (Rejected err, svc) => (bad_request err, svc)
      end
  end.

(** GET /:table/:id, with the two readings of the clock that
    [DataService.findOne] takes. *)
Definition findOne (now_lookup now_store : Z) (table id : string)
    (svc : DataService.t A) : Response * DataService.t A :=
  match DataService.findOne now_lookup now_store table id svc with
  | (Resolved None, svc) => ({| status := 404; body := error_body "Not found" |}, svc)
  | (Resolved (Some record), svc) => ({| status := 200; body := record_body record |}, svc)
  | (Rejected err, svc) => (bad_request err, svc)
  end.

(** DELETE /:table/:id *)
Definition delete (table id : string) (svc : DataService.t A)
  : Response * DataService.t A :=
  match DataService.delete table id svc with
  | (Resolved _, svc) => ({| status := 200; body := ok_body |}, svc)
  | (Rejected err, svc) => (bad_request err, svc)
  end.

End WithAdapter.

End Routes.

(** * Properties *)

(** ** JSON texts: the fuel of the parser is enough *)

Lemma skip_ws_length s : (String.length (Json.skip_ws s) ≤ String.length s)%nat.
Proof.
  induction s as [|c s IH]; simpl; [lia|].
  destruct (Json.is_ws c); simpl; lia.
Qed.

Lemma head_is_length c s r :
  Json.head_is c s = Some r → String.length s = S (String.length r).
Proof.
  destruct s as [|c' s]; simpl; [discriminate|].
  destruct (Ascii.eqb c c'); [|discriminate]. now intros [= ->].
Qed.

Lemma literal_length p : ∀ s r,
  Json.literal p s = Some r →
  (String.length r + String.length p = String.length s)%nat.
Proof.
  induction p as [|a p IH]; intros s r; simpl.
  - intros [= ->]. lia.
  - destruct s as [|b s]; [discriminate|].
    destruct (Ascii.eqb a b); [|discriminate].
    intros E. apply IH in E. simpl. lia.
Qed.

Lemma take_digits_length : ∀ s ds r,
  Json.take_digits s = (ds, r) →
  (String.length s = length ds + String.length r)%nat.
Proof.
  induction s as [|c s IH]; intros ds r; simpl.
  - intros [= <- <-]. reflexivity.
  - destruct (Json.digit_of c).
    + destruct (Json.take_digits s) as [ds' r'] eqn:E. intros [= <- <-].
      simpl. now rewrite (IH ds' r' eq_refl).
    + intros [= <- <-]. reflexivity.
Qed.

Lemma parse_chars_length n : ∀ s str r,
  (String.length s ≤ n)%nat →
  Json.parse_chars s = Some (str, r) →
  (String.length r < String.length s)%nat.
Proof.
  induction n as [|n IH]; intros s str r Hn E; destruct s as [|c s];
    try discriminate; simpl in Hn; [lia|].
  cbn [Json.parse_chars] in E.
  repeat (case_match; simplify_eq); cbn [String.length] in *; try lia;
    match goal with
    | H : Json.parse_chars ?x = Some (_, ?y) |- _ =>
        apply IH in H; cbn [String.length] in *; lia
    end.
Qed.

Lemma parse_number_length s v r :
  Json.parse_number s = Some (v, r) → (String.length r < String.length s)%nat.
Proof.
  unfold Json.parse_number. intros E.
  repeat (case_match; simplify_eq);
    repeat match goal with
           | H : Json.take_digits _ = _ |- _ => apply take_digits_length in H
           end;
    cbn [String.length length] in *; lia.
Qed.

Section JsonSteps.
Variable value : string → option (Json.JsValue * string).
Variable elements : string → option (list Json.JsValue * string).
Variable members : string → option (list (string * Json.JsValue) * string).

Hypothesis value_consumes : ∀ s v r,
  value s = Some (v, r) → (String.length r < String.length s)%nat.
Hypothesis elements_consume : ∀ s vs r,
  elements s = Some (vs, r) → (String.length r < String.length s)%nat.
Hypothesis members_consume : ∀ s ms r,
  members s = Some (ms, r) → (String.length r < String.length s)%nat.

Lemma value_step_length s v r :
  Json.value_step elements members s = Some (v, r) →
  (String.length r < String.length s)%nat.
Proof using elements_consume members_consume.
  unfold Json.value_step. pose proof (skip_ws_length s) as Hws. intros E.
  destruct (Json.skip_ws s) as [|c rest] eqn:Es; [discriminate|].
  cbn [String.length] in Hws.
  repeat (case_match; simplify_eq);
    repeat match goal with
           | H : _ <$> _ = Some _ |- _ => apply fmap_Some in H as (? & H & ?); simplify_eq
           | H : Json.literal _ _ = Some _ |- _ => apply literal_length in H
           | H : Json.parse_chars _ = Some _ |- _ => apply (parse_chars_length _ _ _ _ (le_n _)) in H
           | H : Json.head_is _ (Json.skip_ws ?x) = Some _ |- _ =>
               apply head_is_length in H; pose proof (skip_ws_length x)
           | H : elements _ = Some _ |- _ => apply elements_consume in H
           | H : members _ = Some _ |- _ => apply members_consume in H
           | H : Json.parse_number _ = Some _ |- _ => apply parse_number_length in H
           end;
    cbn [String.length] in *; lia.
Qed.

Lemma elements_step_length s vs r :
  Json.elements_step value elements s = Some (vs, r) →
  (String.length r < String.length s)%nat.
Proof using value_consumes elements_consume.
  unfold Json.elements_step. intros E.
  destruct (value s) as [[v rest]|] eqn:Ev; [|discriminate].
  apply value_consumes in Ev. pose proof (skip_ws_length rest) as Hws.
  destruct (Json.skip_ws rest) as [|c rest'] eqn:Es; [discriminate|].
  cbn [String.length] in Hws.
  repeat (case_match; simplify_eq);
    repeat match goal with
           | H : elements _ = Some _ |- _ => apply elements_consume in H
           end; lia.
Qed.

Lemma members_step_length s ms r :
  Json.members_step value members s = Some (ms, r) →
  (String.length r < String.length s)%nat.
Proof using value_consumes members_consume.
  unfold Json.members_step. intros E. pose proof (skip_ws_length s) as Hws.
  destruct (Json.head_is Json.dquote (Json.skip_ws s)) as [s1|] eqn:E1; [|discriminate].
  apply head_is_length in E1.
  destruct (Json.parse_chars s1) as [[key s2]|] eqn:E2; [|discriminate].
  apply (parse_chars_length _ _ _ _ (le_n _)) in E2. pose proof (skip_ws_length s2) as Hws2.
  destruct (Json.head_is ":" (Json.skip_ws s2)) as [s3|] eqn:E3; [|discriminate].
  apply head_is_length in E3.
  destruct (value s3) as [[v rest]|] eqn:Ev; [|discriminate].
  apply value_consumes in Ev. pose proof (skip_ws_length rest) as Hws3.
  destruct (Json.skip_ws rest) as [|c rest'] eqn:Es; [discriminate|].
  cbn [String.length] in Hws3.
  repeat (case_match; simplify_eq);
    repeat match goal with
           | H : members _ = Some _ |- _ => apply members_consume in H
           end; lia.
Qed.

End JsonSteps.

(** A successful parse consumes at least one character. *)
Lemma parse_lengths fuel :
  (∀ s v r, Json.parse_value fuel s = Some (v, r) →
            (String.length r < String.length s)%nat)
  ∧ (∀ s vs r, Json.parse_elements fuel s = Some (vs, r) →
               (String.length r < String.length s)%nat)
  ∧ (∀ s ms r, Json.parse_members fuel s = Some (ms, r) →
               (String.length r < String.length s)%nat).
Proof.
  induction fuel as [|fuel (IHv & IHe & IHm)]; [repeat split; discriminate|].
  split; [|split]; intros s x r E; cbn [Json.parse_value Json.parse_elements Json.parse_members] in E.
  - eapply value_step_length; [exact IHe | exact IHm | exact E].
  - eapply elements_step_length; [exact IHv | exact IHe | exact E].
  - eapply members_step_length; [exact IHv | exact IHm | exact E].
Qed.

(** Each step looks at its parsers only on shorter strings. *)
Lemma value_step_ext e1 e2 m1 m2 s :
  (∀ r, (String.length r < String.length s)%nat → e1 r = e2 r) →
  (∀ r, (String.length r < String.length s)%nat → m1 r = m2 r) →
  Json.value_step e1 m1 s = Json.value_step e2 m2 s.
Proof.
  intros He Hm. unfold Json.value_step. pose proof (skip_ws_length s) as Hws.
  destruct (Json.skip_ws s) as [|c rest]; [reflexivity|]. cbn [String.length] in Hws.
  rewrite (He rest), (Hm rest) by lia. reflexivity.
Qed.

Lemma elements_step_ext v1 v2 e1 e2 s :
  v1 s = v2 s →
  (∀ v r, v2 s = Some (v, r) → (String.length r < String.length s)%nat) →
  (∀ r, (String.length r + 2 ≤ String.length s)%nat → e1 r = e2 r) →
  Json.elements_step v1 e1 s = Json.elements_step v2 e2 s.
Proof.
  intros Hv Hlen He. unfold Json.elements_step. rewrite Hv.
  destruct (v2 s) as [[v rest]|]; [|reflexivity].
  specialize (Hlen v rest eq_refl). pose proof (skip_ws_length rest) as Hws.
  destruct (Json.skip_ws rest) as [|c rest']; [reflexivity|]. cbn [String.length] in Hws.
  rewrite (He rest') by lia. reflexivity.
Qed.

Lemma members_step_ext v1 v2 m1 m2 s :
  (∀ r, (String.length r + 3 ≤ String.length s)%nat → v1 r = v2 r) →
  (∀ r v r', v2 r = Some (v, r') → (String.length r' < String.length r)%nat) →
  (∀ r, (String.length r + 5 ≤ String.length s)%nat → m1 r = m2 r) →
  Json.members_step v1 m1 s = Json.members_step v2 m2 s.
Proof.
  intros Hv Hlen Hm. unfold Json.members_step. pose proof (skip_ws_length s) as Hws.
  destruct (Json.head_is Json.dquote (Json.skip_ws s)) as [s1|] eqn:E1; [|reflexivity].
  apply head_is_length in E1.
  destruct (Json.parse_chars s1) as [[key s2]|] eqn:E2; [|reflexivity].
  apply (parse_chars_length _ _ _ _ (le_n _)) in E2. pose proof (skip_ws_length s2) as Hws2.
  destruct (Json.head_is ":" (Json.skip_ws s2)) as [s3|] eqn:E3; [|reflexivity].
  apply head_is_length in E3. rewrite (Hv s3) by lia.
  destruct (v2 s3) as [[v rest]|] eqn:Ev; [|reflexivity].
  apply Hlen in Ev. pose proof (skip_ws_length rest) as Hws3.
  destruct (Json.skip_ws rest) as [|c rest']; [reflexivity|]. cbn [String.length] in Hws3.
  rewrite (Hm rest') by lia. reflexivity.
Qed.

(** With fuel for twice the length of the text, more fuel changes
    nothing. *)
Lemma parse_stable n : ∀ m s, (n ≤ m)%nat →
  ((2 * String.length s + 1 ≤ n)%nat → Json.parse_value m s = Json.parse_value n s)
  ∧ ((2 * String.length s + 2 ≤ n)%nat →
     Json.parse_elements m s = Json.parse_elements n s)
  ∧ ((2 * String.length s + 2 ≤ n)%nat →
     Json.parse_members m s = Json.parse_members n s).
Proof.
  induction n as [|n IH]; intros m s Hm; [repeat split; lia|].
  destruct m as [|m]; [lia|]. assert (n ≤ m)%nat as Hnm by lia.
  cbn [Json.parse_value Json.parse_elements Json.parse_members].
  split; [|split]; intros Hfuel.
  - apply value_step_ext; intros r Hr; apply (IH m r Hnm); lia.
  - apply elements_step_ext.
    + apply (IH m s Hnm). lia.
    + apply (parse_lengths n).
    + intros r Hr. apply (IH m r Hnm). lia.
  - apply members_step_ext.
    + intros r Hr. apply (IH m r Hnm). lia.
    + apply (parse_lengths n).
    + intros r Hr. apply (IH m r Hnm). lia.
Qed.

(** With less fuel a parse that succeeds gives the same result. *)
Lemma value_step_mono (e1 e2 : string → option (list Json.JsValue * string))
    (m1 m2 : string → option (list (string * Json.JsValue) * string)) s x :
  (∀ r y, e1 r = Some y → e2 r = Some y) →
  (∀ r y, m1 r = Some y → m2 r = Some y) →
  Json.value_step e1 m1 s = Some x → Json.value_step e2 m2 s = Some x.
Proof.
  intros He Hm. unfold Json.value_step.
  destruct (Json.skip_ws s) as [|c rest]; [discriminate|].
  repeat (match goal with
          | |- (if ?b then _ else _) = _ → _ => destruct b
          end; try tauto).
  - destruct (Json.head_is "]" (Json.skip_ws rest)); [tauto|].
    destruct (e1 rest) as [[vs r]|] eqn:E; [|discriminate].
    now rewrite (He _ _ E).
  - destruct (Json.head_is "}" (Json.skip_ws rest)); [tauto|].
    destruct (m1 rest) as [[ms r]|] eqn:E; [|discriminate].
    now rewrite (Hm _ _ E).
Qed.

Lemma elements_step_mono (v1 v2 : string → option (Json.JsValue * string))
    (e1 e2 : string → option (list Json.JsValue * string)) s x :
  (∀ r y, v1 r = Some y → v2 r = Some y) →
  (∀ r y, e1 r = Some y → e2 r = Some y) →
  Json.elements_step v1 e1 s = Some x → Json.elements_step v2 e2 s = Some x.
Proof.
  intros Hv He. unfold Json.elements_step.
  destruct (v1 s) as [[v rest]|] eqn:Ev; [|discriminate]. rewrite (Hv _ _ Ev).
  destruct (Json.skip_ws rest) as [|c rest']; [discriminate|].
  destruct (Ascii.eqb c ","); [|tauto].
  destruct (e1 rest') as [[vs r]|] eqn:E; [|discriminate]. now rewrite (He _ _ E).
Qed.

Lemma members_step_mono (v1 v2 : string → option (Json.JsValue * string))
    (m1 m2 : string → option (list (string * Json.JsValue) * string)) s x :
  (∀ r y, v1 r = Some y → v2 r = Some y) →
  (∀ r y, m1 r = Some y → m2 r = Some y) →
  Json.members_step v1 m1 s = Some x → Json.members_step v2 m2 s = Some x.
Proof.
  intros Hv Hm. unfold Json.members_step.
  destruct (Json.head_is Json.dquote (Json.skip_ws s)) as [s1|]; [|discriminate].
  destruct (Json.parse_chars s1) as [[key s2]|]; [|discriminate].
  destruct (Json.head_is ":" (Json.skip_ws s2)) as [s3|]; [|discriminate].
  destruct (v1 s3) as [[v rest]|] eqn:Ev; [|discriminate]. rewrite (Hv _ _ Ev).
  destruct (Json.skip_ws rest) as [|c rest']; [discriminate|].
  destruct (Ascii.eqb c ","); [|tauto].
  destruct (m1 rest') as [[ms r]|] eqn:E; [|discriminate]. now rewrite (Hm _ _ E).
Qed.

Lemma parse_mono n : ∀ m, (n ≤ m)%nat →
  (∀ s x, Json.parse_value n s = Some x → Json.parse_value m s = Some x)
  ∧ (∀ s x, Json.parse_elements n s = Some x → Json.parse_elements m s = Some x)
  ∧ (∀ s x, Json.parse_members n s = Some x → Json.parse_members m s = Some x).
Proof.
  induction n as [|n IH]; intros m Hm; [repeat split; discriminate|].
  destruct m as [|m]; [lia|]. destruct (IH m ltac:(lia)) as (IHv & IHe & IHm).
  cbn [Json.parse_value Json.parse_elements Json.parse_members].
  split; [|split]; intros s x.
  - now apply value_step_mono.
  - now apply elements_step_mono.
  - now apply members_step_mono.
Qed.

(** [Json.parse] accepts a text exactly when some amount of fuel parses it
    to a value followed by white space only, and gives that value. *)
Theorem parse_adequate text v :
  Json.parse text = Some v
  ↔ ∃ fuel rest, Json.parse_value fuel text = Some (v, rest)
                 ∧ Json.skip_ws rest = EmptyString.
Proof.
  unfold Json.parse. split.
  - destruct (Json.parse_value _ text) as [[v' rest]|] eqn:E; [|discriminate].
    destruct (Json.skip_ws rest) eqn:Es; [|discriminate].
    intros [= ->]. eauto.
  - intros (fuel & rest & E & Es).
    assert (Json.parse_value (2 * String.length text + 2) text = Some (v, rest)) as ->.
    { destruct (Nat.le_gt_cases fuel (2 * String.length text + 2)) as [Hle|Hgt].
      - exact (proj1 (parse_mono fuel _ Hle) text _ E).
      - rewrite <- E. symmetry.
        apply (parse_stable (2 * String.length text + 2) fuel text); lia. }
    now rewrite Es.
Qed.

(** ** Splitting and joining *)

Lemma split_not_nil sep s : Js.split sep s ≠ [].
Proof.
  destruct s as [|c rest]; simpl; [discriminate|].
  destruct (Ascii.eqb c sep); [discriminate|].
  destruct (Js.split sep rest); discriminate.
Qed.

Lemma join_split s : Js.join ":" (Js.split Js.colon s) = s.
Proof.
  induction s as [|c rest IH]; simpl; [reflexivity|].
  destruct (Ascii.eqb_spec c Js.colon) as [->|Hc].
  - pose proof (split_not_nil Js.colon rest) as Hne.
    destruct (Js.split Js.colon rest) as [|seg segs] eqn:E; [contradiction|].
    change (Js.join ":" (EmptyString :: seg :: segs))
      with (EmptyString +:+ ":" +:+ Js.join ":" (seg :: segs)).
    rewrite IH. reflexivity.
  - pose proof (split_not_nil Js.colon rest) as Hne.
    destruct (Js.split Js.colon rest) as [|seg segs] eqn:E; [contradiction|].
    destruct segs as [|seg' segs'].
    + simpl in *. now rewrite IH.
    + change (Js.join ":" (String c seg :: seg' :: segs'))
        with (String c (seg +:+ ":" +:+ Js.join ":" (seg' :: segs'))).
      f_equal. exact IH.
Qed.

Lemma split_segment s : Spec.segment s = true → Js.split Js.colon s = [s].
Proof.
  induction s as [|c rest IH]; simpl; [reflexivity|].
  intros [Hc Hrest]%andb_prop.
  destruct (Ascii.eqb c Js.colon); [discriminate|].
  now rewrite (IH Hrest).
Qed.

Lemma split_segment_colon f rest :
  Spec.segment f = true →
  Js.split Js.colon (f +:+ ":" +:+ rest) = f :: Js.split Js.colon rest.
Proof.
  induction f as [|c f IH]; simpl.
  - reflexivity.
  - intros [Hc Hf]%andb_prop.
    destruct (Ascii.eqb c Js.colon); [discriminate|].
    now rewrite (IH Hf).
Qed.

(** The first piece of a split has no colon, and the string is that piece
    alone or that piece, a colon, and the other pieces joined. *)
Lemma split_head s f rest :
  Js.split Js.colon s = f :: rest →
  Spec.segment f = true ∧
  s = match rest with [] => f | _ :: _ => f +:+ ":" +:+ Js.join ":" rest end.
Proof.
  revert f rest. induction s as [|c s IH]; simpl; intros f rest E.
  - injection E as <- <-. split; reflexivity.
  - destruct (Ascii.eqb_spec c Js.colon) as [->|Hc].
    + injection E as <- <-.
      pose proof (split_not_nil Js.colon s) as Hne.
      destruct (Js.split Js.colon s) as [|x xs] eqn:Es; [contradiction|].
      split; [reflexivity|]. rewrite <- Es, join_split. reflexivity.
    + pose proof (split_not_nil Js.colon s) as Hne.
      destruct (Js.split Js.colon s) as [|x xs] eqn:Es; [contradiction|].
      injection E as <- <-.
      destruct (IH x xs eq_refl) as [Hx Hs]. split.
      * simpl. rewrite Hx. apply Ascii.eqb_neq in Hc. now rewrite Hc.
      * destruct xs; rewrite Hs; reflexivity.
Qed.

(** ** Filter strings (parseFilters) *)

Lemma parseFilter_three_or_more field operator value :
  Spec.segment field = true →
  Spec.segment operator = true →
  Api.parseFilter (field +:+ ":" +:+ operator +:+ ":" +:+ value) =
  Resolved {| QueryFilter.field := field; QueryFilter.operator := operator;
              QueryFilter.value := Spec.interpret value |}.
Proof.
  intros Hf Ho. unfold Api.parseFilter, Spec.interpret.
  rewrite (split_segment_colon field _ Hf), (split_segment_colon operator _ Ho).
  pose proof (split_not_nil Js.colon value) as Hne.
  destruct (Js.split Js.colon value) as [|x xs] eqn:E; [contradiction|].
  rewrite <- E, join_split.
  destruct (Json.parse value); reflexivity.
Qed.

(** A string of three or more segments is a field, an operator and a value
    segment; the value segment is all that follows the second colon. *)
Lemma three_segments s :
  (3 ≤ Spec.segments s)%nat →
  ∃ field operator value,
    s = field +:+ ":" +:+ operator +:+ ":" +:+ value
    ∧ Spec.segment field = true ∧ Spec.segment operator = true.
Proof.
  unfold Spec.segments. intros Hlen.
  destruct (Js.split Js.colon s) as [|f [|o [|v vs]]] eqn:E; simpl in Hlen; try lia.
  destruct (split_head s f (o :: v :: vs) E) as [Hf Hs].
  exists f, o, (Js.join ":" (v :: vs)). split; [|split]; [|exact Hf|].
  - rewrite Hs. reflexivity.
  - assert (Js.split Js.colon (Js.join ":" (o :: v :: vs)) = o :: v :: vs) as E'.
    { rewrite Hs in E. rewrite (split_segment_colon f _ Hf) in E. now injection E. }
    now destruct (split_head _ _ _ E').
Qed.

(** C6: a raw filter string of at least three colon-separated segments is
    a field, an operator and a value segment, and parses, alone or in an
    array, to the filter whose value is the JSON parse of the value segment
    when that is valid JSON and the segment itself as a string otherwise;
    "age:gte:18" gives the number 18 and "name:eq:bob" the string "bob". *)
Theorem parseFilter_value_is_json_or_literal (s : string) :
  (3 ≤ Spec.segments s)%nat →
  (∃ field operator value,
     s = field +:+ ":" +:+ operator +:+ ":" +:+ value
     ∧ Spec.segment field = true ∧ Spec.segment operator = true
     ∧ Api.parseFilters (Api.many [s]) =
       Resolved [{| QueryFilter.field := field; QueryFilter.operator := operator;
                    QueryFilter.value :=
                      match Json.parse value with
                      | Some parsed => parsed
                      | None => Json.JsString value
                      end |}]
     ∧ Api.parseFilters (Api.one s) = Api.parseFilters (Api.many [s]))
  ∧ Api.parseFilters (Api.one "age:gte:18") =
    Resolved [{| QueryFilter.field := "age"; QueryFilter.operator := "gte";
                 QueryFilter.value := Json.JsNumber 18 0 |}]
  ∧ Api.parseFilters (Api.one "name:eq:bob") =
    Resolved [{| QueryFilter.field := "name"; QueryFilter.operator := "eq";
                 QueryFilter.value := Json.JsString "bob" |}].
Proof.
  intros Hlen. split; [|split; vm_compute; reflexivity].
  destruct (three_segments s Hlen) as (f & o & v & Hs & Hf & Ho).
  exists f, o, v. split; [exact Hs|]. split; [exact Hf|]. split; [exact Ho|]. split.
  - simpl. rewrite Hs, (parseFilter_three_or_more f o v Hf Ho). reflexivity.
  - destruct s as [|c s]; [|reflexivity]. vm_compute in Hlen. lia.
Qed.

Lemma parseFilter_value_is_json_or_literal_witness :
  (3 ≤ Spec.segments "tags:in:[1,2]")%nat
  ∧ ∃ field operator value,
      "tags:in:[1,2]" = field +:+ ":" +:+ operator +:+ ":" +:+ value
      ∧ Spec.segment field = true ∧ Spec.segment operator = true
      ∧ Api.parseFilters (Api.many ["tags:in:[1,2]"]) =
        Resolved [{| QueryFilter.field := field; QueryFilter.operator := operator;
                     QueryFilter.value :=
                       match Json.parse value with
                       | Some parsed => parsed
                       | None => Json.JsString value
                       end |}]
      ∧ Api.parseFilters (Api.one "tags:in:[1,2]")
        = Api.parseFilters (Api.many ["tags:in:[1,2]"]).
Proof.
  assert (3 ≤ Spec.segments "tags:in:[1,2]")%nat as H by (vm_compute; lia).
  split; [exact H|].
  exact (proj1 (parseFilter_value_is_json_or_literal "tags:in:[1,2]" H)).
Defined.

Example parseFilters_array_value :
  Api.parseFilters (Api.many ["tags:in:[1,2]"; "at:eq:12:30"]) =
  Resolved [{| QueryFilter.field := "tags"; QueryFilter.operator := "in";
               QueryFilter.value := Json.JsArray [Json.JsNumber 1 0; Json.JsNumber 2 0] |};
            {| QueryFilter.field := "at"; QueryFilter.operator := "eq";
               QueryFilter.value := Json.JsString "12:30" |}].
Proof. vm_compute. reflexivity. Qed.

Lemma parseFilter_too_short s :
  (Spec.segments s < 3)%nat →
  Api.parseFilter s =
  Rejected (PlainError ("Invalid filter format: " +:+ s +:+ " (expected field:op:value)")).
Proof.
  unfold Spec.segments, Api.parseFilter. intros Hlen.
  destruct (Js.split Js.colon s) as [|f [|o [|v vs]]]; simpl in Hlen; try reflexivity.
  lia.
Qed.

Lemma parseFilter_long_enough s :
  (3 ≤ Spec.segments s)%nat → ∃ f, Api.parseFilter s = Resolved f.
Proof.
  intros Hlen. destruct (three_segments s Hlen) as (f & o & v & -> & Hf & Ho).
  rewrite (parseFilter_three_or_more f o v Hf Ho). eauto.
Qed.

Lemma map_throwing_first_failure {X Y} (f : X → Outcome Y) before x after err :
  Forall (fun y => ∃ v, f y = Resolved v) before →
  f x = Rejected err →
  Api.map_throwing f (before ++ x :: after) = Rejected err.
Proof.
  intros Hbefore Hx. induction Hbefore as [|y ys [v Hy] _ IH]; simpl.
  - now rewrite Hx.
  - now rewrite Hy, IH.
Qed.

(** C7 as stated fails: the error is a plain [Error], which carries no
    code, not a [DataError] with code VALIDATION. *)
Lemma parseFilters_malformed_not_VALIDATION :
  Api.parseFilters (Api.one "age") =
  Rejected (PlainError "Invalid filter format: age (expected field:op:value)")
  ∧ ¬ ∃ message, Api.parseFilters (Api.one "age") = Rejected (DataError message VALIDATION).
Proof.
  split; [reflexivity|]. intros [message E]. vm_compute in E. discriminate E.
Qed.

(** The empty string given alone is falsy and yields no filters at all. *)
Example parseFilters_empty_string :
  (Spec.segments "" < 3)%nat ∧ Api.parseFilters (Api.one "") = Resolved [].
Proof. split; [vm_compute; lia | reflexivity]. Qed.

(** C7, amended: a raw filter string of fewer than three colon-separated
    segments makes filter parsing fail with a plain [Error] whose message is
    "Invalid filter format: <input> (expected field:op:value)"; in an array
    of raw strings the first such string is the one reported, and a single
    raw string is reported unless it is empty. *)
Theorem parseFilters_malformed (s : string) (before after : list string) :
  (Spec.segments s < 3)%nat →
  Forall (fun x => (3 ≤ Spec.segments x)%nat) before →
  Api.parseFilters (Api.many (before ++ s :: after)) =
    Rejected (PlainError ("Invalid filter format: " +:+ s +:+ " (expected field:op:value)"))
  ∧ (s ≠ EmptyString →
     Api.parseFilters (Api.one s) =
       Rejected (PlainError ("Invalid filter format: " +:+ s +:+ " (expected field:op:value)"))).
Proof.
  intros Hs Hbefore. pose proof (parseFilter_too_short s Hs) as E. split.
  - simpl. apply map_throwing_first_failure; [|exact E].
    eapply Forall_impl; [exact Hbefore|]. intros x Hx. now apply parseFilter_long_enough.
  - intros Hne. destruct s as [|c s]; [contradiction|].
    unfold Api.parseFilters. simpl Api.map_throwing. now rewrite E.
Qed.

Lemma parseFilters_malformed_witness :
  Api.parseFilters (Api.many (["age:gte:18"] ++ "name=bob" :: ["x:eq:1"])) =
    Rejected (PlainError "Invalid filter format: name=bob (expected field:op:value)")
  ∧ ("name=bob" ≠ EmptyString →
     Api.parseFilters (Api.one "name=bob") =
       Rejected (PlainError "Invalid filter format: name=bob (expected field:op:value)")).
Proof.
  apply (parseFilters_malformed "name=bob" ["age:gte:18"] ["x:eq:1"]).
  - vm_compute. lia.
  - constructor; [vm_compute; lia | constructor].
Defined.

(** ** Order directives (parseOrderBy) *)

Lemma parseOrder_directive field dir :
  Spec.well_formed_directive (field, dir) = true →
  Api.parseOrder (Spec.directive field dir) =
  {| OrderBy.field := field; OrderBy.direction := Spec.direction_of dir |}.
Proof.
  unfold Spec.well_formed_directive, Spec.directive, Spec.direction_of, Api.parseOrder.
  simpl. intros [Hf Hd]%andb_prop. destruct dir as [d|].
  - rewrite (split_segment_colon field d Hf), (split_segment d Hd).
    destruct (String.eqb_spec d "desc") as [->|Hne].
    + now rewrite decide_True.
    + rewrite decide_False; [reflexivity|]. intros [= ->]. now apply Hne.
  - rewrite (split_segment field Hf). now rewrite decide_False.
Qed.

(** C9: on a list of order directives, each [field] or [field:direction],
    parseOrderBy yields one entry per directive, in order, with the
    directive's field and with direction desc exactly when the direction
    segment is the string "desc", asc otherwise and when there is none;
    ["name:desc"; "age"] yields name descending, then age ascending. *)
Theorem parseOrderBy_directives (ds : list (string * option string)) :
  Forall (fun d => Spec.well_formed_directive d = true) ds →
  Api.parseOrderBy (Api.many (List.map (fun d => Spec.directive (fst d) (snd d)) ds)) =
    Some (List.map (fun d => {| OrderBy.field := fst d;
                               OrderBy.direction :=
                                 if decide (snd d = Some "desc")
                                 then OrderBy.desc else OrderBy.asc |}) ds)
  ∧ Api.parseOrderBy (Api.many ["name:desc"; "age"]) =
    Some [{| OrderBy.field := "name"; OrderBy.direction := OrderBy.desc |};
          {| OrderBy.field := "age"; OrderBy.direction := OrderBy.asc |}].
Proof.
  intros Hds. split; [|reflexivity].
  simpl. f_equal. induction Hds as [|[f d] ds Hd _ IH]; simpl; [reflexivity|].
  rewrite (parseOrder_directive f d Hd), IH. reflexivity.
Qed.

Lemma parseOrderBy_directives_witness :
  Api.parseOrderBy (Api.many ["name:desc"; "age"; "city:DESC"; "zip:"]) =
    Some [{| OrderBy.field := "name"; OrderBy.direction := OrderBy.desc |};
          {| OrderBy.field := "age"; OrderBy.direction := OrderBy.asc |};
          {| OrderBy.field := "city"; OrderBy.direction := OrderBy.asc |};
          {| OrderBy.field := "zip"; OrderBy.direction := OrderBy.asc |}].
Proof.
  refine (proj1 (parseOrderBy_directives
    [("name", Some "desc"); ("age", None); ("city", Some "DESC"); ("zip", Some "")] _)).
  repeat constructor.
Defined.

(** ** The patterns for table names and ids *)

Lemma letters_are_ranges c : Regex.lower c || Regex.upper c = Spec.occurs c Spec.letters.
Proof. destruct c as [[] [] [] [] [] [] [] []]; vm_compute; reflexivity. Qed.

Lemma digits_are_range c : Regex.digit c = Spec.occurs c Spec.digits.
Proof. destruct c as [[] [] [] [] [] [] [] []]; vm_compute; reflexivity. Qed.

Lemma all_chars_ext p q s :
  (∀ c, p c = q c) → Spec.all_chars p s = Spec.all_chars q s.
Proof. intros E. induction s as [|c s IH]; simpl; [reflexivity|]. now rewrite E, IH. Qed.

(** A bounded repetition of one character class, anchored at the end. *)
Lemma run_rep_class p hi : ∀ lo s,
  Regex.run (Regex.Rep (Regex.Class p) lo hi)
    (fun rest => match rest with EmptyString => true | _ => false end) s
  = (lo <=? String.length s)%nat && (String.length s <=? hi)%nat && Spec.all_chars p s.
Proof.
  induction hi as [|hi IH]; intros lo s.
  - destruct s as [|c s], lo as [|lo]; simpl; try reflexivity.
    now rewrite andb_false_r.
  - change (Regex.run (Regex.Rep (Regex.Class p) lo (S hi)) ?k s)
      with (Regex.run (Regex.Class p)
              (Regex.run (Regex.Rep (Regex.Class p) (Nat.pred lo) hi) k) s
            || (Nat.eqb lo 0 && k s)).
    destruct s as [|c s].
    + destruct lo; reflexivity.
    + change (Regex.run (Regex.Class p) ?k (String c s)) with (p c && k s).
      rewrite IH. cbn [String.length Spec.all_chars].
      rewrite andb_false_r, orb_false_r.
      replace (Nat.pred lo <=? String.length s)%nat
        with (lo <=? S (String.length s))%nat by (destruct lo; reflexivity).
      change (S (String.length s) <=? S hi)%nat with (String.length s <=? hi)%nat.
      destruct (p c), (lo <=? S (String.length s))%nat, (String.length s <=? hi)%nat;
        reflexivity.
Qed.

Lemma TABLE_NAME_RE_spec s :
  Regex.test DataService.TABLE_NAME_RE s = Spec.table_name s.
Proof.
  unfold Regex.test, DataService.TABLE_NAME_RE.
  destruct s as [|c s]; [reflexivity|].
  match goal with
  | |- Regex.run (Regex.Seq (Regex.Class ?h) ?r) ?k _ = _ =>
      change (h c && Regex.run r k s = Spec.table_name (String c s))
  end.
  rewrite run_rep_class. cbn [Nat.leb Spec.table_name andb].
  unfold Spec.letter_or_underscore. rewrite <- letters_are_ranges.
  unfold Regex.underscore at 1. rewrite <- andb_assoc. f_equal. f_equal.
  apply all_chars_ext. intros c'. unfold Spec.letter_digit_or_underscore.
  now rewrite <- letters_are_ranges, <- digits_are_range.
Qed.

Lemma ID_RE_spec s : Regex.test DataService.ID_RE s = Spec.record_id s.
Proof.
  unfold Regex.test, DataService.ID_RE, Spec.record_id.
  rewrite run_rep_class. f_equal.
  apply all_chars_ext. intros c. unfold Spec.letter_digit_or_underscore.
  now rewrite <- letters_are_ranges, <- digits_are_range.
Qed.

Lemma includes_In arr x : Js.includes arr x = true ↔ In x arr.
Proof.
  unfold Js.includes. rewrite existsb_exists. split.
  - intros (y & Hy & E). apply String.eqb_eq in E. now subst.
  - intros Hx. exists x. split; [exact Hx | apply String.eqb_refl].
Qed.

(** C8: validateTable accepts a string exactly when it starts with a
    letter or underscore followed by up to 62 letters, digits or
    underscores and, when an allow-list is configured, is a member of it;
    every other string is rejected with an error of code VALIDATION.  The
    service is left as it was either way. *)
Theorem validateTable_accepts_exactly {A} (svc : DataService.t A) (table : string) :
  (DataService.validateTable table svc = (Resolved tt, svc)
   ↔ Spec.table_name table = true
     ∧ ∀ allowed, DataService.allowedTables svc = Some allowed → In table allowed)
  ∧ (DataService.validateTable table svc = (Resolved tt, svc)
     ∨ ∃ message,
         DataService.validateTable table svc = (Rejected (DataError message VALIDATION), svc)).
Proof.
  unfold DataService.validateTable, DataService.throw, DataService.ret, DataService.error.
  rewrite TABLE_NAME_RE_spec.
  destruct (Spec.table_name table); simpl.
  - destruct (DataService.allowedTables svc) as [allowed|].
    + destruct (Js.includes allowed table) eqn:E; simpl.
      * split; [|now left]. split; [|reflexivity].
        intros _. split; [reflexivity|]. intros ? [= <-]. now apply includes_In.
      * split; [|right; eauto]. split; [discriminate|].
        intros [_ Hin]. specialize (Hin allowed eq_refl).
        apply includes_In in Hin. congruence.
    + split; [|now left]. split; [|reflexivity]. intros _. split; [reflexivity|discriminate].
  - split; [|right; eauto]. split; [discriminate|]. intros [? _]. discriminate.
Qed.

Example validateTable_examples :
  let svc := DataService.constructor tt
               (Some {| DataService.config_cacheTtlMs := None;
                        DataService.config_allowedTables := Some ["users"; "posts"] |}) in
  fst (DataService.validateTable "users" svc) = Resolved tt
  ∧ fst (DataService.validateTable "orders" svc) =
    Rejected (DataError "Table not allowed: orders" VALIDATION)
  ∧ fst (DataService.validateTable "9lives" svc) =
    Rejected (DataError "Invalid table name: 9lives" VALIDATION)
  ∧ fst (DataService.validateTable "users; drop" (DataService.constructor tt None)) =
    Rejected (DataError "Invalid table name: users; drop" VALIDATION)
  ∧ fst (DataService.validateTable "_private" (DataService.constructor tt None)) = Resolved tt.
Proof. vm_compute. repeat split. Qed.

(** ** The cache *)

(** C3: getCached never returns a value when the current time is past
    the entry's expiry; a lookup that finds such an entry deletes it,
    leaves the other entries alone and reports a miss. *)
Theorem getCached_never_stale (now : Z) (key : string)
    (cache : gmap string DataService.CacheEntry) :
  (∀ record, fst (DataService.getCached now key cache) = Some record →
     ∃ entry, cache !! key = Some entry
              ∧ DataService.data entry = record
              ∧ now ≤ DataService.expiresAt entry)
  ∧ (∀ entry, cache !! key = Some entry → DataService.expiresAt entry < now →
       fst (DataService.getCached now key cache) = None
       ∧ snd (DataService.getCached now key cache) = delete key cache
       ∧ snd (DataService.getCached now key cache) !! key = None
       ∧ ∀ other, other ≠ key →
           snd (DataService.getCached now key cache) !! other = cache !! other).
Proof.
  unfold DataService.getCached. split.
  - intros record. destruct (cache !! key) as [entry|]; [|discriminate].
    destruct (Z.gtb_spec now (DataService.expiresAt entry)); simpl; [discriminate|].
    intros [= <-]. exists entry. repeat split. lia.
  - intros entry -> Hexpired.
    destruct (Z.gtb_spec now (DataService.expiresAt entry)); [|lia]. simpl.
    repeat split.
    + apply lookup_delete_eq.
    + intros other Hne. now apply lookup_delete_ne.
Qed.

(** *** invalidateTable *)

Section InvalidateLoop.
Variable prefix : string.

Let step (c : gmap string DataService.CacheEntry) (key : string) :=
  if Js.startsWith prefix key then delete key c else c.

Lemma invalidate_loop_keeps keys : ∀ c k,
  Js.startsWith prefix k = false → fold_left step keys c !! k = c !! k.
Proof.
  induction keys as [|a keys IH]; intros c k Hk; simpl; [reflexivity|].
  rewrite (IH _ k Hk). unfold step.
  destruct (Js.startsWith prefix a) eqn:Ha; [|reflexivity].
  apply lookup_delete_ne. congruence.
Qed.

Lemma invalidate_loop_gone keys : ∀ c k,
  c !! k = None → fold_left step keys c !! k = None.
Proof.
  induction keys as [|a keys IH]; intros c k Hk; simpl; [exact Hk|].
  apply IH. unfold step. destruct (Js.startsWith prefix a); [|exact Hk].
  destruct (decide (a = k)) as [->|Hne];
    [apply lookup_delete_eq | now rewrite lookup_delete_ne].
Qed.

Lemma invalidate_loop_drops keys : ∀ c k,
  Js.startsWith prefix k = true → k ∈ keys → fold_left step keys c !! k = None.
Proof.
  induction keys as [|a keys IH]; intros c k Hk Hin; simpl.
  - inversion Hin.
  - destruct (decide (a = k)) as [->|Hne].
    + apply invalidate_loop_gone. unfold step. rewrite Hk. apply lookup_delete_eq.
    + apply IH; [exact Hk|]. inversion Hin; congruence.
Qed.

End InvalidateLoop.

Lemma invalidateTable_lookup table (cache : gmap string DataService.CacheEntry) key :
  DataService.invalidateTable table cache !! key =
  if Js.startsWith (table +:+ ":") key then None else cache !! key.
Proof.
  unfold DataService.invalidateTable.
  destruct (Js.startsWith (table +:+ ":") key) eqn:Hkey.
  - destruct (cache !! key) as [entry|] eqn:Hentry.
    + apply invalidate_loop_drops; [exact Hkey|].
      apply list_elem_of_fmap. exists (key, entry). split; [reflexivity|].
      now apply elem_of_map_to_list.
    + now apply invalidate_loop_gone.
  - now apply invalidate_loop_keeps.
Qed.

Lemma valid_id_not_empty id : Regex.test DataService.ID_RE id = true → id ≠ EmptyString.
Proof. intros Hid ->. vm_compute in Hid. discriminate. Qed.

Lemma cacheKey_of_valid_id table id :
  Regex.test DataService.ID_RE id = true →
  DataService.cacheKey table (Some id) = table +:+ ":" +:+ id.
Proof.
  intros Hid. pose proof (valid_id_not_empty id Hid).
  destruct id; [contradiction | reflexivity].
Qed.

Arguments DataService.cacheKey : simpl never.

(** Unfolds a service method down to its validation steps and its call of
    the adapter. *)
Ltac unfold_method :=
  unfold DataService.findMany, DataService.findOne, DataService.create,
    DataService.createMany, DataService.update, DataService.delete,
    DataService.deleteMany, DataService.count, DataService.healthCheck,
    DataService.bind, DataService.try_catch, DataService.adapter_failure,
    DataService.await_adapter, DataService.with_cache, DataService.validateId,
    DataService.validateTable, DataService.ret, DataService.throw, DataService.error in *.

Section ServiceCache.
Context {A : Type} `{Adapter.DataAdapter A}.

(** C4: a successful create, createMany or deleteMany on a table removes
    every cache entry whose key starts with the table name followed by a
    colon (and no other entry); a successful update or delete of an id
    removes the entry keyed table:id and leaves every other entry as it
    was. *)
Theorem cache_invalidation (table : string) (svc svc' : DataService.t A) :
  (∀ data r, DataService.create table data svc = (Resolved r, svc') →
     ∀ key, DataService.cache svc' !! key =
            if Js.startsWith (table +:+ ":") key then None
            else DataService.cache svc !! key)
  ∧ (∀ items rs, DataService.createMany table items svc = (Resolved rs, svc') →
     ∀ key, DataService.cache svc' !! key =
            if Js.startsWith (table +:+ ":") key then None
            else DataService.cache svc !! key)
  ∧ (∀ filters n, DataService.deleteMany table filters svc = (Resolved n, svc') →
     ∀ key, DataService.cache svc' !! key =
            if Js.startsWith (table +:+ ":") key then None
            else DataService.cache svc !! key)
  ∧ (∀ id data r, DataService.update table id data svc = (Resolved r, svc') →
     DataService.cache svc' !! (table +:+ ":" +:+ id) = None
     ∧ ∀ key, key ≠ table +:+ ":" +:+ id →
         DataService.cache svc' !! key = DataService.cache svc !! key)
  ∧ (∀ id, DataService.delete table id svc = (Resolved tt, svc') →
     DataService.cache svc' !! (table +:+ ":" +:+ id) = None
     ∧ ∀ key, key ≠ table +:+ ":" +:+ id →
         DataService.cache svc' !! key = DataService.cache svc !! key).
Proof.
  split; [|split; [|split; [|split]]].
  - intros data r E key. rewrite <- invalidateTable_lookup. unfold_method.
    repeat (case_match; simplify_eq/=); reflexivity.
  - intros items rs E key. rewrite <- invalidateTable_lookup. unfold_method.
    repeat (case_match; simplify_eq/=); reflexivity.
  - intros filters n E key. rewrite <- invalidateTable_lookup. unfold_method.
    repeat (case_match; simplify_eq/=); reflexivity.
  - intros id data r E. unfold_method.
    destruct (Regex.test DataService.ID_RE id) eqn:Hid;
      repeat (case_match; simplify_eq/=);
      rewrite (cacheKey_of_valid_id table id Hid);
      (split; [apply lookup_delete_eq | intros key Hkey; now apply lookup_delete_ne]).
  - intros id E. unfold_method.
    destruct (Regex.test DataService.ID_RE id) eqn:Hid;
      repeat (case_match; simplify_eq/=);
      rewrite (cacheKey_of_valid_id table id Hid);
      (split; [apply lookup_delete_eq | intros key Hkey; now apply lookup_delete_ne]).
Qed.

End ServiceCache.

(** ** The error boundary of the service *)

Lemma includes_elem_of arr x : Js.includes arr x = bool_decide (x ∈ arr).
Proof.
  destruct (Js.includes arr x) eqn:E; symmetry.
  - apply bool_decide_eq_true. apply list_elem_of_In. now apply includes_In.
  - apply bool_decide_eq_false. intros Hin%list_elem_of_In%includes_In. congruence.
Qed.

(** The checks of [validateTable] and [validateId], in the words of the
    specification. *)
Lemma valid_checks allowed op :
  Spec.valid allowed op =
  Regex.test DataService.TABLE_NAME_RE (Spec.table_of op)
  && match allowed with
     | Some tables => Js.includes tables (Spec.table_of op)
     | None => true
     end
  && match Spec.id_of op with
     | Some id => Regex.test DataService.ID_RE id
     | None => true
     end.
Proof.
  unfold Spec.valid. rewrite TABLE_NAME_RE_spec.
  destruct allowed as [tables|], (Spec.id_of op) as [id|];
    rewrite ?includes_elem_of, ?ID_RE_spec; reflexivity.
Qed.

Lemma message_or_of fallback err m :
  Spec.message_of err = Some m → message_or fallback err = m.
Proof. destruct err; simpl; congruence. Qed.

Section ServiceBoundary.
Context {A : Type} `{Adapter.DataAdapter A}.

Lemma invalid_is_rejected (op : Spec.Operation) (svc : DataService.t A) :
  Spec.valid (DataService.allowedTables svc) op = false →
  ∃ message, Spec.perform op svc = (Some (DataError message VALIDATION), svc).
Proof.
  rewrite valid_checks. intros Hvalid.
  destruct op; simpl in *; unfold_method;
    destruct (Regex.test DataService.TABLE_NAME_RE _); simpl in *; eauto;
    destruct (DataService.allowedTables svc) as [tables|]; simpl in *;
    try destruct (Js.includes tables _); simpl in *; eauto;
    rewrite ?Hvalid; simpl; eauto; discriminate.
Qed.

Lemma rejection_is_DataError (op : Spec.Operation) (svc svc' : DataService.t A) err :
  Spec.perform op svc = (Some err, svc') → ∃ message code, err = DataError message code.
Proof.
  destruct op; simpl; unfold_method; intros E;
    repeat (case_match; simplify_eq/=); eauto.
Qed.

Lemma adapter_failure_is_wrapped (op : Spec.Operation) (svc : DataService.t A) err a' :
  Spec.valid (DataService.allowedTables svc) op = true →
  Spec.reaches_adapter op svc = true →
  Spec.adapter_call op (DataService.adapter svc) = (Some err, a') →
  ∃ message,
    fst (Spec.perform op svc) = Some (DataError message ADAPTER)
    ∧ DataService.adapter (snd (Spec.perform op svc)) = a'
    ∧ ∀ m, Spec.message_of err = Some m → message = m.
Proof.
  rewrite valid_checks. intros [[Htable Hallowed]%andb_prop Hid]%andb_prop Hreach Hcall.
  destruct op; simpl in *; unfold_method; rewrite Htable; simpl;
    destruct (DataService.allowedTables svc) as [tables|];
    rewrite ?Hallowed, ?Hid; simpl;
    repeat (case_match; simplify_eq/=);
    repeat match goal with
           | H1 : ?call = (_, _), H2 : ?call = (_, _) |- _ =>
               rewrite H1 in H2; simplify_eq/=
           end;
    (eexists; split; [reflexivity|]; split; [reflexivity|]);
    intros m Hm; now apply message_or_of.
Qed.

Lemma healthCheck_never_rejects (svc : DataService.t A) :
  ∃ health svc',
    DataService.healthCheck svc = (Resolved health, svc')
    ∧ ∀ err a', Adapter.healthCheck (DataService.adapter svc) = (Rejected err, a') →
        health = {| ok := false; latencyMs := -1 |}.
Proof.
  unfold_method. destruct (Adapter.healthCheck (DataService.adapter svc)) as [[h|e] a].
  - do 2 eexists. split; [reflexivity|]. discriminate.
  - do 2 eexists. split; [reflexivity|]. reflexivity.
Qed.

(** C5, amended: an operation on a table whose table name or id fails
    validation is rejected with a DataError of code VALIDATION and leaves
    the service, its adapter and its cache as they were; whatever such an
    operation is rejected with is a DataError; a rejection by the adapter
    of a table operation is rethrown as a DataError that keeps the message
    of an Error; a rejection by the adapter's health check is not rethrown
    but answered with ok = false and latency -1. *)
Theorem service_boundary (op : Spec.Operation) (svc : DataService.t A) :
  (Spec.valid (DataService.allowedTables svc) op = false →
     ∃ message, Spec.perform op svc = (Some (DataError message VALIDATION), svc))
  ∧ (∀ err svc', Spec.perform op svc = (Some err, svc') →
       ∃ message code, err = DataError message code)
  ∧ (∀ err a',
       Spec.valid (DataService.allowedTables svc) op = true →
       Spec.reaches_adapter op svc = true →
       Spec.adapter_call op (DataService.adapter svc) = (Some err, a') →
       ∃ message code,
         fst (Spec.perform op svc) = Some (DataError message code)
         ∧ DataService.adapter (snd (Spec.perform op svc)) = a'
         ∧ ∀ m, Spec.message_of err = Some m → message = m)
  ∧ (∃ health svc',
       DataService.healthCheck svc = (Resolved health, svc')
       ∧ ∀ err a', Adapter.healthCheck (DataService.adapter svc) = (Rejected err, a') →
           health = {| ok := false; latencyMs := -1 |}).
Proof.
  split; [apply invalid_is_rejected|].
  split; [intros err svc'; apply rejection_is_DataError|].
  split; [|apply healthCheck_never_rejects].
  intros err a' Hvalid Hreach Hcall.
  destruct (adapter_failure_is_wrapped op svc err a' Hvalid Hreach Hcall)
    as (message & Hrejected & Hadapter & Hmessage).
  exists message, ADAPTER. auto.
Qed.

End ServiceBoundary.

(** C5 as stated fails on the health check: the adapter's failure is
    caught, but nothing is rethrown. *)
Lemma healthCheck_failure_is_not_rethrown :
  fst (@Adapter.healthCheck nat Fixtures.unreachable 0%nat)
  = Rejected (PlainError "connection refused")
  ∧ fst (@DataService.healthCheck nat Fixtures.unreachable
           (DataService.constructor 0%nat None))
    = Resolved {| ok := false; latencyMs := -1 |}
  ∧ ¬ ∃ message code,
        fst (@DataService.healthCheck nat Fixtures.unreachable
               (DataService.constructor 0%nat None))
        = Rejected (DataError message code).
Proof.
  split; [reflexivity|]. split; [reflexivity|].
  intros (message & code & E). discriminate E.
Qed.

(** On the adapter that counts its calls: a request that fails validation
    leaves the count at 0, one that passes it reaches the adapter once. *)
Example service_boundary_examples :
  let svc := DataService.constructor 0%nat None in
  @Spec.perform nat Fixtures.unreachable (Spec.Delete "users; --" "7") svc
  = (Some (DataError "Invalid table name: users; --" VALIDATION), svc)
  ∧ @Spec.perform nat Fixtures.unreachable (Spec.Delete "users" "a/b") svc
    = (Some (DataError "Invalid id: a/b" VALIDATION), svc)
  ∧ @Spec.perform nat Fixtures.unreachable (Spec.Update "users" "7" ∅) svc
    = (Some (DataError "connection refused" ADAPTER), DataService.constructor 1%nat None).
Proof. vm_compute. repeat split. Qed.

(** ** Pagination (findMany) *)

Lemma slice_length {X} (arr : list X) (offset limit : Z) :
  0 ≤ offset → 0 ≤ limit →
  Z.of_nat (length (Js.slice offset (offset + limit) arr))
  = Z.min limit (Z.max 0 (Z.of_nat (length arr) - offset)).
Proof.
  intros Hoffset Hlimit. unfold Js.slice, Js.relIndex.
  destruct (Z.ltb_spec offset 0); [lia|].
  destruct (Z.ltb_spec (offset + limit) 0); [lia|].
  rewrite length_take, length_drop. lia.
Qed.

(** The remote adapter computes the flag from the rows it received. *)
Lemma supabase_hasMore options response result :
  SupabaseAdapter.findMany options response = Resolved result →
  PaginatedResult.hasMore result = true
  ↔ PaginatedResult.offset result + Z.of_nat (length (PaginatedResult.data result))
    < PaginatedResult.count result.
Proof.
  unfold SupabaseAdapter.findMany.
  destruct (SupabaseAdapter.error response); [discriminate|].
  intros [= <-]. simpl. apply Z.ltb_lt.
Qed.

Section Memory.
Context `{InMemoryAdapter.Host}.
#[local] Existing Instance InMemoryAdapter.adapter.

(** The in-memory adapter computes the flag from the limit it was asked
    for; for an offset and a limit that are not negative this is the same
    as computing it from the records returned. *)
Lemma memory_hasMore table options st result st' :
  InMemoryAdapter.findMany table options st = (Resolved result, st') →
  0 ≤ PaginatedResult.offset result →
  0 ≤ PaginatedResult.limit result →
  PaginatedResult.hasMore result = true
  ↔ PaginatedResult.offset result + Z.of_nat (length (PaginatedResult.data result))
    < PaginatedResult.count result.
Proof.
  unfold InMemoryAdapter.findMany.
  destruct (InMemoryAdapter.getTable table st) as [stored st1].
  destruct (InMemoryAdapter.applyFilters stored _) as [records|err]; [|discriminate].
  intros [= <- <-]. simpl. intros Hoffset Hlimit.
  rewrite (slice_length _ _ _ Hoffset Hlimit), Z.ltb_lt. lia.
Qed.

(** C1 fails on the in-memory adapter: asked for limit -1 on an empty
    table, findMany returns no record and a total of 0, and yet hasMore is
    true, although offset plus the number of records returned is not below
    the total.  The service hands the adapter's result on as it is. *)
Theorem memory_hasMore_on_negative_limit :
  let options := Some {| QueryOptions.filters := None; QueryOptions.orderBy := None;
                         QueryOptions.limit := Some (-1); QueryOptions.offset := None;
                         QueryOptions.select := None |} in
  let page := {| PaginatedResult.data := []; PaginatedResult.count := 0;
                 PaginatedResult.limit := -1; PaginatedResult.offset := 0;
                 PaginatedResult.hasMore := true |} in
  fst (InMemoryAdapter.findMany "users" options InMemoryAdapter.empty) = Resolved page
  ∧ fst (DataService.findMany "users" options
           (DataService.constructor InMemoryAdapter.empty None)) = Resolved page
  ∧ ¬ (PaginatedResult.offset page + Z.of_nat (length (PaginatedResult.data page))
       < PaginatedResult.count page).
Proof.
  split; [|split].
  - vm_compute. reflexivity.
  - vm_compute. reflexivity.
  - simpl. lia.
Qed.

(** ** Deleting a record *)

Lemma findIndex_None {X} (p : X → bool) arr :
  Js.findIndex p arr = None ↔ ∀ x, x ∈ arr → p x = false.
Proof.
  induction arr as [|y arr IH]; simpl.
  - split; [|reflexivity]. intros _ x Hx. inversion Hx.
  - destruct (p y) eqn:Hy.
    + split; [discriminate|]. intros Hall.
      specialize (Hall y (list_elem_of_here _ _)). congruence.
    + rewrite fmap_None, IH. split.
      * intros Hall x Hx. apply elem_of_cons in Hx as [->|Hx]; auto.
      * intros Hall x Hx. apply Hall. now apply list_elem_of_further.
Qed.

Lemma find_None {X} (p : X → bool) arr :
  List.find p arr = None ↔ ∀ x, x ∈ arr → p x = false.
Proof.
  induction arr as [|y arr IH]; simpl.
  - split; [|reflexivity]. intros _ x Hx. inversion Hx.
  - destruct (p y) eqn:Hy.
    + split; [discriminate|]. intros Hall.
      specialize (Hall y (list_elem_of_here _ _)). congruence.
    + rewrite IH. split.
      * intros Hall x Hx. apply elem_of_cons in Hx as [->|Hx]; auto.
      * intros Hall x Hx. apply Hall. now apply list_elem_of_further.
Qed.

(** With one record per id, [splice] at the index that [findIndex] gave
    leaves the other records and no record of that id. *)
Lemma elem_of_splice1 id : ∀ records idx r,
  NoDup (List.map DataRecord.id records) →
  Js.findIndex (InMemoryAdapter.has_id id) records = Some idx →
  r ∈ Js.splice1 idx records ↔ r ∈ records ∧ InMemoryAdapter.has_id id r = false.
Proof.
  induction records as [|x records IH]; intros idx r Hnodup Hidx; [discriminate|].
  simpl in Hnodup, Hidx. apply NoDup_cons in Hnodup as [Hx Hnodup].
  destruct (InMemoryAdapter.has_id id x) eqn:Hpx.
  - injection Hidx as <-. simpl. rewrite elem_of_cons. split.
    + intros Hr. split; [now right|].
      destruct (InMemoryAdapter.has_id id r) eqn:Hpr; [|reflexivity].
      exfalso. apply Hx. unfold InMemoryAdapter.has_id in Hpx, Hpr.
      apply String.eqb_eq in Hpx, Hpr. rewrite Hpx, <- Hpr.
      apply list_elem_of_fmap. now exists r.
    + intros [[->|Hr] Hpr]; [congruence | exact Hr].
  - apply fmap_Some in Hidx as (i & Hi & ->). simpl.
    rewrite !elem_of_cons, (IH i r Hnodup Hi). split.
    + intros [->|[Hr Hpr]]; auto.
    + intros [[->|Hr] Hpr]; auto.
Qed.

Lemma getTable_rows table st :
  fst (InMemoryAdapter.getTable table st) = Spec.rows st table
  ∧ Spec.rows (snd (InMemoryAdapter.getTable table st)) table = Spec.rows st table
  ∧ InMemoryAdapter.tables (snd (InMemoryAdapter.getTable table st)) !! table
    = Some (Spec.rows st table).
Proof.
  unfold InMemoryAdapter.getTable, Spec.rows.
  destruct (InMemoryAdapter.tables st !! table) as [records|] eqn:E; simpl.
  - now rewrite E.
  - now rewrite lookup_insert_eq.
Qed.

Lemma memory_delete_absent table id st :
  (∀ r, r ∈ Spec.rows st table → DataRecord.id r ≠ id) →
  InMemoryAdapter.delete table id st
  = (Rejected (DataError ("Not found: " +:+ id) NOT_FOUND),
     snd (InMemoryAdapter.getTable table st)).
Proof.
  intros Habsent. unfold InMemoryAdapter.delete.
  pose proof (getTable_rows table st) as (Hrows & _ & _).
  destruct (InMemoryAdapter.getTable table st) as [records st1]. simpl in *. subst records.
  replace (Js.findIndex (InMemoryAdapter.has_id id) (Spec.rows st table)) with (@None nat);
    [reflexivity|].
  symmetry. apply findIndex_None. intros r Hr. apply String.eqb_neq. now apply Habsent.
Qed.

Lemma memory_delete_present table id st :
  (∃ r, r ∈ Spec.rows st table ∧ DataRecord.id r = id) →
  ∃ idx,
    Js.findIndex (InMemoryAdapter.has_id id) (Spec.rows st table) = Some idx
    ∧ InMemoryAdapter.delete table id st
      = (Resolved tt,
         InMemoryAdapter.with_tables
           (<[table := Js.splice1 idx (Spec.rows st table)]>
              (InMemoryAdapter.tables (snd (InMemoryAdapter.getTable table st))))
           (snd (InMemoryAdapter.getTable table st))).
Proof.
  intros (r0 & Hr0 & Hr0id). unfold InMemoryAdapter.delete.
  pose proof (getTable_rows table st) as (Hrows & _ & _).
  destruct (InMemoryAdapter.getTable table st) as [records st1]. simpl in *. subst records.
  destruct (Js.findIndex (InMemoryAdapter.has_id id) (Spec.rows st table)) as [idx|] eqn:Hidx.
  - exists idx. split; reflexivity.
  - exfalso. pose proof (proj1 (findIndex_None _ _) Hidx r0 Hr0) as Hno.
    apply String.eqb_neq in Hno. contradiction.
Qed.

(** The adapter signals an absent id with NOT_FOUND; the service catches
    it and rethrows it under the code ADAPTER. *)
Lemma delete_absent table id (svc : DataService.t InMemoryAdapter.t) :
  Spec.valid (DataService.allowedTables svc) (Spec.Delete table id) = true →
  (∀ r, r ∈ Spec.rows (DataService.adapter svc) table → DataRecord.id r ≠ id) →
  fst (InMemoryAdapter.delete table id (DataService.adapter svc))
  = Rejected (DataError ("Not found: " +:+ id) NOT_FOUND)
  ∧ fst (DataService.delete table id svc)
    = Rejected (DataError ("Not found: " +:+ id) ADAPTER).
Proof.
  rewrite valid_checks. simpl. intros [[Htable Hallowed]%andb_prop Hid]%andb_prop Habsent.
  pose proof (memory_delete_absent table id _ Habsent) as Hdelete.
  split; [now rewrite Hdelete|].
  unfold_method. rewrite Htable, Hid. simpl.
  destruct (DataService.allowedTables svc); rewrite ?Hallowed; simpl;
    change (Adapter.delete table id (DataService.adapter svc))
      with (InMemoryAdapter.delete table id (DataService.adapter svc));
    rewrite Hdelete; reflexivity.
Qed.

(** Deleting a present id succeeds, removes the record, and a findOne for
    that id afterwards finds nothing, in the cache or in the table. *)
Lemma delete_present table id (svc : DataService.t InMemoryAdapter.t) :
  Spec.valid (DataService.allowedTables svc) (Spec.Delete table id) = true →
  NoDup (List.map DataRecord.id (Spec.rows (DataService.adapter svc) table)) →
  (∃ r, r ∈ Spec.rows (DataService.adapter svc) table ∧ DataRecord.id r = id) →
  ∃ svc',
    DataService.delete table id svc = (Resolved tt, svc')
    ∧ (∀ r, r ∈ Spec.rows (DataService.adapter svc') table
            ↔ r ∈ Spec.rows (DataService.adapter svc) table ∧ DataRecord.id r ≠ id)
    ∧ ∀ now_lookup now_store,
        fst (DataService.findOne now_lookup now_store table id svc') = Resolved None.
Proof.
  rewrite valid_checks. simpl.
  intros [[Htable Hallowed]%andb_prop Hid]%andb_prop Hnodup Hpresent.
  destruct (memory_delete_present table id _ Hpresent) as (idx & Hidx & Hdelete).
  assert (∀ r, r ∈ Js.splice1 idx (Spec.rows (DataService.adapter svc) table)
               ↔ r ∈ Spec.rows (DataService.adapter svc) table ∧ DataRecord.id r ≠ id)
    as Hleft.
  { intros r. rewrite (elem_of_splice1 id _ idx r Hnodup Hidx).
    unfold InMemoryAdapter.has_id. now rewrite String.eqb_neq. }
  assert (List.find (InMemoryAdapter.has_id id)
            (Js.splice1 idx (Spec.rows (DataService.adapter svc) table)) = None) as Hfind.
  { apply find_None. intros r Hr. apply Hleft in Hr as [_ Hr]. now apply String.eqb_neq. }
  exists {| DataService.adapter :=
              snd (InMemoryAdapter.delete table id (DataService.adapter svc));
            DataService.cache :=
              delete (DataService.cacheKey table (Some id)) (DataService.cache svc);
            DataService.cacheTtlMs := DataService.cacheTtlMs svc;
            DataService.allowedTables := DataService.allowedTables svc |}.
  split; [|split].
  - unfold_method. rewrite Htable, Hid. simpl.
    destruct (DataService.allowedTables svc) eqn:Hallow; rewrite ?Hallowed; simpl;
      change (Adapter.delete table id (DataService.adapter svc))
        with (InMemoryAdapter.delete table id (DataService.adapter svc));
      rewrite Hdelete; simpl; rewrite ?Hallow; reflexivity.
  - intros r. simpl. rewrite Hdelete. unfold Spec.rows at 1. simpl.
    rewrite lookup_insert_eq. simpl. apply Hleft.
  - intros now_lookup now_store. unfold_method. simpl.
    rewrite Htable, Hid, Hdelete. simpl.
    destruct (DataService.allowedTables svc) eqn:Hallow; rewrite ?Hallowed; simpl;
      unfold DataService.getCached; rewrite lookup_delete_eq;
      change (Adapter.findOne table id ?a) with (InMemoryAdapter.findOne table id a);
      unfold InMemoryAdapter.findOne, InMemoryAdapter.getTable; simpl;
      rewrite lookup_insert_eq, Hfind; reflexivity.
Qed.

(** C2 fails on the code: deleting the absent id "u-404" through the
    service is rejected with code ADAPTER, although the in-memory adapter
    itself signalled NOT_FOUND. *)
Theorem delete_of_absent_id_carries_ADAPTER :
  fst (InMemoryAdapter.delete "users" "u-404" InMemoryAdapter.empty)
  = Rejected (DataError "Not found: u-404" NOT_FOUND)
  ∧ fst (DataService.delete "users" "u-404"
           (DataService.constructor InMemoryAdapter.empty None))
    = Rejected (DataError "Not found: u-404" ADAPTER).
Proof. split; vm_compute; reflexivity. Qed.

(** ** Creating records *)

Lemma create_eq table d st :
  InMemoryAdapter.create table d st
  = (Resolved (Spec.new_record (InMemoryAdapter.randomUUID (InMemoryAdapter.uuid_calls st))
                 (InMemoryAdapter.toISOString (InMemoryAdapter.clock_reads st)) d),
     {| InMemoryAdapter.tables :=
          <[table := (Spec.rows st table
                      ++ [Spec.new_record
                            (InMemoryAdapter.randomUUID (InMemoryAdapter.uuid_calls st))
                            (InMemoryAdapter.toISOString (InMemoryAdapter.clock_reads st))
                            d])%list]>
            (InMemoryAdapter.tables st);
        InMemoryAdapter.uuid_calls := S (InMemoryAdapter.uuid_calls st);
        InMemoryAdapter.clock_reads := S (InMemoryAdapter.clock_reads st) |}).
Proof.
  unfold InMemoryAdapter.create, InMemoryAdapter.getTable, Spec.rows,
    InMemoryAdapter.with_tables. simpl.
  destruct (InMemoryAdapter.tables st !! table) as [records|]; simpl; [reflexivity|].
  now rewrite insert_insert_eq.
Qed.

Lemma create_each_eq table : ∀ items st,
  ∃ st',
    InMemoryAdapter.create_each table items st
    = (List.map Resolved
         (Spec.created_from (InMemoryAdapter.uuid_calls st)
            (InMemoryAdapter.clock_reads st) items), st')
    ∧ Spec.rows st' table
      = (Spec.rows st table
         ++ Spec.created_from (InMemoryAdapter.uuid_calls st)
              (InMemoryAdapter.clock_reads st) items)%list
    ∧ (∀ other, other ≠ table →
         InMemoryAdapter.tables st' !! other = InMemoryAdapter.tables st !! other)
    ∧ InMemoryAdapter.uuid_calls st' = (InMemoryAdapter.uuid_calls st + length items)%nat
    ∧ InMemoryAdapter.clock_reads st' = (InMemoryAdapter.clock_reads st + length items)%nat.
Proof.
  induction items as [|d more IH]; intros st.
  - exists st. simpl. rewrite app_nil_r, !Nat.add_0_r. repeat split.
  - simpl. rewrite create_eq.
    match goal with
    | |- context [InMemoryAdapter.create_each table more ?st1] =>
        destruct (IH st1) as (st2 & Heach & Hrows & Hothers & Huuid & Hclock)
    end.
    rewrite Heach. exists st2. simpl in *. split; [reflexivity|]. split; [|split; [|split]].
    + rewrite Hrows. unfold Spec.rows at 1. simpl. rewrite lookup_insert_eq. simpl.
      now rewrite <- app_assoc.
    + intros other Hother. rewrite (Hothers other Hother). now apply lookup_insert_ne.
    + lia.
    + lia.
Qed.

Lemma Promise_all_resolved {T} (values : list T) :
  InMemoryAdapter.Promise_all (List.map Resolved values) = Resolved values.
Proof. induction values as [|v values IH]; simpl; [reflexivity|]. now rewrite IH. Qed.

Lemma created_from_lookup : ∀ items u c k d,
  items !! k = Some d →
  Spec.created_from u c items !! k
  = Some (Spec.new_record (InMemoryAdapter.randomUUID (u + k))
            (InMemoryAdapter.toISOString (c + k)) d).
Proof.
  induction items as [|d0 items IH]; intros u c k d Hk; [discriminate|].
  destruct k as [|k]; simpl in *.
  - injection Hk as ->. now rewrite !Nat.add_0_r.
  - rewrite (IH (S u) (S c) k d Hk). now rewrite !Nat.add_succ_r.
Qed.

Lemma created_from_length : ∀ items u c,
  length (Spec.created_from u c items) = length items.
Proof. induction items as [|d items IH]; intros u c; simpl; [reflexivity|]. now rewrite IH. Qed.

Lemma created_from_ids : ∀ items u c,
  List.map DataRecord.id (Spec.created_from u c items)
  = List.map InMemoryAdapter.randomUUID (seq u (length items)).
Proof. induction items as [|d items IH]; intros u c; simpl; [reflexivity|]. now rewrite IH. Qed.

Lemma omit_reserved_lookup (data : gmap string Json.JsValue) f :
  f ∉ ["id"; "created_at"; "updated_at"] →
  DataRecord.omit_reserved data !! f = data !! f.
Proof.
  intros Hf. unfold DataRecord.omit_reserved.
  rewrite !lookup_delete_ne; [reflexivity| | |]; intros <-; apply Hf; set_solver.
Qed.

(** The identifiers of new records are new when [uuid()] never repeats
    itself. *)
Lemma created_from_fresh items st :
  Inj (=) (=) InMemoryAdapter.randomUUID →
  Spec.ids_drawn st →
  NoDup (List.map DataRecord.id
           (Spec.created_from (InMemoryAdapter.uuid_calls st)
              (InMemoryAdapter.clock_reads st) items))
  ∧ ∀ r, r ∈ Spec.created_from (InMemoryAdapter.uuid_calls st)
               (InMemoryAdapter.clock_reads st) items →
      ∀ t r', r' ∈ Spec.rows st t → DataRecord.id r' ≠ DataRecord.id r.
Proof.
  intros Hinj Hdrawn. split.
  - rewrite created_from_ids. apply (NoDup_fmap_2 _). apply NoDup_seq.
  - intros r Hr t r' Hr' E.
    destruct (Hdrawn t r' Hr') as (j & Hj & Hjid).
    apply list_elem_of_lookup in Hr as (k & Hk).
    assert (DataRecord.id r ∈ List.map InMemoryAdapter.randomUUID
              (seq (InMemoryAdapter.uuid_calls st) (length items))) as Hin.
    { rewrite <- (created_from_ids items _ (InMemoryAdapter.clock_reads st)).
      apply list_elem_of_fmap. exists r. split; [reflexivity|].
      apply list_elem_of_lookup. eauto. }
    apply list_elem_of_fmap in Hin as (i & Hi & Hiseq).
    apply elem_of_seq in Hiseq. rewrite <- E, Hjid in Hi. apply Hinj in Hi. lia.
Qed.

(** C10: createMany of the in-memory adapter resolves to one record per
    input item, in the order of the items; record k carries the identifier
    of the k-th new call of uuid(), the k-th new clock reading as both
    timestamps, and the item's fields; the records are appended to the
    table in that order and no other table changes.  When uuid() never
    repeats itself the new identifiers are distinct from each other and
    from every identifier stored before. *)
Theorem createMany_in_order (table : string) (items : list (gmap string Json.JsValue))
    (st : InMemoryAdapter.t) :
  ∃ records st',
    InMemoryAdapter.createMany table items st = (Resolved records, st')
    ∧ length records = length items
    ∧ (∀ k d, items !! k = Some d →
         ∃ r, records !! k = Some r
              ∧ DataRecord.id r
                = InMemoryAdapter.randomUUID (InMemoryAdapter.uuid_calls st + k)
              ∧ DataRecord.created_at r
                = Some (Json.JsString
                          (InMemoryAdapter.toISOString (InMemoryAdapter.clock_reads st + k)))
              ∧ DataRecord.updated_at r
                = Some (InMemoryAdapter.toISOString (InMemoryAdapter.clock_reads st + k))
              ∧ ∀ f, f ∉ ["id"; "created_at"; "updated_at"] →
                     DataRecord.fields r !! f = d !! f)
    ∧ Spec.rows st' table = (Spec.rows st table ++ records)%list
    ∧ (∀ other, other ≠ table →
         InMemoryAdapter.tables st' !! other = InMemoryAdapter.tables st !! other)
    ∧ (Inj (=) (=) InMemoryAdapter.randomUUID → Spec.ids_drawn st →
         NoDup (List.map DataRecord.id records)
         ∧ ∀ r, r ∈ records →
             ∀ t r', r' ∈ Spec.rows st t → DataRecord.id r' ≠ DataRecord.id r).
Proof.
  destruct (create_each_eq table items st) as (st' & Heach & Hrows & Hothers & _ & _).
  exists (Spec.created_from (InMemoryAdapter.uuid_calls st)
            (InMemoryAdapter.clock_reads st) items), st'.
  split; [|split; [|split; [|split; [|split]]]].
  - unfold InMemoryAdapter.createMany. rewrite Heach, Promise_all_resolved. reflexivity.
  - apply created_from_length.
  - intros k d Hk. eexists. split; [exact (created_from_lookup items _ _ k d Hk)|].
    simpl. repeat split. apply omit_reserved_lookup.
  - exact Hrows.
  - exact Hothers.
  - apply created_from_fresh.
Qed.

(** createMany keeps the invariant that stored identifiers were drawn. *)
Lemma createMany_ids_drawn table items st :
  Spec.ids_drawn st →
  Spec.ids_drawn (snd (InMemoryAdapter.createMany table items st)).
Proof.
  intros Hdrawn.
  destruct (create_each_eq table items st) as (st' & Heach & Hrows & Hothers & Huuid & _).
  unfold InMemoryAdapter.createMany. rewrite Heach. simpl.
  intros t r Hr. destruct (decide (t = table)) as [->|Hne].
  - rewrite Hrows in Hr. apply elem_of_app in Hr as [Hr|Hr].
    + destruct (Hdrawn table r Hr) as (k & Hk & Hid). exists k. split; [lia | exact Hid].
    + apply list_elem_of_lookup in Hr as (k & Hk).
      pose proof (lookup_lt_Some _ _ _ Hk) as Hlt. rewrite created_from_length in Hlt.
      destruct (lookup_lt_is_Some_2 items k Hlt) as (d & Hd).
      rewrite (created_from_lookup items _ _ k d Hd) in Hk. injection Hk as <-.
      exists (InMemoryAdapter.uuid_calls st + k)%nat. split; [lia | reflexivity].
  - unfold Spec.rows in Hr. rewrite (Hothers t Hne) in Hr.
    destruct (Hdrawn t r Hr) as (k & Hk & Hid). exists k. split; [lia | exact Hid].
Qed.

(** createMany keeps identifiers unique within each table, which is what
    [delete_present] asks of the table. *)
Lemma createMany_ids_unique table items st :
  Inj (=) (=) InMemoryAdapter.randomUUID →
  Spec.ids_drawn st →
  (∀ t, NoDup (List.map DataRecord.id (Spec.rows st t))) →
  ∀ t, NoDup (List.map DataRecord.id
                (Spec.rows (snd (InMemoryAdapter.createMany table items st)) t)).
Proof.
  intros Hinj Hdrawn Hunique t.
  destruct (create_each_eq table items st) as (st' & Heach & Hrows & Hothers & _ & _).
  destruct (created_from_fresh items st Hinj Hdrawn) as [Hnew Hfresh].
  unfold InMemoryAdapter.createMany. rewrite Heach. simpl.
  destruct (decide (t = table)) as [->|Hne].
  - rewrite Hrows, map_app. apply NoDup_app. split; [apply Hunique|]. split; [|exact Hnew].
    intros x Hold Hx.
    apply list_elem_of_fmap in Hold as (r' & -> & Hr').
    apply list_elem_of_fmap in Hx as (r & E & Hr).
    exact (Hfresh r Hr table r' Hr' E).
  - unfold Spec.rows. rewrite (Hothers t Hne). apply Hunique.
Qed.

Lemma empty_ids_drawn : Spec.ids_drawn InMemoryAdapter.empty.
Proof. intros t r Hr. unfold Spec.rows in Hr. simpl in Hr. rewrite lookup_empty in Hr. inversion Hr. Qed.

End Memory.

(** ** The properties on concrete services *)

Lemma append_same_prefix p x y : p +:+ x = p +:+ y → x = y.
Proof. induction p as [|c p IH]; simpl; [tauto|]. intros [= E]. now apply IH. Qed.

Lemma numbering_never_repeats :
  Inj (=) (=) (@InMemoryAdapter.randomUUID Fixtures.numbering).
Proof.
  intros a b E.
  change ("mem-" +:+ NilEmpty.string_of_uint (Nat.to_uint a)
          = "mem-" +:+ NilEmpty.string_of_uint (Nat.to_uint b)) in E.
  apply append_same_prefix in E.
  apply (f_equal NilEmpty.uint_of_string) in E. rewrite !NilEmpty.usu in E.
  injection E as E. apply (f_equal Nat.of_uint) in E.
  now rewrite !DecimalNat.Unsigned.of_to in E.
Qed.

Lemma createMany_in_order_witness :
  ∃ records st',
    @InMemoryAdapter.createMany Fixtures.numbering "users"
      [{["name" := Json.JsString "ada"]}; {["id" := Json.JsString "mine"]}]
      InMemoryAdapter.empty = (Resolved records, st')
    ∧ length records = 2%nat
    ∧ Spec.rows st' "users" = records
    ∧ NoDup (List.map DataRecord.id records).
Proof.
  destruct (@createMany_in_order Fixtures.numbering "users"
              [{["name" := Json.JsString "ada"]}; {["id" := Json.JsString "mine"]}]
              InMemoryAdapter.empty)
    as (records & st' & Hrun & Hlen & _ & Hrows & _ & Hfresh).
  exists records, st'. split; [exact Hrun|]. split; [exact Hlen|]. split; [exact Hrows|].
  exact (proj1 (Hfresh numbering_never_repeats (@empty_ids_drawn Fixtures.numbering))).
Defined.

Example createMany_two_records :
  fst (@InMemoryAdapter.createMany Fixtures.numbering "users"
         [{["name" := Json.JsString "ada"]}; {["id" := Json.JsString "mine"]}]
         InMemoryAdapter.empty)
  = Resolved
      [{| DataRecord.id := "mem-0";
          DataRecord.created_at := Some (Json.JsString "t0");
          DataRecord.updated_at := Some "t0";
          DataRecord.fields := {["name" := Json.JsString "ada"]} |};
       {| DataRecord.id := "mem-1";
          DataRecord.created_at := Some (Json.JsString "t1");
          DataRecord.updated_at := Some "t1";
          DataRecord.fields := ∅ |}].
Proof. vm_compute. reflexivity. Qed.

Lemma getCached_never_stale_witness :
  let entry := {| DataService.data := Spec.new_record "7" "t0" ∅;
                  DataService.expiresAt := 1000 |} in
  let cache : gmap string DataService.CacheEntry :=
    <["users:7" := entry]> (<["users:8" := entry]> ∅) in
  fst (DataService.getCached 1001 "users:7" cache) = None
  ∧ snd (DataService.getCached 1001 "users:7" cache) = delete "users:7" cache
  ∧ snd (DataService.getCached 1001 "users:7" cache) !! "users:7" = None
  ∧ ∀ other, other ≠ "users:7" →
      snd (DataService.getCached 1001 "users:7" cache) !! other = cache !! other.
Proof.
  intros entry cache.
  refine (proj2 (getCached_never_stale 1001 "users:7" cache) entry _ _).
  - reflexivity.
  - simpl. lia.
Defined.

Example getCached_at_expiry :
  let entry := {| DataService.data := Spec.new_record "7" "t0" ∅;
                  DataService.expiresAt := 1000 |} in
  fst (DataService.getCached 1000 "users:7" {["users:7" := entry]})
  = Some (Spec.new_record "7" "t0" ∅).
Proof. reflexivity. Qed.

Lemma cache_invalidation_witness :
  let entry := {| DataService.data := Spec.new_record "1" "t0" ∅;
                  DataService.expiresAt := 1000 |} in
  let svc := {| DataService.adapter := InMemoryAdapter.empty;
                DataService.cache :=
                  <["users:1" := entry]> (<["users:2" := entry]> (<["posts:1" := entry]> ∅));
                DataService.cacheTtlMs := 500;
                DataService.allowedTables := None |} in
  let svc' := snd (@DataService.create _ (@InMemoryAdapter.adapter Fixtures.numbering)
                     "users" ∅ svc) in
  DataService.cache svc' !! "users:1" = None
  ∧ DataService.cache svc' !! "users:2" = None
  ∧ DataService.cache svc' !! "posts:1" = Some entry.
Proof.
  intros entry svc svc'.
  pose proof (proj1 (@cache_invalidation _ (@InMemoryAdapter.adapter Fixtures.numbering)
                       "users" svc svc') ∅ (Spec.new_record "mem-0" "t0" ∅)) as Hcreate.
  assert (@DataService.create _ (@InMemoryAdapter.adapter Fixtures.numbering) "users" ∅ svc
          = (Resolved (Spec.new_record "mem-0" "t0" ∅), svc')) as Hrun
    by (vm_compute; reflexivity).
  specialize (Hcreate Hrun).
  split; [exact (Hcreate "users:1")|]. split; [exact (Hcreate "users:2")|].
  rewrite (Hcreate "posts:1"). vm_compute. reflexivity.
Defined.

Lemma validateTable_accepts_exactly_witness :
  let svc := DataService.constructor tt
               (Some {| DataService.config_cacheTtlMs := None;
                        DataService.config_allowedTables := Some ["users"; "posts"] |}) in
  DataService.validateTable "users" svc = (Resolved tt, svc).
Proof.
  intros svc.
  apply (proj1 (@validateTable_accepts_exactly unit svc "users")).
  split; [reflexivity|]. intros allowed [= <-]. simpl. tauto.
Defined.

Lemma service_boundary_witness :
  ∃ message,
    @Spec.perform nat Fixtures.unreachable (Spec.FindOne 0 0 "users" "")
      (DataService.constructor 0%nat None)
    = (Some (DataError message VALIDATION), DataService.constructor 0%nat None).
Proof.
  apply (proj1 (@service_boundary nat Fixtures.unreachable
                  (Spec.FindOne 0 0 "users" "") (DataService.constructor 0%nat None))).
  vm_compute. reflexivity.
Defined.

(** Three records created, then the second page of two: two records, a
    total of three, nothing more. *)
Example findMany_second_page :
  let adapter := @InMemoryAdapter.adapter Fixtures.numbering in
  let svc := snd (@DataService.createMany _ adapter "users" [∅; ∅; ∅]
                    (DataService.constructor InMemoryAdapter.empty None)) in
  let options := Some {| QueryOptions.filters := None; QueryOptions.orderBy := None;
                         QueryOptions.limit := Some 2; QueryOptions.offset := Some 1;
                         QueryOptions.select := None |} in
  fst (@DataService.findMany _ adapter "users" options svc)
  = Resolved {| PaginatedResult.data := [Spec.new_record "mem-1" "t1" ∅;
                                         Spec.new_record "mem-2" "t2" ∅];
                PaginatedResult.count := 3;
                PaginatedResult.limit := 2;
                PaginatedResult.offset := 1;
                PaginatedResult.hasMore := false |}.
Proof. vm_compute. reflexivity. Qed.

(** A record is created, read (and cached), deleted, and read again. *)
Example delete_then_findOne :
  let adapter := @InMemoryAdapter.adapter Fixtures.numbering in
  let config := Some {| DataService.config_cacheTtlMs := Some 60000;
                        DataService.config_allowedTables := None |} in
  let svc0 := DataService.constructor InMemoryAdapter.empty config in
  let svc1 := snd (@DataService.create _ adapter "users" ∅ svc0) in
  let svc2 := snd (@DataService.findOne _ adapter 10 11 "users" "mem-0" svc1) in
  let svc3 := snd (@DataService.delete _ adapter "users" "mem-0" svc2) in
  fst (@DataService.findOne _ adapter 10 11 "users" "mem-0" svc1)
  = Resolved (Some (Spec.new_record "mem-0" "t0" ∅))
  ∧ DataService.cache svc2 !! "users:mem-0"
    = Some {| DataService.data := Spec.new_record "mem-0" "t0" ∅;
              DataService.expiresAt := 60011 |}
  ∧ fst (@DataService.delete _ adapter "users" "mem-0" svc2) = Resolved tt
  ∧ DataService.cache svc3 !! "users:mem-0" = None
  ∧ fst (@DataService.findOne _ adapter 20 21 "users" "mem-0" svc3) = Resolved None
  ∧ fst (@DataService.delete _ adapter "users" "mem-0" svc3)
    = Rejected (DataError "Not found: mem-0" ADAPTER).
Proof. vm_compute. repeat split. Qed.

(** * Further properties of the code *)

(** ** The rate limiter *)

Section SweepLoop.
Variable now : Z.

Let step (s : gmap string RateLimit.RateLimitEntry)
    (item : string * RateLimit.RateLimitEntry) :=
  if RateLimit.resetAt (snd item) <? now then delete (fst item) s else s.

Lemma sweep_loop_keeps items : ∀ s k,
  (∀ item, item ∈ items → fst item = k → (RateLimit.resetAt (snd item) <? now) = false) →
  fold_left step items s !! k = s !! k.
Proof.
  induction items as [|a items IH]; intros s k Hlive; simpl; [reflexivity|].
  rewrite IH by (intros item Hitem; apply Hlive; now right).
  unfold step. destruct (RateLimit.resetAt (snd a) <? now) eqn:Ha; [|reflexivity].
  apply lookup_delete_ne. intros E.
  rewrite (Hlive a (list_elem_of_here _ _) E) in Ha. discriminate.
Qed.

Lemma sweep_loop_gone items : ∀ s k,
  s !! k = None → fold_left step items s !! k = None.
Proof.
  induction items as [|a items IH]; intros s k Hk; simpl; [exact Hk|].
  apply IH. unfold step. destruct (RateLimit.resetAt (snd a) <? now); [|exact Hk].
  destruct (decide (fst a = k)) as [->|Hne];
    [apply lookup_delete_eq | now rewrite lookup_delete_ne].
Qed.

Lemma sweep_loop_drops items : ∀ s item,
  item ∈ items → (RateLimit.resetAt (snd item) <? now) = true →
  fold_left step items s !! fst item = None.
Proof.
  induction items as [|a items IH]; intros s item Hin Hexpired; simpl.
  - inversion Hin.
  - apply elem_of_cons in Hin as [<-|Hin].
    + apply sweep_loop_gone. unfold step. rewrite Hexpired. apply lookup_delete_eq.
    + now apply IH.
Qed.

End SweepLoop.

(** What the sweep leaves of the store. *)
Lemma cleanup_lookup now (store : gmap string RateLimit.RateLimitEntry) k :
  RateLimit.cleanup now store !! k =
  match store !! k with
  | Some entry => if RateLimit.resetAt entry <? now then None else Some entry
  | None => None
  end.
Proof.
  unfold RateLimit.cleanup.
  destruct (store !! k) as [entry|] eqn:Hk.
  - destruct (RateLimit.resetAt entry <? now) eqn:Hexpired.
    + apply (sweep_loop_drops now _ store (k, entry)); [|exact Hexpired].
      now apply elem_of_map_to_list.
    + rewrite sweep_loop_keeps; [exact Hk|].
      intros [k' e'] Hitem E. simpl in E. subst k'.
      apply elem_of_map_to_list in Hitem. simpl. congruence.
  - now apply sweep_loop_gone.
Qed.

Lemma rateLimiter_lookup maxRequests windowMs ip now store other :
  other ≠ ip →
  snd (RateLimit.rateLimiter maxRequests windowMs ip now store) !! other = store !! other.
Proof.
  intros Hne. unfold RateLimit.rateLimiter.
  destruct (store !! ip) as [entry|]; simpl.
  - destruct (RateLimit.resetAt entry <? now); simpl.
    + now apply lookup_insert_ne.
    + destruct (_ >? _); simpl; now apply lookup_insert_ne.
  - now apply lookup_insert_ne.
Qed.

(** X1: The sweep removes exactly the entries whose window is over, and the
    limiter cannot tell whether it has run: for a window length that is not
    negative, sweeping before a request gives the same decision and the
    same store as sweeping after it. *)
Theorem cleanup_is_unobservable (maxRequests windowMs : option Z) (ip : string) (now : Z)
    (store : gmap string RateLimit.RateLimitEntry) :
  0 ≤ default 60000 windowMs →
  (∀ k, RateLimit.cleanup now store !! k =
        match store !! k with
        | Some entry => if RateLimit.resetAt entry <? now then None else Some entry
        | None => None
        end)
  ∧ fst (RateLimit.rateLimiter maxRequests windowMs ip now (RateLimit.cleanup now store))
    = fst (RateLimit.rateLimiter maxRequests windowMs ip now store)
  ∧ snd (RateLimit.rateLimiter maxRequests windowMs ip now (RateLimit.cleanup now store))
    = RateLimit.cleanup now (snd (RateLimit.rateLimiter maxRequests windowMs ip now store)).
Proof.
  intros Hwindow. split; [intros k; apply cleanup_lookup|].
  split.
  - unfold RateLimit.rateLimiter. rewrite cleanup_lookup.
    destruct (store !! ip) as [entry|]; [|reflexivity].
    destruct (RateLimit.resetAt entry <? now) eqn:E; [reflexivity|]. rewrite E.
    destruct (_ >? _); reflexivity.
  - apply map_eq. intros k. rewrite cleanup_lookup.
    destruct (decide (k = ip)) as [->|Hne].
    + unfold RateLimit.rateLimiter. rewrite cleanup_lookup.
      destruct (store !! ip) as [entry|] eqn:Hip; simpl.
      * destruct (RateLimit.resetAt entry <? now) eqn:E; simpl.
        -- rewrite !lookup_insert_eq. simpl.
           destruct (Z.ltb_spec (now + default 60000 windowMs) now); [lia | reflexivity].
        -- rewrite E. destruct (_ >? _); simpl; rewrite !lookup_insert_eq; simpl;
             now rewrite E.
      * rewrite !lookup_insert_eq. simpl.
        destruct (Z.ltb_spec (now + default 60000 windowMs) now); [lia | reflexivity].
    + rewrite !rateLimiter_lookup by exact Hne. apply cleanup_lookup.
Qed.

Lemma cleanup_is_unobservable_witness :
  let store : gmap string RateLimit.RateLimitEntry :=
    <["10.0.0.1" := {| RateLimit.count := 60; RateLimit.resetAt := 500 |}]>
      (<["10.0.0.2" := {| RateLimit.count := 3; RateLimit.resetAt := 2000 |}]> ∅) in
  RateLimit.cleanup 1000 store !! "10.0.0.1" = None
  ∧ RateLimit.cleanup 1000 store !! "10.0.0.2"
    = Some {| RateLimit.count := 3; RateLimit.resetAt := 2000 |}
  ∧ fst (RateLimit.rateLimiter (Some 60) None "10.0.0.1" 1000
           (RateLimit.cleanup 1000 store)) = RateLimit.next.
Proof.
  intros store.
  destruct (cleanup_is_unobservable (Some 60) None "10.0.0.1" 1000 store)
    as (Hsweep & Hdecision & _); [simpl; lia|].
  split; [exact (Hsweep "10.0.0.1")|]. split; [exact (Hsweep "10.0.0.2")|].
  rewrite Hdecision. reflexivity.
Defined.

Lemma serve_in_window maxRequests windowMs ip : ∀ times store c r,
  store !! ip = Some {| RateLimit.count := c; RateLimit.resetAt := r |} →
  Forall (λ t, t ≤ r) times →
  length (fst (RateLimit.serve maxRequests windowMs ip times store)) = length times
  ∧ (∀ k, (k < length times)%nat →
       fst (RateLimit.serve maxRequests windowMs ip times store) !! k
       = Some (if c + Z.of_nat k + 1 >? default 60 maxRequests
               then RateLimit.too_many_requests else RateLimit.next))
  ∧ snd (RateLimit.serve maxRequests windowMs ip times store) !! ip
    = Some {| RateLimit.count := c + Z.of_nat (length times); RateLimit.resetAt := r |}
  ∧ ∀ other, other ≠ ip →
      snd (RateLimit.serve maxRequests windowMs ip times store) !! other = store !! other.
Proof.
  induction times as [|t times IH]; intros store c r Hip Hin.
  - simpl. rewrite Z.add_0_r. repeat split; [intros k Hk; lia | exact Hip].
  - apply Forall_cons in Hin as [Ht Hin]. cbn [RateLimit.serve].
    assert (RateLimit.rateLimiter maxRequests windowMs ip t store
            = (if c + 1 >? default 60 maxRequests
               then RateLimit.too_many_requests else RateLimit.next,
               <[ip := {| RateLimit.count := c + 1; RateLimit.resetAt := r |}]> store))
      as ->.
    { unfold RateLimit.rateLimiter. rewrite Hip. simpl.
      destruct (Z.ltb_spec r t); [lia|]. now destruct (_ >? _). }
    specialize (IH (<[ip := {| RateLimit.count := c + 1; RateLimit.resetAt := r |}]> store)
                  (c + 1) r (lookup_insert_eq _ _ _) Hin).
    destruct (RateLimit.serve maxRequests windowMs ip times _) as [ds store'].
    destruct IH as (Hlen & Hds & Hentry & Hothers). simpl in *.
    split; [now rewrite Hlen|]. split; [|split].
    + intros [|k] Hk; simpl in *.
      * now rewrite Z.add_0_r.
      * rewrite Hds by lia.
        replace (c + 1 + Z.of_nat k + 1) with (c + Z.pos (Pos.of_succ_nat k) + 1) by lia.
        reflexivity.
    + rewrite Hentry. do 2 f_equal. lia.
    + intros other Hne. rewrite (Hothers other Hne). now apply lookup_insert_ne.
Qed.

(** X2: A client whose window is over, or who has none, opens one with the
    request at [t0]; of the requests it makes until that window ends, the
    first is handed on whatever the limit is, the later ones as long as
    their number in the window does not exceed the limit, and every one is
    counted, refused or not.  No other client's entry changes. *)
Theorem burst_within_window (maxRequests windowMs : option Z) (ip : string) (t0 : Z)
    (later : list Z) (store : gmap string RateLimit.RateLimitEntry) :
  (∀ entry, store !! ip = Some entry → RateLimit.resetAt entry < t0) →
  Forall (λ t, t ≤ t0 + default 60000 windowMs) later →
  length (fst (RateLimit.serve maxRequests windowMs ip (t0 :: later) store))
  = S (length later)
  ∧ (∀ k, (k ≤ length later)%nat →
       fst (RateLimit.serve maxRequests windowMs ip (t0 :: later) store) !! k
       = Some (if decide (k = 0%nat ∨ Z.of_nat k + 1 ≤ default 60 maxRequests)
               then RateLimit.next else RateLimit.too_many_requests))
  ∧ snd (RateLimit.serve maxRequests windowMs ip (t0 :: later) store) !! ip
    = Some {| RateLimit.count := Z.of_nat (S (length later));
              RateLimit.resetAt := t0 + default 60000 windowMs |}
  ∧ ∀ other, other ≠ ip →
      snd (RateLimit.serve maxRequests windowMs ip (t0 :: later) store) !! other
      = store !! other.
Proof.
  intros Hopen Hlater. cbn [RateLimit.serve].
  assert (RateLimit.rateLimiter maxRequests windowMs ip t0 store
          = (RateLimit.next,
             <[ip := {| RateLimit.count := 1;
                        RateLimit.resetAt := t0 + default 60000 windowMs |}]> store))
    as ->.
  { unfold RateLimit.rateLimiter. destruct (store !! ip) as [entry|] eqn:Hip; [|reflexivity].
    specialize (Hopen entry eq_refl).
    destruct (Z.ltb_spec (RateLimit.resetAt entry) t0); [reflexivity | lia]. }
  pose proof (serve_in_window maxRequests windowMs ip later
                (<[ip := {| RateLimit.count := 1;
                            RateLimit.resetAt := t0 + default 60000 windowMs |}]> store)
                1 _ (lookup_insert_eq _ _ _) Hlater) as IH.
  destruct (RateLimit.serve maxRequests windowMs ip later _) as [ds store'].
  destruct IH as (Hlen & Hds & Hentry & Hothers). simpl in *.
  split; [now rewrite Hlen|]. split; [|split].
  - intros [|k] Hk.
    + case_decide as Hk0; [reflexivity|]. exfalso. apply Hk0. now left.
    + change ((RateLimit.next :: ds) !! S k) with (ds !! k). rewrite Hds by lia.
      f_equal. case_decide as Hk0;
        destruct (Z.gtb_spec (1 + Z.of_nat k + 1) (default 60 maxRequests));
        try reflexivity; exfalso; [destruct Hk0; lia | apply Hk0; right; lia].
  - rewrite Hentry. do 2 f_equal. lia.
  - intros other Hne. rewrite (Hothers other Hne). now apply lookup_insert_ne.
Qed.

Lemma burst_within_window_witness :
  fst (RateLimit.serve (Some 2) (Some 1000) "10.0.0.1" [5000; 5001; 5500; 6000] ∅)
  !! 1%nat = Some RateLimit.next
  ∧ fst (RateLimit.serve (Some 2) (Some 1000) "10.0.0.1" [5000; 5001; 5500; 6000] ∅)
    !! 2%nat = Some RateLimit.too_many_requests
  ∧ snd (RateLimit.serve (Some 2) (Some 1000) "10.0.0.1" [5000; 5001; 5500; 6000] ∅)
    !! "10.0.0.1" = Some {| RateLimit.count := 4; RateLimit.resetAt := 6000 |}.
Proof.
  destruct (burst_within_window (Some 2) (Some 1000) "10.0.0.1" 5000 [5001; 5500; 6000] ∅)
    as (_ & Hds & Hentry & _).
  - intros entry Hentry. rewrite lookup_empty in Hentry. discriminate.
  - repeat constructor; simpl; lia.
  - split; [exact (Hds 1%nat ltac:(simpl; lia))|].
    split; [exact (Hds 2%nat ltac:(simpl; lia)) | exact Hentry].
Defined.

(** With a limit of zero the first request of a window still passes. *)
Example first_request_passes_a_zero_limit :
  RateLimit.serve (Some 0) None "10.0.0.1" [100; 101] ∅
  = ([RateLimit.next; RateLimit.too_many_requests],
     {["10.0.0.1" := {| RateLimit.count := 2; RateLimit.resetAt := 60100 |}]}).
Proof. vm_compute. reflexivity. Qed.

(** ** Identifiers and cache keys *)

(** X3: validateId accepts exactly the strings of 1 to 255 letters, digits,
    underscores and hyphens, rejects every other string (the empty one
    too) with code VALIDATION, and leaves the service as it was. *)
Theorem validateId_accepts_exactly {A} (svc : DataService.t A) (id : string) :
  (DataService.validateId id svc = (Resolved tt, svc) ↔ Spec.record_id id = true)
  ∧ (DataService.validateId id svc = (Resolved tt, svc)
     ∨ DataService.validateId id svc
       = (Rejected (DataError ("Invalid id: " +:+ id) VALIDATION), svc))
  ∧ DataService.validateId EmptyString svc
    = (Rejected (DataError "Invalid id: " VALIDATION), svc).
Proof.
  unfold DataService.validateId, DataService.throw, DataService.ret, DataService.error.
  rewrite ID_RE_spec. split; [|split; [|reflexivity]].
  - destruct (Spec.record_id id); simpl; split; try reflexivity; discriminate.
  - destruct (Spec.record_id id); simpl; [now left | now right].
Qed.

Lemma word_char_not_colon c :
  Spec.letter_digit_or_underscore c = true → Ascii.eqb c Js.colon = false.
Proof. destruct c as [[] [] [] [] [] [] [] []]; vm_compute; congruence. Qed.

Lemma word_chars_segment s :
  Spec.all_chars Spec.letter_digit_or_underscore s = true → Spec.segment s = true.
Proof.
  induction s as [|c s IH]; simpl; [reflexivity|].
  intros [Hc Hs]%andb_prop. now rewrite (word_char_not_colon c Hc), IH.
Qed.

(** A table name that passes validation has no colon in it. *)
Lemma table_name_segment table : Spec.table_name table = true → Spec.segment table = true.
Proof.
  destruct table as [|c s]; simpl; [discriminate|].
  intros [[Hc _]%andb_prop Hs]%andb_prop.
  rewrite (word_chars_segment s Hs), andb_true_r.
  destruct c as [[] [] [] [] [] [] [] []]; vm_compute in Hc |- *; congruence.
Qed.

Lemma record_id_not_empty id : Spec.record_id id = true → id ≠ EmptyString.
Proof. intros Hid ->. vm_compute in Hid. discriminate. Qed.

Lemma append_empty s : EmptyString +:+ s = s.
Proof. reflexivity. Qed.

Lemma append_cons c s t : String c s +:+ t = String c (s +:+ t).
Proof. reflexivity. Qed.

Lemma startsWith_namespace t : ∀ t' rest,
  Spec.segment t = true → Spec.segment t' = true →
  Js.startsWith (t +:+ ":") (t' +:+ ":" +:+ rest) = true ↔ t = t'.
Proof.
  induction t as [|a t IH]; intros [|b t'] rest Ht Ht';
    rewrite ?append_empty, ?append_cons;
    cbn [Js.startsWith Spec.segment] in *; unfold Js.colon in *.
  - split; reflexivity.
  - apply andb_prop in Ht' as [Hb _]. apply negb_true_iff in Hb.
    rewrite Ascii.eqb_sym in Hb. rewrite Hb. split; discriminate.
  - apply andb_prop in Ht as [Ha _]. apply negb_true_iff in Ha.
    rewrite Ha. split; discriminate.
  - apply andb_prop in Ht as [_ Ht]. apply andb_prop in Ht' as [_ Ht'].
    destruct (Ascii.eqb_spec a b) as [->|Hne]; cbn [andb].
    + rewrite (IH t' rest Ht Ht'). split; [now intros -> | now intros [= ->]].
    + split; [discriminate | intros [= ? ?]; contradiction].
Qed.

(** X4: Cache keys of valid table names and ids never collide: equal keys
    mean the same table and the same id; and a key lies in the namespace
    that invalidateTable clears for a table exactly when it is a key of
    that table, so that invalidating one table drops no entry of
    another. *)
Theorem cache_keys_do_not_collide (table table' id id' : string)
    (cache : gmap string DataService.CacheEntry) :
  Spec.table_name table = true → Spec.table_name table' = true →
  Spec.record_id id = true → Spec.record_id id' = true →
  (DataService.cacheKey table (Some id) = DataService.cacheKey table' (Some id')
   ↔ table = table' ∧ id = id')
  ∧ (Js.startsWith (table +:+ ":") (DataService.cacheKey table' (Some id')) = true
     ↔ table = table')
  ∧ DataService.invalidateTable table cache !! DataService.cacheKey table' (Some id')
    = if decide (table = table') then None
      else cache !! DataService.cacheKey table' (Some id').
Proof.
  intros Ht%table_name_segment Ht'%table_name_segment Hid Hid'.
  assert (∀ t i, Spec.record_id i = true →
                 DataService.cacheKey t (Some i) = t +:+ ":" +:+ i) as Hkey.
  { intros t i Hi. pose proof (record_id_not_empty i Hi).
    destruct i; [contradiction | reflexivity]. }
  rewrite (Hkey table id Hid), (Hkey table' id' Hid').
  split; [|split].
  - split; [|now intros [-> ->]]. intros E.
    assert (table = table') as ->.
    { apply (f_equal (Js.split Js.colon)) in E.
      rewrite (split_segment_colon table id Ht), (split_segment_colon table' id' Ht') in E.
      now injection E. }
    split; [reflexivity|]. apply append_same_prefix in E.
    now apply (append_same_prefix ":") in E.
  - now apply startsWith_namespace.
  - rewrite invalidateTable_lookup.
    destruct (Js.startsWith (table +:+ ":") (table' +:+ ":" +:+ id')) eqn:E.
    + apply startsWith_namespace in E; [|assumption..]. now rewrite decide_True.
    + rewrite decide_False; [reflexivity|]. intros ->.
      assert (Js.startsWith (table' +:+ ":") (table' +:+ ":" +:+ id') = true) as E'
        by now apply startsWith_namespace.
      congruence.
Qed.

Lemma cache_keys_do_not_collide_witness :
  let entry := {| DataService.data := Spec.new_record "1" "t0" ∅;
                  DataService.expiresAt := 1000 |} in
  let cache : gmap string DataService.CacheEntry :=
    <["users:1" := entry]> (<["users_archive:1" := entry]> ∅) in
  DataService.invalidateTable "users" cache !! DataService.cacheKey "users_archive" (Some "1")
  = if decide ("users" = "users_archive") then None
    else cache !! DataService.cacheKey "users_archive" (Some "1").
Proof.
  intros entry cache.
  apply (cache_keys_do_not_collide "users" "users_archive" "1" "1" cache); reflexivity.
Defined.

(** ** What findOne caches, and what nothing else does *)

Section ServiceCaching.
Context {A : Type} `{Adapter.DataAdapter A}.

Lemma validations_pass (svc : DataService.t A) table id :
  Regex.test DataService.TABLE_NAME_RE table = true →
  match DataService.allowedTables svc with
  | Some tables => Js.includes tables table
  | None => true
  end = true →
  Regex.test DataService.ID_RE id = true →
  DataService.validateTable table svc = (Resolved tt, svc)
  ∧ DataService.validateId id svc = (Resolved tt, svc).
Proof.
  intros Htable Hallowed Hid.
  unfold DataService.validateTable, DataService.validateId, DataService.ret.
  rewrite Htable, Hid. simpl.
  destruct (DataService.allowedTables svc); [rewrite Hallowed|]; split; reflexivity.
Qed.

(** findOne after its validations. *)
Lemma findOne_validated now_lookup now_store table id (svc : DataService.t A) :
  Spec.valid (DataService.allowedTables svc) (Spec.FindOne now_lookup now_store table id)
  = true →
  DataService.findOne now_lookup now_store table id svc =
  let key := DataService.cacheKey table (Some id) in
  match DataService.getCached now_lookup key (DataService.cache svc) with
  | (Some record, c) =>
      (Resolved (Some record),
       {| DataService.adapter := DataService.adapter svc; DataService.cache := c;
          DataService.cacheTtlMs := DataService.cacheTtlMs svc;
          DataService.allowedTables := DataService.allowedTables svc |})
  | (None, c) =>
      match Adapter.findOne table id (DataService.adapter svc) with
      | (Resolved (Some record), a) =>
          (Resolved (Some record),
           {| DataService.adapter := a;
              DataService.cache :=
                DataService.setCache (DataService.cacheTtlMs svc) now_store key record c;
              DataService.cacheTtlMs := DataService.cacheTtlMs svc;
              DataService.allowedTables := DataService.allowedTables svc |})
      | (Resolved None, a) =>
          (Resolved None,
           {| DataService.adapter := a; DataService.cache := c;
              DataService.cacheTtlMs := DataService.cacheTtlMs svc;
              DataService.allowedTables := DataService.allowedTables svc |})
      | (Rejected err, a) =>
          (Rejected (DataError (message_or "findOne failed" err) ADAPTER),
           {| DataService.adapter := a; DataService.cache := c;
              DataService.cacheTtlMs := DataService.cacheTtlMs svc;
              DataService.allowedTables := DataService.allowedTables svc |})
      end
  end.
Proof.
  rewrite valid_checks. simpl. intros [[Htable Hallowed]%andb_prop Hid]%andb_prop.
  destruct (validations_pass svc table id Htable Hallowed Hid) as [Hvt Hvi].
  unfold DataService.findOne, DataService.bind. rewrite Hvt, Hvi. simpl.
  destruct (DataService.getCached _ _ _) as [[record|] c]; [reflexivity|].
  unfold DataService.try_catch, DataService.bind, DataService.await_adapter. simpl.
  destruct (Adapter.findOne table id (DataService.adapter svc)) as [[[record|]|err] a];
    reflexivity.
Qed.

(** X5: A findOne that fetched a record from the adapter under a positive
    TTL is answered from the cache, without the adapter and without any
    change to the service, as long as the clock has not passed the reading
    at which the record was stored plus the TTL; once it has, findOne goes
    to the adapter again and answers what the adapter answers. *)
Theorem findOne_cache_window (now_lookup now_store now_again now_later : Z)
    (table id : string) (record : DataRecord.t) (svc svc' : DataService.t A) :
  Spec.valid (DataService.allowedTables svc) (Spec.FindOne now_lookup now_store table id)
  = true →
  Spec.reaches_adapter (Spec.FindOne now_lookup now_store table id) svc = true →
  DataService.findOne now_lookup now_store table id svc = (Resolved (Some record), svc') →
  0 < DataService.cacheTtlMs svc →
  (now_again ≤ now_store + DataService.cacheTtlMs svc →
   DataService.findOne now_again now_later table id svc' = (Resolved (Some record), svc'))
  ∧ (now_store + DataService.cacheTtlMs svc < now_again →
     fst (DataService.findOne now_again now_later table id svc') =
     match Adapter.findOne table id (DataService.adapter svc') with
     | (Resolved found, _) => Resolved found
     | (Rejected err, _) => Rejected (DataError (message_or "findOne failed" err) ADAPTER)
     end).
Proof.
  intros Hvalid Hreach Hfirst Httl.
  rewrite (findOne_validated _ _ _ _ _ Hvalid) in Hfirst. simpl in Hreach, Hfirst.
  destruct (DataService.getCached now_lookup _ (DataService.cache svc)) as [[cached|] c];
    [discriminate|].
  destruct (Adapter.findOne table id (DataService.adapter svc)) as [[[found|]|err] a];
    try discriminate.
  injection Hfirst as <- <-.
  assert (Spec.valid (DataService.allowedTables svc)
            (Spec.FindOne now_again now_later table id) = true) as Hvalid' by exact Hvalid.
  unfold DataService.setCache. destruct (Z.gtb_spec (DataService.cacheTtlMs svc) 0); [|lia].
  split; intros Hclock.
  - rewrite findOne_validated by exact Hvalid'. simpl.
    unfold DataService.getCached. rewrite lookup_insert_eq. simpl.
    destruct (Z.gtb_spec now_again (now_store + DataService.cacheTtlMs svc)); [lia|].
    reflexivity.
  - rewrite findOne_validated by exact Hvalid'. simpl.
    unfold DataService.getCached. rewrite lookup_insert_eq. simpl.
    destruct (Z.gtb_spec now_again (now_store + DataService.cacheTtlMs svc)); [|lia].
    destruct (Adapter.findOne table id a) as [[[again|]|err] a']; reflexivity.
Qed.

End ServiceCaching.

Lemma findOne_cache_window_witness :
  let adapter := @InMemoryAdapter.adapter Fixtures.numbering in
  let config := Some {| DataService.config_cacheTtlMs := Some 60000;
                        DataService.config_allowedTables := None |} in
  let svc := snd (@DataService.create _ adapter "users" ∅
                    (DataService.constructor InMemoryAdapter.empty config)) in
  let svc' := snd (@DataService.findOne _ adapter 10 11 "users" "mem-0" svc) in
  @DataService.findOne _ adapter 60011 60012 "users" "mem-0" svc'
  = (Resolved (Some (Spec.new_record "mem-0" "t0" ∅)), svc').
Proof.
  intros adapter config svc svc'.
  refine (proj1 (@findOne_cache_window _ adapter 10 11 60011 60012 "users" "mem-0"
                   (Spec.new_record "mem-0" "t0" ∅) svc svc' _ _ _ _) _).
  - vm_compute. reflexivity.
  - vm_compute. reflexivity.
  - vm_compute. reflexivity.
  - vm_compute. reflexivity.
  - vm_compute. discriminate.
Defined.

Lemma invalidateTable_lookup_Some table (cache : gmap string DataService.CacheEntry)
    key entry :
  DataService.invalidateTable table cache !! key = Some entry → cache !! key = Some entry.
Proof.
  rewrite invalidateTable_lookup. now destruct (Js.startsWith _ _).
Qed.

Lemma getCached_lookup_Some now key (cache : gmap string DataService.CacheEntry) k entry :
  snd (DataService.getCached now key cache) !! k = Some entry → cache !! k = Some entry.
Proof.
  unfold DataService.getCached. destruct (cache !! key) as [e|]; [|tauto].
  destruct (now >? DataService.expiresAt e); simpl; [|tauto].
  now intros [_ ?]%lookup_delete_Some.
Qed.

Section ServiceCacheGrowth.
Context {A : Type} `{Adapter.DataAdapter A}.

(** X6: No operation changes the TTL or the allow-list, and a cache entry that
    is there after an operation was there before it, with one exception:
    the entry that a findOne with valid arguments stores under table:id
    when the TTL is positive, which expires at the reading of the clock at
    storing plus the TTL.  So list reads, counts and writes never add to
    the cache, and with a TTL of zero or less nothing is ever cached. *)
Theorem cache_grows_only_by_findOne (op : Spec.Operation) (svc : DataService.t A) :
  DataService.cacheTtlMs (snd (Spec.perform op svc)) = DataService.cacheTtlMs svc
  ∧ DataService.allowedTables (snd (Spec.perform op svc)) = DataService.allowedTables svc
  ∧ ∀ key entry,
      DataService.cache (snd (Spec.perform op svc)) !! key = Some entry →
      DataService.cache svc !! key = Some entry
      ∨ ∃ now_lookup now_store table id,
          op = Spec.FindOne now_lookup now_store table id
          ∧ Spec.valid (DataService.allowedTables svc) op = true
          ∧ key = table +:+ ":" +:+ id
          ∧ 0 < DataService.cacheTtlMs svc
          ∧ DataService.expiresAt entry = now_store + DataService.cacheTtlMs svc.
Proof.
  destruct op as [t o|n1 n2 t id|t d|t d|t id d|t id|t f|t f].
  2:{ destruct (Spec.valid (DataService.allowedTables svc) (Spec.FindOne n1 n2 t id))
        eqn:Hvalid.
      - cbn [Spec.perform]. rewrite (findOne_validated _ _ _ _ _ Hvalid). cbv zeta.
        pose proof (getCached_lookup_Some n1 (DataService.cacheKey t (Some id))
                      (DataService.cache svc)) as Hget.
        destruct (DataService.getCached n1 _ (DataService.cache svc)) as [[cached|] c];
          simpl in *.
        { split; [reflexivity|]. split; [reflexivity|]. intros key entry Hentry.
          left. now apply Hget. }
        destruct (Adapter.findOne t id (DataService.adapter svc)) as [[[found|]|err] a];
          simpl; (split; [reflexivity|]; split; [reflexivity|]); intros key entry;
          try (intros Hentry; left; now apply Hget).
        unfold DataService.setCache.
        destruct (Z.gtb_spec (DataService.cacheTtlMs svc) 0);
          [|intros Hentry; left; now apply Hget].
        intros [[<- <-]|[_ Hold]]%lookup_insert_Some; [right | left; now apply Hget].
        exists n1, n2, t, id. split; [reflexivity|]. split; [reflexivity|].
        split; [|split; [lia | reflexivity]].
        apply cacheKey_of_valid_id. rewrite valid_checks in Hvalid. simpl in Hvalid.
        now apply andb_prop in Hvalid as [_ ?].
      - destruct (invalid_is_rejected _ svc Hvalid) as [message ->]. simpl.
        split; [reflexivity|]. split; [reflexivity|]. intros; now left. }
  all: simpl; unfold_method;
    repeat (case_match; simplify_eq/=);
    (split; [reflexivity|]; split; [simpl; congruence|]); intros key entry Hentry;
    left; eauto using invalidateTable_lookup_Some;
    try (now apply lookup_delete_Some in Hentry as [_ ?]).
Qed.

End ServiceCacheGrowth.

Lemma cache_grows_only_by_findOne_witness :
  let adapter := @InMemoryAdapter.adapter Fixtures.numbering in
  let svc := snd (@DataService.create _ adapter "users" ∅
                    (DataService.constructor InMemoryAdapter.empty None)) in
  fst (@Spec.perform _ adapter (Spec.FindOne 10 11 "users" "mem-0") svc) = None
  ∧ DataService.cache
      (snd (@Spec.perform _ adapter (Spec.FindOne 10 11 "users" "mem-0") svc))
    !! "users:mem-0" = None.
Proof.
  intros adapter svc. split; [vm_compute; reflexivity|].
  destruct (DataService.cache _ !! "users:mem-0") as [entry|] eqn:Hentry; [|reflexivity].
  destruct (proj2 (proj2 (@cache_grows_only_by_findOne _ adapter
                            (Spec.FindOne 10 11 "users" "mem-0") svc)) _ entry Hentry)
    as [Hold|(? & ? & ? & ? & _ & _ & _ & Httl & _)].
  - vm_compute in Hold. discriminate.
  - vm_compute in Httl. discriminate.
Defined.

(** ** The in-memory adapter: reading *)

Lemma slice_take_drop {X} (arr : list X) (offset limit : Z) :
  0 ≤ offset → 0 ≤ limit →
  Js.slice offset (offset + limit) arr
  = take (Z.to_nat limit) (drop (Z.to_nat offset) arr).
Proof.
  intros Hoffset Hlimit. unfold Js.slice, Js.relIndex.
  destruct (Z.ltb_spec offset 0); [lia|].
  destruct (Z.ltb_spec (offset + limit) 0); [lia|].
  destruct (Z.le_gt_cases (Z.of_nat (length arr)) offset) as [Hout|Hin].
  - rewrite !drop_ge by lia. now rewrite !take_nil.
  - replace (Z.to_nat (Z.min offset (Z.of_nat (length arr)))) with (Z.to_nat offset) by lia.
    destruct (Z.le_gt_cases (offset + limit) (Z.of_nat (length arr))) as [Hfull|Hshort].
    + f_equal. lia.
    + rewrite !take_ge; [reflexivity | |]; rewrite length_drop; lia.
Qed.

Section MemoryReads.
Context `{InMemoryAdapter.Host}.

Lemma getTable_frame table st :
  (∀ t, Spec.rows (snd (InMemoryAdapter.getTable table st)) t = Spec.rows st t)
  ∧ (∀ t, t ≠ table →
       InMemoryAdapter.tables (snd (InMemoryAdapter.getTable table st)) !! t
       = InMemoryAdapter.tables st !! t)
  ∧ InMemoryAdapter.uuid_calls (snd (InMemoryAdapter.getTable table st))
    = InMemoryAdapter.uuid_calls st
  ∧ InMemoryAdapter.clock_reads (snd (InMemoryAdapter.getTable table st))
    = InMemoryAdapter.clock_reads st.
Proof.
  unfold InMemoryAdapter.getTable, Spec.rows.
  destruct (InMemoryAdapter.tables st !! table) as [records|] eqn:E; simpl;
    [repeat split|].
  split; [|split; [|split; reflexivity]].
  - intros t. destruct (decide (t = table)) as [->|Hne].
    + now rewrite lookup_insert_eq, E.
    + now rewrite lookup_insert_ne.
  - intros t Hne. now apply lookup_insert_ne.
Qed.

(** X7: findMany, findOne, count and healthCheck change no record of any
    table and draw neither an identifier nor a clock reading (all they may
    do is register the table they were asked about, empty). *)
Theorem reads_leave_records (table id : string) (options : option QueryOptions.t)
    (filters : option (list QueryFilter.t)) (st : InMemoryAdapter.t) (t : string) :
  let unchanged st' :=
    Spec.rows st' t = Spec.rows st t
    ∧ InMemoryAdapter.uuid_calls st' = InMemoryAdapter.uuid_calls st
    ∧ InMemoryAdapter.clock_reads st' = InMemoryAdapter.clock_reads st in
  unchanged (snd (InMemoryAdapter.findMany table options st))
  ∧ unchanged (snd (InMemoryAdapter.findOne table id st))
  ∧ unchanged (snd (InMemoryAdapter.count table filters st))
  ∧ unchanged (snd (InMemoryAdapter.healthCheck st)).
Proof.
  cbv zeta. destruct (getTable_frame table st) as (Hrows & _ & Huuid & Hclock).
  specialize (Hrows t).
  unfold InMemoryAdapter.findMany, InMemoryAdapter.findOne, InMemoryAdapter.count,
    InMemoryAdapter.healthCheck.
  destruct (InMemoryAdapter.getTable table st) as [records st1]. simpl in *.
  repeat split; try assumption.
  all: try (destruct (InMemoryAdapter.applyFilters records _); simpl; assumption).
Qed.

(** The options of a page: the given filters, ordering and selection with
    an offset and a limit. *)
Definition page_options (options : QueryOptions.t) (offset limit : Z) : option QueryOptions.t :=
  Some {| QueryOptions.filters := QueryOptions.filters options;
          QueryOptions.orderBy := QueryOptions.orderBy options;
          QueryOptions.limit := Some limit;
          QueryOptions.offset := Some offset;
          QueryOptions.select := QueryOptions.select options |}.

(** X8: For an offset and limits that are not negative, a page holds at most
    [limit] records, the count does not depend on the page asked for, and
    two pages that follow each other make up the page of both limits
    together: no record is lost or repeated between pages. *)
Theorem pages_concatenate (table : string) (options : QueryOptions.t)
    (offset limit1 limit2 : Z) (st : InMemoryAdapter.t)
    (p1 p2 p12 : PaginatedResult.t) :
  0 ≤ offset → 0 ≤ limit1 → 0 ≤ limit2 →
  fst (InMemoryAdapter.findMany table (page_options options offset limit1) st)
  = Resolved p1 →
  fst (InMemoryAdapter.findMany table (page_options options (offset + limit1) limit2) st)
  = Resolved p2 →
  fst (InMemoryAdapter.findMany table (page_options options offset (limit1 + limit2)) st)
  = Resolved p12 →
  PaginatedResult.data p12 = (PaginatedResult.data p1 ++ PaginatedResult.data p2)%list
  ∧ PaginatedResult.count p1 = PaginatedResult.count p12
  ∧ PaginatedResult.count p2 = PaginatedResult.count p12
  ∧ Z.of_nat (length (PaginatedResult.data p1)) ≤ limit1.
Proof.
  intros Hoffset Hlimit1 Hlimit2. unfold InMemoryAdapter.findMany, page_options.
  destruct (InMemoryAdapter.getTable table st) as [stored st1]. simpl.
  destruct (InMemoryAdapter.applyFilters stored _) as [records|err]; [|discriminate].
  simpl. intros [= <-] [= <-] [= <-]. simpl.
  rewrite !slice_take_drop by lia. repeat split.
  - rewrite Z2Nat.inj_add by lia. rewrite <- take_take_drop, drop_drop.
    do 3 f_equal. lia.
  - rewrite length_take. lia.
Qed.

End MemoryReads.

Lemma pages_concatenate_witness :
  let st := snd (@InMemoryAdapter.createMany Fixtures.numbering "users" [∅; ∅; ∅; ∅; ∅]
                   InMemoryAdapter.empty) in
  let options := {| QueryOptions.filters := None; QueryOptions.orderBy := None;
                    QueryOptions.limit := None; QueryOptions.offset := None;
                    QueryOptions.select := None |} in
  let p1 := {| PaginatedResult.data :=
                 [Spec.new_record "mem-1" "t1" ∅; Spec.new_record "mem-2" "t2" ∅];
               PaginatedResult.count := 5; PaginatedResult.limit := 2;
               PaginatedResult.offset := 1; PaginatedResult.hasMore := true |} in
  let p2 := {| PaginatedResult.data :=
                 [Spec.new_record "mem-3" "t3" ∅; Spec.new_record "mem-4" "t4" ∅];
               PaginatedResult.count := 5; PaginatedResult.limit := 2;
               PaginatedResult.offset := 3; PaginatedResult.hasMore := false |} in
  let p12 := {| PaginatedResult.data :=
                  [Spec.new_record "mem-1" "t1" ∅; Spec.new_record "mem-2" "t2" ∅;
                   Spec.new_record "mem-3" "t3" ∅; Spec.new_record "mem-4" "t4" ∅];
                PaginatedResult.count := 5; PaginatedResult.limit := 4;
                PaginatedResult.offset := 1; PaginatedResult.hasMore := false |} in
  fst (@InMemoryAdapter.findMany Fixtures.numbering "users" (page_options options 1 2) st)
  = Resolved p1
  ∧ fst (@InMemoryAdapter.findMany Fixtures.numbering "users"
           (page_options options (1 + 2) 2) st) = Resolved p2
  ∧ fst (@InMemoryAdapter.findMany Fixtures.numbering "users"
           (page_options options 1 (2 + 2)) st) = Resolved p12
  ∧ PaginatedResult.data p12 = (PaginatedResult.data p1 ++ PaginatedResult.data p2)%list.
Proof.
  intros st options p1 p2 p12.
  assert (fst (@InMemoryAdapter.findMany Fixtures.numbering "users"
                 (page_options options 1 2) st) = Resolved p1) as H1
    by (vm_compute; reflexivity).
  assert (fst (@InMemoryAdapter.findMany Fixtures.numbering "users"
                 (page_options options (1 + 2) 2) st) = Resolved p2) as H2
    by (vm_compute; reflexivity).
  assert (fst (@InMemoryAdapter.findMany Fixtures.numbering "users"
                 (page_options options 1 (2 + 2)) st) = Resolved p12) as H12
    by (vm_compute; reflexivity).
  split; [exact H1|]. split; [exact H2|]. split; [exact H12|].
  exact (proj1 (@pages_concatenate Fixtures.numbering "users" options 1 2 2 st p1 p2 p12
                  ltac:(lia) ltac:(lia) ltac:(lia) H1 H2 H12)).
Defined.

(** ** The in-memory adapter: writing *)

Lemma find_app_fresh {X} (p : X → bool) before x :
  (∀ y, y ∈ before → p y = false) → p x = true →
  List.find p (before ++ [x]) = Some x.
Proof.
  intros Hbefore Hx. induction before as [|y before IH]; simpl.
  - now rewrite Hx.
  - rewrite (Hbefore y (list_elem_of_here _ _)). apply IH.
    intros z Hz. apply Hbefore. now apply list_elem_of_further.
Qed.

(** Where findIndex points: the first element that satisfies the test. *)
Lemma findIndex_Some {X} (p : X → bool) : ∀ arr idx,
  Js.findIndex p arr = Some idx →
  ∃ before x after,
    arr = (before ++ x :: after)%list ∧ length before = idx ∧ p x = true
    ∧ (∀ y, y ∈ before → p y = false)
    ∧ Js.splice1 idx arr = (before ++ after)%list
    ∧ List.find p arr = Some x.
Proof.
  induction arr as [|y arr IH]; intros idx Hidx; [discriminate|]. simpl in Hidx.
  destruct (p y) eqn:Hy.
  - injection Hidx as <-. exists [], y, arr. simpl. rewrite Hy.
    repeat split. intros z Hz. inversion Hz.
  - apply fmap_Some in Hidx as (i & Hi & ->).
    destruct (IH i Hi) as (before & x & after & -> & <- & Hx & Hbefore & Hsplice & Hfind).
    exists (y :: before), x, after. simpl. rewrite Hy, Hsplice, Hfind.
    repeat split; try assumption.
    intros z [->|Hz]%elem_of_cons; auto.
Qed.

Lemma find_findIndex {X} (p : X → bool) arr :
  List.find p arr = None ↔ Js.findIndex p arr = None.
Proof.
  induction arr as [|y arr IH]; simpl; [tauto|].
  destruct (p y); [split; discriminate|]. now rewrite fmap_None.
Qed.

Section MemoryWrites.
Context `{InMemoryAdapter.Host}.

(** X9: A record that was created is found under its identifier: when uuid()
    never repeats itself and the stored identifiers were drawn from it,
    findOne after create returns the created record and changes
    nothing. *)
Theorem create_then_findOne (table : string) (data : gmap string Json.JsValue)
    (st : InMemoryAdapter.t) :
  Inj (=) (=) InMemoryAdapter.randomUUID →
  Spec.ids_drawn st →
  ∃ record st',
    InMemoryAdapter.create table data st = (Resolved record, st')
    ∧ InMemoryAdapter.findOne table (DataRecord.id record) st'
      = (Resolved (Some record), st')
    ∧ Spec.rows st' table = (Spec.rows st table ++ [record])%list.
Proof.
  intros Hinj Hdrawn. rewrite create_eq. do 2 eexists. split; [reflexivity|].
  split; [|unfold Spec.rows at 1; simpl; now rewrite lookup_insert_eq].
  unfold InMemoryAdapter.findOne, InMemoryAdapter.getTable. simpl.
  rewrite lookup_insert_eq. simpl.
  rewrite find_app_fresh; [reflexivity| |].
  - intros r Hr. apply String.eqb_neq. intros E.
    destruct (Hdrawn table r Hr) as (k & Hk & Hid). rewrite Hid in E.
    apply Hinj in E. lia.
  - apply String.eqb_refl.
Qed.

(** X10: update of an id that is not in the table is rejected with NOT_FOUND
    and changes no record.  update of an id that is there replaces, in
    place, the first record with that id: the identifier is kept and
    updated_at is the new clock reading, whatever [data] holds under those
    keys; created_at is kept only when [data] has no created_at, otherwise
    the value in [data] replaces the stored one; a field of [data]
    overrides the stored one and the other fields stay; the table keeps
    its length and its identifiers in their order. *)
Theorem update_in_place (table id : string) (data : gmap string Json.JsValue)
    (st : InMemoryAdapter.t) :
  (List.find (InMemoryAdapter.has_id id) (Spec.rows st table) = None →
   fst (InMemoryAdapter.update table id data st)
   = Rejected (DataError ("Not found: " +:+ id) NOT_FOUND)
   ∧ ∀ t, Spec.rows (snd (InMemoryAdapter.update table id data st)) t = Spec.rows st t)
  ∧ (∀ existing,
       List.find (InMemoryAdapter.has_id id) (Spec.rows st table) = Some existing →
       ∃ updated st' before after,
         InMemoryAdapter.update table id data st = (Resolved updated, st')
         ∧ Spec.rows st table = (before ++ existing :: after)%list
         ∧ Spec.rows st' table = (before ++ updated :: after)%list
         ∧ DataRecord.id updated = id
         ∧ DataRecord.created_at updated
           = match data !! "created_at" with
             | Some v => Some v
             | None => DataRecord.created_at existing
             end
         ∧ DataRecord.updated_at updated
           = Some (InMemoryAdapter.toISOString (InMemoryAdapter.clock_reads st))
         ∧ (∀ f, f ∉ ["id"; "created_at"; "updated_at"] →
              DataRecord.fields updated !! f
              = match data !! f with
                | Some v => Some v
                | None => DataRecord.fields existing !! f
                end)
         ∧ ∀ t, t ≠ table →
             InMemoryAdapter.tables st' !! t = InMemoryAdapter.tables st !! t).
Proof.
  pose proof (getTable_rows table st) as (Hrows & _ & Htable).
  destruct (getTable_frame table st) as (Hframe & Hothers & _ & Hclock).
  unfold InMemoryAdapter.update.
  destruct (InMemoryAdapter.getTable table st) as [records st1]. simpl in *. subst records.
  split.
  - intros Hnone%find_findIndex. rewrite Hnone. simpl. split; [reflexivity | exact Hframe].
  - intros existing Hfind.
    destruct (Js.findIndex (InMemoryAdapter.has_id id) (Spec.rows st table)) as [idx|] eqn:Hidx.
    2:{ apply find_findIndex in Hidx. congruence. }
    destruct (findIndex_Some _ _ _ Hidx)
      as (before & x & after & Hsplit & Hlen & Hx & _ & _ & Hfind').
    assert (x = existing) as -> by congruence.
    assert (Spec.rows st table !! idx = Some existing) as Hat.
    { rewrite Hsplit, <- Hlen. now rewrite list_lookup_middle. }
    rewrite Hat. do 2 eexists. exists before, after.
    split; [reflexivity|]. split; [exact Hsplit|]. simpl. split; [|split; [|split; [|split; [|split]]]].
    + unfold Spec.rows at 1. simpl. rewrite lookup_insert_eq. simpl.
      rewrite Hsplit at 1. rewrite <- Hlen.
      rewrite insert_app_r_alt by lia. now rewrite Nat.sub_diag.
    + now apply String.eqb_eq.
    + reflexivity.
    + now rewrite Hclock.
    + intros f Hf. rewrite lookup_union, (omit_reserved_lookup data f Hf).
      destruct (data !! f), (DataRecord.fields existing !! f); reflexivity.
    + intros t Hne. rewrite lookup_insert_ne by congruence. now apply Hothers.
Qed.

(** X11: delete removes the first record with the id and nothing else: the
    records before it and after it stay, in their order. *)
Theorem delete_removes_first_match (table id : string) (st st' : InMemoryAdapter.t) :
  InMemoryAdapter.delete table id st = (Resolved tt, st') →
  ∃ before victim after,
    Spec.rows st table = (before ++ victim :: after)%list
    ∧ DataRecord.id victim = id
    ∧ (∀ r, r ∈ before → DataRecord.id r ≠ id)
    ∧ Spec.rows st' table = (before ++ after)%list
    ∧ ∀ t, t ≠ table →
        InMemoryAdapter.tables st' !! t = InMemoryAdapter.tables st !! t.
Proof.
  pose proof (getTable_rows table st) as (Hrows & _ & _).
  destruct (getTable_frame table st) as (_ & Hothers & _ & _).
  unfold InMemoryAdapter.delete.
  destruct (InMemoryAdapter.getTable table st) as [records st1]. simpl in *. subst records.
  destruct (Js.findIndex (InMemoryAdapter.has_id id) (Spec.rows st table)) as [idx|] eqn:Hidx;
    [|discriminate].
  intros [= <-].
  destruct (findIndex_Some _ _ _ Hidx)
    as (before & x & after & Hsplit & _ & Hx & Hbefore & Hsplice & _).
  exists before, x, after. split; [exact Hsplit|]. split; [now apply String.eqb_eq|].
  split; [|split].
  - intros r Hr. apply String.eqb_neq. now apply Hbefore.
  - unfold Spec.rows at 1. simpl. rewrite lookup_insert_eq. simpl. exact Hsplice.
  - intros t Hne. simpl. rewrite lookup_insert_ne by congruence. now apply Hothers.
Qed.

Lemma filter_elem_of {X} (p : X → bool) (l : list X) x :
  x ∈ List.filter p l ↔ x ∈ l ∧ p x = true.
Proof. rewrite !list_elem_of_In. apply filter_In. Qed.

Lemma filter_sublist {X} (p : X → bool) (l : list X) : List.filter p l `sublist_of` l.
Proof.
  induction l as [|x l IH]; simpl; [constructor|].
  destruct (p x); now constructor.
Qed.

Lemma rows_with_tables table records tables st :
  Spec.rows (InMemoryAdapter.with_tables (<[table := records]> tables) st) table = records.
Proof. unfold Spec.rows. simpl. now rewrite lookup_insert_eq. Qed.

(** X12: deleteMany answers the number of records it removed; it removes the
    records that match the filters (and any record sharing an identifier
    with one of them) and leaves the others.  When a filter throws nothing
    is removed.  With an empty list of filters every record matches: the
    table is emptied. *)
Theorem deleteMany_accounting (table : string) (filters : list QueryFilter.t)
    (st : InMemoryAdapter.t) :
  (∀ matching,
     InMemoryAdapter.applyFilters (Spec.rows st table) (Some filters) = Resolved matching →
     fst (InMemoryAdapter.deleteMany table filters st)
     = Resolved (Z.of_nat (length (Spec.rows st table))
                 - Z.of_nat (length (Spec.rows
                                       (snd (InMemoryAdapter.deleteMany table filters st))
                                       table)))
     ∧ (∀ r, r ∈ Spec.rows (snd (InMemoryAdapter.deleteMany table filters st)) table
             ↔ r ∈ Spec.rows st table
               ∧ ∀ m, m ∈ matching → DataRecord.id m ≠ DataRecord.id r))
  ∧ (∀ err,
       InMemoryAdapter.applyFilters (Spec.rows st table) (Some filters) = Rejected err →
       fst (InMemoryAdapter.deleteMany table filters st) = Rejected err
       ∧ Spec.rows (snd (InMemoryAdapter.deleteMany table filters st)) table
         = Spec.rows st table)
  ∧ (filters = [] →
     fst (InMemoryAdapter.deleteMany table filters st)
     = Resolved (Z.of_nat (length (Spec.rows st table)))
     ∧ Spec.rows (snd (InMemoryAdapter.deleteMany table filters st)) table = []).
Proof.
  pose proof (getTable_rows table st) as (Hrows & Hrows1 & _).
  unfold InMemoryAdapter.deleteMany.
  destruct (InMemoryAdapter.getTable table st) as [records st1]. simpl in *. subst records.
  assert (∀ matching r,
            r ∈ List.filter
                  (λ r, negb (Js.includes (List.map DataRecord.id matching) (DataRecord.id r)))
                  (Spec.rows st table)
            ↔ r ∈ Spec.rows st table ∧ ∀ m, m ∈ matching → DataRecord.id m ≠ DataRecord.id r)
    as Hkept.
  { intros matching r. rewrite filter_elem_of. apply and_iff_compat_l.
    rewrite negb_true_iff. split.
    - intros Hno m Hm E. apply not_true_iff_false in Hno. apply Hno. apply includes_In.
      rewrite <- E. apply in_map. now apply list_elem_of_In.
    - intros Hno. apply not_true_iff_false. intros Hin%includes_In.
      apply in_map_iff in Hin as (m & E & Hm). apply (Hno m); [now apply list_elem_of_In | exact E]. }
  split; [|split].
  - intros matching ->. cbn [fst snd]. rewrite !rows_with_tables.
    split; [reflexivity | apply Hkept].
  - intros err ->. simpl. split; [reflexivity | exact Hrows1].
  - intros ->. cbn [InMemoryAdapter.applyFilters fst snd]. rewrite !rows_with_tables.
    assert (List.filter
              (λ r, negb (Js.includes (List.map DataRecord.id (Spec.rows st table))
                            (DataRecord.id r)))
              (Spec.rows st table) = []) as ->.
    { destruct (List.filter _ _) as [|r rest] eqn:E; [reflexivity|].
      assert (r ∈ r :: rest) as Hr by apply list_elem_of_here.
      rewrite <- E in Hr. apply Hkept in Hr as [Hr Hno]. now destruct (Hno r Hr). }
    simpl. split; [f_equal; lia | reflexivity].
Qed.

(** X13: count answers the count that findMany reports for the same filters
    (without ordering, whatever the page), and is rejected when findMany
    is. *)
Theorem count_agrees_with_findMany (table : string) (filters : option (list QueryFilter.t))
    (limit offset : option Z) (select : option (list string)) (st : InMemoryAdapter.t) :
  fst (InMemoryAdapter.count table filters st)
  = match fst (InMemoryAdapter.findMany table
                 (Some {| QueryOptions.filters := filters; QueryOptions.orderBy := None;
                          QueryOptions.limit := limit; QueryOptions.offset := offset;
                          QueryOptions.select := select |}) st) with
    | Resolved result => Resolved (PaginatedResult.count result)
    | Rejected err => Rejected err
    end
  ∧ fst (InMemoryAdapter.count table None st)
    = match fst (InMemoryAdapter.findMany table None st) with
      | Resolved result => Resolved (PaginatedResult.count result)
      | Rejected err => Rejected err
      end.
Proof.
  unfold InMemoryAdapter.count, InMemoryAdapter.findMany.
  destruct (InMemoryAdapter.getTable table st) as [records st1]. simpl.
  split; [|reflexivity].
  destruct (InMemoryAdapter.applyFilters records filters); reflexivity.
Qed.

Lemma filter_throwing_all records :
  InMemoryAdapter.filter_throwing (λ _, Resolved true) records = Resolved records.
Proof. induction records as [|r records IH]; simpl; [reflexivity|]. now rewrite IH. Qed.

Lemma filter_throwing_ext p q records :
  (∀ r, p r = q r) →
  InMemoryAdapter.filter_throwing p records = InMemoryAdapter.filter_throwing q records.
Proof.
  intros E. induction records as [|r records IH]; simpl; [reflexivity|].
  now rewrite E, IH.
Qed.

Lemma every_known filters r :
  InMemoryAdapter.every filters r
  = InMemoryAdapter.every
      (List.filter (λ f, Js.includes InMemoryAdapter.operators (QueryFilter.operator f))
         filters) r.
Proof.
  induction filters as [|f filters IH]; [reflexivity|].
  cbn [InMemoryAdapter.every List.filter]. unfold InMemoryAdapter.switch at 1.
  destruct (Js.includes InMemoryAdapter.operators (QueryFilter.operator f)) eqn:E.
  - cbn [InMemoryAdapter.every]. unfold InMemoryAdapter.switch. rewrite E.
    destruct (InMemoryAdapter.test f r) as [[]|]; [exact IH | reflexivity..].
  - exact IH.
Qed.

End MemoryWrites.

(** ** Filters with an operator that has no case *)

Section UnknownOperators.
Context `{InMemoryAdapter.Host} {Q : Type} `{SupabaseFilters.QueryBuilder Q}.

(** The filter's operator is one of the ten. *)
Definition known (f : QueryFilter.t) : bool :=
  Js.includes InMemoryAdapter.operators (QueryFilter.operator f).

Lemma applyFilter_unknown (query : Q) f :
  known f = false → SupabaseFilters.applyFilter query f = query.
Proof.
  unfold known, Js.includes, InMemoryAdapter.operators. cbn [existsb]. intros Hknown.
  unfold SupabaseFilters.applyFilter. cbv zeta.
  repeat (apply orb_false_elim in Hknown as [-> Hknown]). reflexivity.
Qed.

(** X14: Both adapters ignore a filter whose operator is not one of eq, neq,
    gt, gte, lt, lte, like, ilike, in, is: the in-memory adapter selects
    the same records, and the remote adapter makes the same calls on the
    query builder, as without such filters. *)
Theorem unknown_operators_are_ignored (filters : list QueryFilter.t)
    (records : list DataRecord.t) (query : Q) :
  InMemoryAdapter.applyFilters records (Some filters)
  = InMemoryAdapter.applyFilters records (Some (List.filter known filters))
  ∧ SupabaseFilters.applyFilters query filters
    = SupabaseFilters.applyFilters query (List.filter known filters).
Proof.
  split.
  - destruct filters as [|f filters]; [reflexivity|].
    cbn [InMemoryAdapter.applyFilters].
    rewrite (filter_throwing_ext _ _ records (every_known (f :: filters))).
    fold known. destruct (List.filter known (f :: filters)) as [|g gs].
    + apply filter_throwing_all.
    + reflexivity.
  - unfold SupabaseFilters.applyFilters. revert query.
    induction filters as [|f filters IH]; intros query; [reflexivity|]. simpl.
    destruct (known f) eqn:Hf; simpl.
    + apply IH.
    + rewrite (applyFilter_unknown query f Hf). apply IH.
Qed.

End UnknownOperators.

(** ** The identifiers the in-memory adapter stores *)

Lemma splice1_sublist {X} : ∀ idx (arr : list X), Js.splice1 idx arr `sublist_of` arr.
Proof.
  induction idx as [|idx IH]; intros [|x arr]; simpl; try constructor.
  - reflexivity.
  - apply IH.
Qed.

Section MemoryIdentifiers.
Context `{InMemoryAdapter.Host}.

(** Every stored identifier was drawn from uuid(), and no table holds two
    records with the same identifier. *)
Definition ids_well_kept (st : InMemoryAdapter.t) : Prop :=
  Spec.ids_drawn st ∧ ∀ t, NoDup (List.map DataRecord.id (Spec.rows st t)).

Lemma ids_well_kept_shrink st st' :
  ids_well_kept st →
  (InMemoryAdapter.uuid_calls st ≤ InMemoryAdapter.uuid_calls st')%nat →
  (∀ t, List.map DataRecord.id (Spec.rows st' t)
        `sublist_of` List.map DataRecord.id (Spec.rows st t)) →
  ids_well_kept st'.
Proof.
  intros [Hdrawn Hunique] Hcalls Hsub. split.
  - intros t r Hr.
    assert (DataRecord.id r ∈ List.map DataRecord.id (Spec.rows st t)) as Hin.
    { eapply sublist_subseteq; [apply (Hsub t)|]. apply list_elem_of_fmap. now exists r. }
    apply list_elem_of_fmap in Hin as (r' & E & Hr').
    destruct (Hdrawn t r' Hr') as (k & Hk & Hid). exists k. split; [lia | congruence].
  - intros t. eapply sublist_NoDup; [apply Hunique | apply (Hsub t)].
Qed.

Lemma rows_with_tables_at table records st t :
  Spec.rows (InMemoryAdapter.with_tables
               (<[table := records]> (InMemoryAdapter.tables st)) st) t
  = if decide (t = table) then records else Spec.rows st t.
Proof.
  unfold Spec.rows. simpl. destruct (decide (t = table)) as [->|Hne].
  - now rewrite lookup_insert_eq.
  - now rewrite lookup_insert_ne.
Qed.

Lemma createMany_single table d st :
  snd (InMemoryAdapter.createMany table [d] st) = snd (InMemoryAdapter.create table d st).
Proof.
  unfold InMemoryAdapter.createMany. cbn [InMemoryAdapter.create_each].
  now destruct (InMemoryAdapter.create table d st).
Qed.

Lemma getTable_keeps table st :
  ids_well_kept st → ids_well_kept (snd (InMemoryAdapter.getTable table st)).
Proof.
  intros Hkept. destruct (getTable_frame table st) as (Hrows & _ & Huuid & _).
  apply (ids_well_kept_shrink st); [exact Hkept | lia|].
  intros t. now rewrite Hrows.
Qed.

(** An operation that replaces the records of [table], as they are after
    [getTable], by records whose identifiers are among theirs. *)
Lemma replace_keeps table st records :
  ids_well_kept st →
  List.map DataRecord.id records
  `sublist_of` List.map DataRecord.id (Spec.rows st table) →
  ∀ calls clock,
    (InMemoryAdapter.uuid_calls st ≤ calls)%nat →
    ids_well_kept
      {| InMemoryAdapter.tables :=
           <[table := records]>
             (InMemoryAdapter.tables (snd (InMemoryAdapter.getTable table st)));
         InMemoryAdapter.uuid_calls := calls;
         InMemoryAdapter.clock_reads := clock |}.
Proof.
  intros Hkept Hsub calls clock Hcalls.
  destruct (getTable_frame table st) as (Hrows & _ & _ & _).
  apply (ids_well_kept_shrink st); [exact Hkept | exact Hcalls|].
  intros t. unfold Spec.rows at 1. simpl. destruct (decide (t = table)) as [->|Hne].
  - rewrite lookup_insert_eq. exact Hsub.
  - rewrite lookup_insert_ne by congruence. fold (Spec.rows (snd (InMemoryAdapter.getTable table st)) t).
    now rewrite Hrows.
Qed.

(** X15: Provided uuid() never repeats itself, every operation of the adapter
    keeps the identifiers well kept, and so does every sequence of
    operations from the empty adapter: no table ever holds two records
    with one identifier. *)
Theorem identifiers_stay_unique (ops : list Spec.Operation) :
  Inj (=) (=) InMemoryAdapter.randomUUID →
  (∀ op st, ids_well_kept st →
            ids_well_kept (snd (@Spec.adapter_call _ InMemoryAdapter.adapter op st)))
  ∧ ids_well_kept
      (fold_left (λ st op, snd (@Spec.adapter_call _ InMemoryAdapter.adapter op st))
         ops InMemoryAdapter.empty).
Proof.
  intros Hinj.
  assert (∀ op st, ids_well_kept st →
            ids_well_kept (snd (@Spec.adapter_call _ InMemoryAdapter.adapter op st)))
    as Hstep.
  { intros op st Hkept. pose proof (getTable_keeps (Spec.table_of op) st Hkept) as Hget.
    pose proof (getTable_rows (Spec.table_of op) st) as (Hrows & _ & _).
    destruct op as [t o|n1 n2 t id|t d|t ds|t id d|t id|t f|t f];
      cbn [Spec.adapter_call Adapter.findMany Adapter.findOne Adapter.create
             Adapter.createMany Adapter.update Adapter.delete Adapter.deleteMany
             Adapter.count InMemoryAdapter.adapter Spec.table_of] in *.
    - unfold InMemoryAdapter.findMany.
      destruct (InMemoryAdapter.getTable t st) as [records st1].
      destruct (InMemoryAdapter.applyFilters records _); exact Hget.
    - unfold InMemoryAdapter.findOne.
      destruct (InMemoryAdapter.getTable t st) as [records st1]. exact Hget.
    - destruct (InMemoryAdapter.create t d st) as [settled st'] eqn:E.
      change st' with (snd (settled, st')). rewrite <- E, <- createMany_single.
      destruct Hkept as [Hdrawn Hunique]. split.
      + now apply createMany_ids_drawn.
      + now apply createMany_ids_unique.
    - destruct (InMemoryAdapter.createMany t ds st) as [settled st'] eqn:E.
      change st' with (snd (settled, st')). rewrite <- E.
      destruct Hkept as [Hdrawn Hunique]. split.
      + now apply createMany_ids_drawn.
      + now apply createMany_ids_unique.
    - unfold InMemoryAdapter.update.
      destruct (InMemoryAdapter.getTable t st) as [records st1] eqn:E.
      cbn [fst snd] in *. subst records.
      destruct (Js.findIndex _ _) as [idx|]; [|exact Hget].
      destruct (Spec.rows st t !! idx) as [existing|] eqn:Hat; [|exact Hget].
      cbn [snd]. change st1 with (snd (Spec.rows st t, st1)). rewrite <- E.
      destruct (getTable_frame t st) as (_ & _ & Huuid & _).
      apply replace_keeps; [exact Hkept| |lia].
      rewrite list_fmap_insert. simpl.
      rewrite list_insert_id; [reflexivity|]. now rewrite list_lookup_fmap, Hat.
    - unfold InMemoryAdapter.delete.
      destruct (InMemoryAdapter.getTable t st) as [records st1] eqn:E.
      cbn [fst snd] in *. subst records.
      destruct (Js.findIndex _ _) as [idx|]; [|exact Hget].
      cbn [snd]. unfold InMemoryAdapter.with_tables.
      change st1 with (snd (Spec.rows st t, st1)). rewrite <- E.
      destruct (getTable_frame t st) as (_ & _ & Huuid & _).
      apply replace_keeps; [exact Hkept| |lia].
      apply fmap_sublist, splice1_sublist.
    - unfold InMemoryAdapter.deleteMany.
      destruct (InMemoryAdapter.getTable t st) as [records st1] eqn:E.
      cbn [fst snd] in *. subst records.
      destruct (InMemoryAdapter.applyFilters _ _) as [matching|err]; [|exact Hget].
      cbn [snd]. unfold InMemoryAdapter.with_tables.
      change st1 with (snd (Spec.rows st t, st1)). rewrite <- E.
      destruct (getTable_frame t st) as (_ & _ & Huuid & _).
      apply replace_keeps; [exact Hkept| |lia].
      apply fmap_sublist, filter_sublist.
    - unfold InMemoryAdapter.count.
      destruct (InMemoryAdapter.getTable t st) as [records st1].
      destruct (InMemoryAdapter.applyFilters records _); exact Hget. }
  split; [exact Hstep|].
  assert (∀ st, ids_well_kept st →
            ids_well_kept
              (fold_left (λ st op, snd (@Spec.adapter_call _ InMemoryAdapter.adapter op st))
                 ops st)) as Hrun.
  { induction ops as [|op ops IH]; intros st Hkept; [exact Hkept|].
    simpl. apply IH. now apply Hstep. }
  apply Hrun. split; [apply empty_ids_drawn|].
  intros t. unfold Spec.rows. simpl. rewrite lookup_empty. constructor.
Qed.

End MemoryIdentifiers.

Lemma create_then_findOne_witness :
  ∃ record st',
    @InMemoryAdapter.create Fixtures.numbering "users" {["name" := Json.JsString "ada"]}
      InMemoryAdapter.empty = (Resolved record, st')
    ∧ InMemoryAdapter.findOne "users" (DataRecord.id record) st'
      = (Resolved (Some record), st')
    ∧ Spec.rows st' "users" = (Spec.rows InMemoryAdapter.empty "users" ++ [record])%list.
Proof.
  exact (@create_then_findOne Fixtures.numbering "users" {["name" := Json.JsString "ada"]}
           InMemoryAdapter.empty numbering_never_repeats
           (@empty_ids_drawn Fixtures.numbering)).
Defined.

Lemma delete_removes_first_match_witness :
  let st := snd (@InMemoryAdapter.createMany Fixtures.numbering "users" [∅; ∅; ∅]
                   InMemoryAdapter.empty) in
  ∃ before victim after,
    Spec.rows st "users" = (before ++ victim :: after)%list
    ∧ DataRecord.id victim = "mem-1"
    ∧ (∀ r, r ∈ before → DataRecord.id r ≠ "mem-1")
    ∧ Spec.rows (snd (InMemoryAdapter.delete "users" "mem-1" st)) "users"
      = (before ++ after)%list
    ∧ ∀ t, t ≠ "users" →
        InMemoryAdapter.tables
          (snd (InMemoryAdapter.delete "users" "mem-1" st)) !! t
        = InMemoryAdapter.tables st !! t.
Proof.
  intros st.
  apply (delete_removes_first_match "users" "mem-1" st).
  vm_compute. reflexivity.
Defined.

Lemma identifiers_stay_unique_witness :
  @ids_well_kept Fixtures.numbering
    (fold_left (λ st op, snd (@Spec.adapter_call _ (@InMemoryAdapter.adapter Fixtures.numbering)
                                op st))
       [Spec.CreateMany "users" [∅; ∅]; Spec.Update "users" "mem-0" ∅;
        Spec.Delete "users" "mem-1"; Spec.Create "users" ∅]
       InMemoryAdapter.empty).
Proof.
  exact (proj2 (@identifiers_stay_unique Fixtures.numbering
                  [Spec.CreateMany "users" [∅; ∅]; Spec.Update "users" "mem-0" ∅;
                   Spec.Delete "users" "mem-1"; Spec.Create "users" ∅]
                  numbering_never_repeats)).
Defined.

(** An update in the middle of a table: an id and an updated_at in the
    data are dropped, a created_at in the data is stored; and an update of
    an id that is not there. *)
Example update_examples :
  let st := snd (@InMemoryAdapter.createMany Fixtures.numbering "users"
                   [{["name" := Json.JsString "ada"]}; {["name" := Json.JsString "bob"]}]
                   InMemoryAdapter.empty) in
  fst (@InMemoryAdapter.update Fixtures.numbering "users" "mem-1"
         {["name" := Json.JsString "eve"; "id" := Json.JsString "other"]} st)
  = Resolved {| DataRecord.id := "mem-1";
                DataRecord.created_at := Some (Json.JsString "t1");
                DataRecord.updated_at := Some "t2";
                DataRecord.fields := {["name" := Json.JsString "eve"]} |}
  ∧ fst (@InMemoryAdapter.update Fixtures.numbering "users" "mem-1"
           {["created_at" := Json.JsNull; "updated_at" := Json.JsString "never"]} st)
    = Resolved {| DataRecord.id := "mem-1";
                  DataRecord.created_at := Some Json.JsNull;
                  DataRecord.updated_at := Some "t2";
                  DataRecord.fields := {["name" := Json.JsString "bob"]} |}
  ∧ fst (@InMemoryAdapter.update Fixtures.numbering "users" "mem-9" ∅ st)
    = Rejected (DataError "Not found: mem-9" NOT_FOUND)
  ∧ fst (@InMemoryAdapter.deleteMany Fixtures.numbering "users" [] st) = Resolved 2.
Proof. vm_compute. repeat split. Qed.

(** ** Filter and order parameters: when parsing succeeds *)

Lemma map_throwing_resolved {X Y} (f : X → Outcome Y) : ∀ items,
  Forall (λ x, ∃ y, f x = Resolved y) items →
  ∃ ys, Api.map_throwing f items = Resolved ys
        ∧ length ys = length items
        ∧ ∀ k x, items !! k = Some x → ∃ y, ys !! k = Some y ∧ f x = Resolved y.
Proof.
  induction items as [|x items IH]; intros Hall.
  - exists []. repeat split. intros k x Hk. discriminate.
  - apply Forall_cons in Hall as [[y Hy] Hall]. destruct (IH Hall) as (ys & E & Hlen & Hat).
    exists (y :: ys). simpl. rewrite Hy, E. split; [reflexivity|]. split; [now rewrite Hlen|].
    intros [|k] x' Hk; simpl in *.
    + injection Hk as <-. eauto.
    + now apply Hat.
Qed.

Lemma map_throwing_rejected {X Y} (f : X → Outcome Y) : ∀ items ys,
  Api.map_throwing f items = Resolved ys → Forall (λ x, ∃ y, f x = Resolved y) items.
Proof.
  induction items as [|x items IH]; intros ys E; [constructor|]. simpl in E.
  destruct (f x) as [y|] eqn:Hx; [|discriminate].
  destruct (Api.map_throwing f items) as [ys'|] eqn:E'; [|discriminate].
  constructor; eauto.
Qed.

(** X16: parseFilters on an array of raw strings is all or nothing: it yields
    filters exactly when every string has at least three segments, and
    then one filter per string, in order; a single malformed string makes
    the whole call fail.  It yields no filters for an undefined parameter,
    for the empty string and for the empty array. *)
Theorem parseFilters_all_or_nothing (items : list string) :
  ((∃ filters, Api.parseFilters (Api.many items) = Resolved filters)
   ↔ Forall (λ s, (3 ≤ Spec.segments s)%nat) items)
  ∧ (∀ filters, Api.parseFilters (Api.many items) = Resolved filters →
       length filters = length items
       ∧ ∀ k s, items !! k = Some s →
           ∃ f, filters !! k = Some f ∧ Api.parseFilter s = Resolved f)
  ∧ Api.parseFilters Api.undefined = Resolved []
  ∧ Api.parseFilters (Api.one EmptyString) = Resolved []
  ∧ Api.parseFilters (Api.many []) = Resolved [].
Proof.
  assert (∀ s, (∃ f, Api.parseFilter s = Resolved f) ↔ (3 ≤ Spec.segments s)%nat) as Hitem.
  { intros s. split; [|apply parseFilter_long_enough].
    intros [f Hf]. destruct (Nat.le_gt_cases 3 (Spec.segments s)) as [?|Hshort]; [assumption|].
    rewrite (parseFilter_too_short s Hshort) in Hf. discriminate. }
  split; [|split; [|repeat split]].
  - simpl. split.
    + intros [filters E]. apply map_throwing_rejected in E.
      eapply Forall_impl; [exact E|]. intros s. apply Hitem.
    + intros Hall. destruct (map_throwing_resolved Api.parseFilter items) as (ys & E & _).
      * eapply Forall_impl; [exact Hall|]. intros s. apply Hitem.
      * eauto.
  - simpl. intros filters E.
    destruct (map_throwing_resolved Api.parseFilter items (map_throwing_rejected _ _ _ E))
      as (ys & E' & Hlen & Hat).
    assert (ys = filters) as -> by congruence. split; assumption.
Qed.

(** X17: parseOrderBy never fails.  It yields undefined exactly for an
    undefined parameter and for the empty string, and a list of the same
    length for an array (an empty list for the empty array).  Only the
    first two segments of a directive count: what follows a second colon
    is ignored. *)
Theorem parseOrderBy_edges (raw : Api.Raw) (field dir rest : string) :
  (Api.parseOrderBy raw = None ↔ raw = Api.undefined ∨ raw = Api.one EmptyString)
  ∧ (∀ items, raw = Api.many items →
       ∃ keys, Api.parseOrderBy raw = Some keys ∧ length keys = length items)
  ∧ (Spec.segment field = true → Spec.segment dir = true →
     Api.parseOrder (field +:+ ":" +:+ dir +:+ ":" +:+ rest)
     = Api.parseOrder (field +:+ ":" +:+ dir)).
Proof.
  split; [|split].
  - destruct raw as [|[|c s]|items]; simpl; split; try tauto; try discriminate.
    + intros [?|?]; discriminate.
    + intros [?|?]; discriminate.
  - intros items ->. simpl. eexists. split; [reflexivity|]. now rewrite length_map.
  - intros Hf Hd. unfold Api.parseOrder.
    rewrite !(split_segment_colon field _ Hf), (split_segment_colon dir _ Hd),
      (split_segment dir Hd).
    reflexivity.
Qed.

Lemma parseOrderBy_edges_witness :
  Api.parseOrder ("name" +:+ ":" +:+ "desc" +:+ ":" +:+ "nulls:last")
  = Api.parseOrder ("name" +:+ ":" +:+ "desc").
Proof.
  apply (proj2 (proj2 (parseOrderBy_edges Api.undefined "name" "desc" "nulls:last")));
    reflexivity.
Defined.

(** ** The routes *)

Section RoutesAnyAdapter.
Context {A : Type} `{Adapter.DataAdapter A}.

(** X18: GET /:table/count reads its filters before it turns to the service:
    with a malformed filter among them it answers 400 with the message
    naming the first such filter, whatever the table name is, and the
    service is not touched. *)
Theorem count_route_reports_filter_first (table s : string) (before after : list string)
    (query : option string) (svc : DataService.t A) :
  (Spec.segments s < 3)%nat →
  Forall (λ x, (3 ≤ Spec.segments x)%nat) before →
  Routes.count table (Some (before ++ s :: after)%list) query svc
  = ({| Routes.status := 400;
        Routes.body :=
          Routes.error_body
            ("Invalid filter format: " +:+ s +:+ " (expected field:op:value)") |}, svc).
Proof.
  intros Hs Hbefore. unfold Routes.count, Routes.raw_param. cbn [Api.parseFilters].
  rewrite (map_throwing_first_failure Api.parseFilter before s after
             (PlainError ("Invalid filter format: " +:+ s +:+ " (expected field:op:value)"))).
  - reflexivity.
  - eapply Forall_impl; [exact Hbefore|]. intros x Hx. now apply parseFilter_long_enough.
  - now apply parseFilter_too_short.
Qed.

(** X19: GET /health never fails and answers 200 or 503: 200 exactly when the
    adapter's health check came back with ok, 503 with ok false and latency
    -1 when the adapter threw.  The cache is left alone. *)
Theorem health_route (svc : DataService.t A) :
  ∃ response svc',
    Routes.health svc = (Resolved response, svc')
    ∧ DataService.cache svc' = DataService.cache svc
    ∧ (Routes.status response = 200
       ↔ ∃ h a, Adapter.healthCheck (DataService.adapter svc) = (Resolved h, a)
                ∧ ok h = true)
    ∧ (Routes.status response = 200 ∨ Routes.status response = 503)
    ∧ (∀ err a, Adapter.healthCheck (DataService.adapter svc) = (Rejected err, a) →
         response = {| Routes.status := 503;
                       Routes.body :=
                         Routes.health_body {| ok := false; latencyMs := -1 |} |}).
Proof.
  unfold Routes.health. unfold_method.
  destruct (Adapter.healthCheck (DataService.adapter svc)) as [[h|err] a]; simpl.
  - do 2 eexists. split; [reflexivity|]. split; [reflexivity|]. simpl.
    destruct (ok h) eqn:Hok; (split; [|split; [|discriminate]]).
    + split; [eauto | reflexivity].
    + now left.
    + split; [discriminate|]. intros (h' & a' & [= <- <-] & Hok'). congruence.
    + now right.
  - do 2 eexists. split; [reflexivity|]. split; [reflexivity|]. simpl.
    split; [|split; [now right | reflexivity]].
    split; [discriminate|]. intros (h' & a' & E & _). discriminate.
Qed.

End RoutesAnyAdapter.

Lemma count_route_reports_filter_first_witness :
  @Routes.count nat Fixtures.unreachable "no such table!"
    (Some (["age:gte:18"] ++ "name=bob" :: [])%list) None (DataService.constructor 0%nat None)
  = ({| Routes.status := 400;
        Routes.body :=
          Routes.error_body "Invalid filter format: name=bob (expected field:op:value)" |},
     DataService.constructor 0%nat None).
Proof.
  apply (@count_route_reports_filter_first nat Fixtures.unreachable "no such table!"
           "name=bob" ["age:gte:18"] [] None (DataService.constructor 0%nat None)).
  - vm_compute. lia.
  - constructor; [vm_compute; lia | constructor].
Defined.

Section RoutesInMemory.
Context `{InMemoryAdapter.Host}.
#[local] Existing Instance InMemoryAdapter.adapter.

(** X20: Over the in-memory adapter, with one record per identifier: DELETE of
    a record that is there answers 200 with ok; a GET of it afterwards
    answers 404 "Not found"; a second DELETE answers 400 (not 404) with
    the message "Not found: <id>". *)
Theorem delete_route_then_get (table id : string) (svc : DataService.t InMemoryAdapter.t) :
  Spec.valid (DataService.allowedTables svc) (Spec.Delete table id) = true →
  NoDup (List.map DataRecord.id (Spec.rows (DataService.adapter svc) table)) →
  (∃ r, r ∈ Spec.rows (DataService.adapter svc) table ∧ DataRecord.id r = id) →
  ∃ svc',
    Routes.delete table id svc
    = ({| Routes.status := 200; Routes.body := Routes.ok_body |}, svc')
    ∧ (∀ now_lookup now_store,
         fst (Routes.findOne now_lookup now_store table id svc')
         = {| Routes.status := 404; Routes.body := Routes.error_body "Not found" |})
    ∧ fst (Routes.delete table id svc')
      = {| Routes.status := 400;
           Routes.body := Routes.error_body ("Not found: " +:+ id) |}.
Proof.
  intros Hvalid Hnodup Hpresent.
  destruct (delete_present table id svc Hvalid Hnodup Hpresent)
    as (svc' & Hdelete & Hrows & Hfind).
  assert (DataService.allowedTables svc' = DataService.allowedTables svc) as Hallowed.
  { revert Hdelete. unfold_method. intros Hdelete.
    repeat (case_match; simplify_eq/=); congruence. }
  exists svc'. split; [|split].
  - unfold Routes.delete. now rewrite Hdelete.
  - intros now_lookup now_store. unfold Routes.findOne.
    specialize (Hfind now_lookup now_store).
    destruct (DataService.findOne now_lookup now_store table id svc') as [[[r|]|err] s];
      simpl in Hfind; try discriminate. reflexivity.
  - unfold Routes.delete.
    assert (fst (DataService.delete table id svc')
            = Rejected (DataError ("Not found: " +:+ id) ADAPTER)) as Hagain.
    { apply delete_absent; [now rewrite Hallowed|].
      intros r Hr. now apply Hrows in Hr as [_ ?]. }
    destruct (DataService.delete table id svc') as [[u|err] s]; simpl in Hagain;
      [discriminate|]. injection Hagain as ->. reflexivity.
Qed.

End RoutesInMemory.

Lemma delete_route_then_get_witness :
  let adapter := @InMemoryAdapter.adapter Fixtures.numbering in
  let svc := snd (@DataService.createMany _ adapter "users" [∅; ∅]
                    (DataService.constructor InMemoryAdapter.empty None)) in
  ∃ svc',
    @Routes.delete _ adapter "users" "mem-1" svc
    = ({| Routes.status := 200; Routes.body := Routes.ok_body |}, svc')
    ∧ (∀ now_lookup now_store,
         fst (@Routes.findOne _ adapter now_lookup now_store "users" "mem-1" svc')
         = {| Routes.status := 404; Routes.body := Routes.error_body "Not found" |})
    ∧ fst (@Routes.delete _ adapter "users" "mem-1" svc')
      = {| Routes.status := 400;
           Routes.body := Routes.error_body ("Not found: " +:+ "mem-1") |}.
Proof.
  intros adapter svc.
  apply (@delete_route_then_get Fixtures.numbering "users" "mem-1" svc).
  - vm_compute. reflexivity.
  - apply (bool_decide_unpack _). vm_compute. reflexivity.
  - exists (Spec.new_record "mem-1" "t1" ∅). split; [|reflexivity].
    vm_compute. apply list_elem_of_further, list_elem_of_here.
Defined.
